(** * ranger: navigation history, signals, commands, previews, tabs

    A shallow embedding of the parts of ranger that the specification
    talks about:

    - [ranger/container/history.py]  (module [History])
    - [ranger/ext/signals.py]        (module [Signals])
    - [ranger/api/commands.py]       (module [Commands])
    - [ranger/core/actions.py]       (module [Previews], the preview cache)
    - [ranger/core/tab.py]           (module [Tab])

    Python objects are modelled by records, mutation by explicit state
    passing, and exceptions by the [result] type below. *)

From Stdlib Require Import ZArith QArith Lqa List Ascii String Lia Bool Sorted.
From stdpp Require Import gmap strings list fin_maps sorting.

Local Open Scope string_scope.
Local Open Scope list_scope.
Local Open Scope nat_scope.

(** ** Python exceptions and results *)

Inductive exn : Type :=
| KeyError
| IndexError
| AttributeError
| TypeError
| ReferenceError
| IOError
| ValueError (msg : string)
| HistoryEmptyException.

Inductive result (A : Type) : Type :=
| Ok (a : A)
| Raise (e : exn).
Arguments Ok {A} a.
Arguments Raise {A} e.

Definition is_ok {A} (r : result A) : bool :=
  match r with Ok _ => true | Raise _ => false end.

(** ** ranger/container/history.py *)

Module History.

(** [collections.deque(maxlen=...)]: the right end is the end of the list.
    Appending to a full bounded deque discards items from the left. *)
Section Deque.
Context {A : Type}.

Definition deque_append (maxlen : option nat) (d : list A) (x : A) : list A :=
  match maxlen with
  | None => d ++ [x]
  | Some m => drop (length (d ++ [x]) - m) (d ++ [x])
  end.

(** [d.pop()]: the rightmost item and the rest; [IndexError] when empty. *)
Definition deque_pop (d : list A) : result (A * list A) :=
  match last d with
  | Some x => Ok (x, removelast d)
  | None => Raise IndexError
  end.
End Deque.

Section WithItem.
Context {Item : Type} `{EqDecision Item}.

Record t : Type := mk {
  maxlen : option nat;
  history : list Item;
  history_forward : list Item
}.

(** [History.__init__(self, maxlen=None)] *)
Definition init (maxlen : option nat) : t :=
  {| maxlen := maxlen; history := []; history_forward := [] |}.

(** [History.add] *)
Definition add (h : t) (item : Item) : t :=
  if bool_decide (length (history h) = 0)
     || negb (bool_decide (last (history h) = Some item))
  then {| maxlen := maxlen h;
          history := deque_append (maxlen h) (history h) item;
          history_forward := [] |}
  else h.

(** [History.__len__] *)
Definition len (h : t) : nat := length (history h).

(** [History.top]: [self.history[-1]], or [HistoryEmptyException]. *)
Definition top (h : t) : result Item :=
  match last (history h) with
  | Some x => Ok x
  | None => Raise HistoryEmptyException
  end.

(** [History.bottom]: [self.history[0]], or [HistoryEmptyException]. *)
Definition bottom (h : t) : result Item :=
  match head (history h) with
  | Some x => Ok x
  | None => Raise HistoryEmptyException
  end.

(** [History.back]: the object is mutated first, then [top] is called;
    the pair is (value or exception, object afterwards). *)
Definition back (h : t) : result Item * t :=
  let h' :=
    if 1 <? length (history h) then
      match deque_pop (history h) with
      | Ok (x, rest) =>
          {| maxlen := maxlen h;
             history := rest;
             history_forward := deque_append (maxlen h) (history_forward h) x |}
      | Raise _ => h
      end
    else h in
  (top h', h').

(** [History.forward] *)
Definition forward (h : t) : result Item * t :=
  let h' :=
    if 0 <? length (history_forward h) then
      match deque_pop (history_forward h) with
      | Ok (x, rest) =>
          {| maxlen := maxlen h;
             history := deque_append (maxlen h) (history h) x;
             history_forward := rest |}
      | Raise _ => h
      end
    else h in
  (top h', h').

(** [History.move]: falls off the end (Python [None]) when [n = 0]. *)
Definition move (h : t) (n : Z) : result (option Item) * t :=
  if (0 <? n)%Z then
    let '(r, h') := forward h in
    (match r with Ok x => Ok (Some x) | Raise e => Raise e end, h')
  else if (n <? 0)%Z then
    let '(r, h') := back h in
    (match r with Ok x => Ok (Some x) | Raise e => Raise e end, h')
  else (Ok None, h).

(** Attribute lookup on a [History] object.  The class body defines the
    methods below; [__init__] sets the two instance attributes. *)
Definition class_attributes : list string :=
  ["__init__"; "add"; "__len__"; "top"; "bottom"; "back"; "move";
   "__iter__"; "next"; "forward"].

Definition instance_attributes : list string :=
  ["history"; "history_forward"].

Definition hasattr (name : string) : bool :=
  bool_decide (name ∈ instance_attributes ++ class_attributes).

(** Python values passed to and returned from a method called by name. *)
Inductive value : Type :=
| VNone
| VInt (n : Z)
| VItem (x : Item)
| VItems (l : list Item)
| VHistory (h : t).

Definition lift_item (r : result Item) : result value :=
  match r with Ok x => Ok (VItem x) | Raise e => Raise e end.

(** [getattr(h, name)] applied to [args]: dynamic dispatch of a method call.  A name
    that is no attribute raises [AttributeError]; a wrong argument list
    raises [TypeError]. *)
Definition call_method (h : t) (name : string) (args : list value)
  : result value * t :=
  if negb (hasattr name) then (Raise AttributeError, h)
  else if String.eqb name "add" then
    match args with
    | [VItem x] => (Ok VNone, add h x)
    | _ => (Raise TypeError, h)
    end
  else if String.eqb name "__len__" then
    match args with
    | [] => (Ok (VInt (Z.of_nat (len h))), h)
    | _ => (Raise TypeError, h)
    end
  else if String.eqb name "top" then
    match args with
    | [] => (lift_item (top h), h)
    | _ => (Raise TypeError, h)
    end
  else if String.eqb name "bottom" then
    match args with
    | [] => (lift_item (bottom h), h)
    | _ => (Raise TypeError, h)
    end
  else if String.eqb name "back" then
    match args with
    | [] => let '(r, h') := back h in (lift_item r, h')
    | _ => (Raise TypeError, h)
    end
  else if String.eqb name "forward" then
    match args with
    | [] => let '(r, h') := forward h in (lift_item r, h')
    | _ => (Raise TypeError, h)
    end
  else if String.eqb name "move" then
    match args with
    | [VInt n] =>
        let '(r, h') := move h n in
        (match r with
         | Ok (Some x) => Ok (VItem x)
         | Ok None => Ok VNone
         | Raise e => Raise e
         end, h')
    | _ => (Raise TypeError, h)
    end
  else if String.eqb name "__iter__" then
    match args with
    | [] => (Ok (VItems (history h)), h)
    | _ => (Raise TypeError, h)
    end
  else if String.eqb name "__init__" then
    match args with
    | [] => (Ok VNone, init None)
    | [VNone] => (Ok VNone, init None)
    | [VInt n] =>
        if (n <? 0)%Z then (Raise (ValueError "maxlen must be non-negative"), h)
        else (Ok VNone, init (Some (Z.to_nat n)))
    | _ => (Raise TypeError, h)
    end
  else if String.eqb name "next" then
    (* [self.history.next()]: a deque has no such attribute *)
    (Raise AttributeError, h)
  else
    (* the two deques themselves are not callable *)
    (Raise TypeError, h).
End WithItem.

Arguments t : clear implicits.
Arguments value : clear implicits.

End History.


(** ** ranger/ext/signals.py *)

Module Signals.

(** A Python callable handed to [signal_bind]: its identity, the number of
    declared arguments ([function.__code__.co_argcount]) and whether it is a
    bound method (it then has [__self__]). *)
Record callable : Type := {
  fn_id : nat;
  co_argcount : Z;
  has_self : bool
}.

(** What a handler stores in [handler.function]. *)
Inductive handler_function : Type :=
| Direct (c : callable)          (* the function itself *)
| Proxy (c : callable)           (* [weakref.proxy(function)] *)
| MethodOfProxy (c : callable).  (* [(function.__func__, weakref.proxy(function.__self__))] *)

(** [class SignalHandler].  [hid] is the identity of the Python object: the
    dispatcher below hands out identities in the order in which handlers are
    created, so a smaller [hid] means "bound earlier". *)
Record SignalHandler : Type := mkHandler {
  hid : nat;
  (* a Python float; the dispatcher compares and negates priorities, which
     is exact, so the rationals carry the same order *)
  priority : Q;
  signal_name : string;
  function : handler_function;
  pass_signal : bool;
  active : bool
}.

Definition Qltb (x y : Q) : bool := negb (Qle_bool y x).

(** Python's two-argument [min(a, b)] and [max(a, b)]: the first argument
    is kept unless the second is strictly smaller (resp. larger). *)
Definition py_min (a b : Q) : Q := if Qltb b a then b else a.
Definition py_max (a b : Q) : Q := if Qltb a b then b else a.

(** [SignalHandler.__init__]; [active = True] is the class attribute. *)
Definition SignalHandler_init (id : nat) (signal_name : string)
  (function : handler_function) (priority : Q) (pass_signal : bool)
  : SignalHandler :=
  {| hid := id;
     priority := py_max 0 (py_min 1 priority);
     signal_name := signal_name;
     function := function;
     pass_signal := pass_signal;
     active := true |}.

(** [list.sort(key=...)] is a stable sort.  The stable insertion sort below
    computes the list every stable sort computes. *)
Fixpoint insert_by (key : SignalHandler -> Q) (x : SignalHandler)
  (l : list SignalHandler) : list SignalHandler :=
  match l with
  | [] => [x]
  | y :: l' =>
      if Qle_bool (key x) (key y) then x :: y :: l'
      else y :: insert_by key x l'
  end.

Definition sort_by (key : SignalHandler -> Q) (l : list SignalHandler)
  : list SignalHandler :=
  foldr (insert_by key) [] l.

(** [list.remove(x)]: drops the first item equal to [x] (handlers compare by
    identity); [None] stands for the [ValueError] of a missing item. *)
Fixpoint list_remove (h : SignalHandler) (l : list SignalHandler)
  : option (list SignalHandler) :=
  match l with
  | [] => None
  | y :: l' =>
      if Nat.eqb (hid y) (hid h) then Some l'
      else match list_remove h l' with
           | Some r => Some (y :: r)
           | None => None
           end
  end.

(** [class SignalDispatcher]: [_signals] maps a signal name to its list of
    handlers; [next_hid] is the allocator of handler identities. *)
Record SignalDispatcher : Type := mkDispatcher {
  _signals : gmap string (list SignalHandler);
  next_hid : nat
}.

(** [SignalDispatcher.__init__], also bound to [signal_clear]. *)
Definition signal_clear (d : SignalDispatcher) : SignalDispatcher :=
  {| _signals := ∅; next_hid := next_hid d |}.

Definition empty : SignalDispatcher := {| _signals := ∅; next_hid := 0 |}.

(** [SignalDispatcher.signal_bind] *)
Definition signal_bind (d : SignalDispatcher) (signal_name : string)
  (function : callable) (prio : Q) (weak : bool)
  : SignalHandler * SignalDispatcher :=
  let handlers := default [] (_signals d !! signal_name) in
  let nargs := co_argcount function in
  let '(nargs, fn) :=
    if has_self function
    then ((nargs - 1)%Z, if weak then MethodOfProxy function else Direct function)
    else (nargs, if weak then Proxy function else Direct function) in
  let handler :=
    SignalHandler_init (next_hid d) signal_name fn prio (0 <? nargs)%Z in
  let handlers := sort_by (fun handler => (- priority handler)%Q)
                          (handlers ++ [handler]) in
  (handler,
   {| _signals := <[signal_name := handlers]> (_signals d);
      next_hid := S (next_hid d) |}).

(** [SignalDispatcher.signal_unbind] *)
Definition signal_unbind (d : SignalDispatcher) (signal_handler : SignalHandler)
  : SignalDispatcher :=
  match _signals d !! signal_name signal_handler with
  | None => d
  | Some handlers =>
      match list_remove signal_handler handlers with
      | Some handlers' =>
          {| _signals := <[signal_name signal_handler := handlers']> (_signals d);
             next_hid := next_hid d |}
      | None => d
      end
  end.

Section Emit.
(** The values carried by a signal and the state of the rest of the
    program, on which the handlers act. *)
Context {Val World : Type}.

(** Python truthiness of a value (for a [stopped] keyword of the emitter). *)
Variable truthy : Val -> bool.

(** [class Signal(dict)]: the keyword fields, of which [stopped] is read
    by the dispatcher. *)
Record Signal : Type := mkSignal {
  name : string;
  fields : list (string * Val);
  stopped : bool
}.

(** The result of calling a handler's function: the exception it raised, if
    any, the signal as the function left it (when it was given one), and
    the world afterwards. *)
Record call_outcome : Type := mkOutcome {
  raised : option exn;
  signal_after : option Signal;
  world_after : World
}.

(** Whether the referent of the weak proxy in a handler's function is gone
    in this state of the program. *)
Variable gone : handler_function -> World -> bool.

(** Calling [fnc(signal)] (with [Some signal]) or [fnc()] (with [None]).
    The handlers act on the signal and on the rest of the program; they
    do not call back into the dispatcher that is emitting (which iterates
    over [tuple(handlers)], a copy taken before the first call). *)
Variable invoke : handler_function -> option Signal -> World -> call_outcome.

(** [isinstance(handler.function, tuple)].  The test stands before the
    [try]: on a weak proxy it asks the referent for its [__class__], and
    that raises [ReferenceError] when the referent is gone (Python 3).  A
    pair is a tuple whatever became of the proxy in it. *)
Definition isinstance_tuple (f : handler_function) (w : World) : result bool :=
  match f with
  | Direct _ => Ok false
  | Proxy _ => if gone f w then Raise ReferenceError else Ok false
  | MethodOfProxy _ => Ok true
  end.

Record emit_result : Type := mkEmit {
  returned : result bool;
  dispatcher_after : SignalDispatcher;
  world_end : World;
  invoked : list SignalHandler   (* the handlers called, in call order *)
}.

(** The loop [for handler in tuple(handlers)] of [signal_emit]. *)
Fixpoint propagate (snapshot : list SignalHandler) (signal_name : string)
  (signal : Signal) (d : SignalDispatcher) (w : World)
  (called : list SignalHandler) : emit_result :=
  match snapshot with
  | [] => mkEmit (Ok true) d w called
  | handler :: rest =>
      if active handler then
        match isinstance_tuple (function handler) w with
        | Raise e => mkEmit (Raise e) d w called
        | Ok _ =>
            let o := invoke (function handler)
                            (if pass_signal handler then Some signal else None) w in
            let signal' := if pass_signal handler
                           then default signal (signal_after o) else signal in
            let w' := world_after o in
            let called' := called ++ [handler] in
            match raised o with
            | None =>
                if stopped signal' then mkEmit (Ok false) d w' called'
                else propagate rest signal_name signal' d w' called'
            | Some ReferenceError =>
                (* [handlers.remove(handler)] on the dispatcher's list *)
                match list_remove handler (default [] (_signals d !! signal_name)) with
                | Some handlers' =>
                    let d' := {| _signals := <[signal_name := handlers']> (_signals d);
                                 next_hid := next_hid d |} in
                    if stopped signal' then mkEmit (Ok false) d' w' called'
                    else propagate rest signal_name signal' d' w' called'
                | None =>
                    mkEmit (Raise (ValueError "list.remove(x): x not in list"))
                           d w' called'
                end
            | Some e => mkEmit (Raise e) d w' called'
            end
        end
      else propagate rest signal_name signal d w called
  end.

(** [Signal(origin=self, name=signal_name, **kw)]: a keyword of the
    emitter named [origin] or [name] is given twice, a [TypeError]; one
    named [stopped] hides the class attribute [stopped = False]. *)
Definition Signal_init (signal_name : string) (kw : list (string * Val))
  : result Signal :=
  if existsb (fun p => String.eqb (fst p) "origin" || String.eqb (fst p) "name") kw
  then Raise TypeError
  else Ok {| name := signal_name;
             fields := kw;
             stopped := match list_find (fun p => fst p = "stopped") kw with
                        | Some (_, (_, v)) => truthy v
                        | None => false
                        end |}.

(** [SignalDispatcher.signal_emit] *)
Definition signal_emit (d : SignalDispatcher) (signal_name : string)
  (kw : list (string * Val)) (w : World) : emit_result :=
  match _signals d !! signal_name with
  | None => mkEmit (Ok true) d w []
  | Some [] => mkEmit (Ok true) d w []
  | Some handlers =>
      match Signal_init signal_name kw with
      | Raise e => mkEmit (Raise e) d w []
      | Ok signal => propagate handlers signal_name signal d w []
      end
  end.

(** The operations of a dispatcher, for runs of several of them. *)
Inductive op : Type :=
| Bind (signal_name : string) (function : callable) (priority : Q) (weak : bool)
| Unbind (signal_handler : SignalHandler)
| Clear
| Emit (signal_name : string) (kw : list (string * Val)).

Definition run_op (o : op) (s : SignalDispatcher * World) : SignalDispatcher * World :=
  match o with
  | Bind n f p weak => (snd (signal_bind (fst s) n f p weak), snd s)
  | Unbind h => (signal_unbind (fst s) h, snd s)
  | Clear => (signal_clear (fst s), snd s)
  | Emit n kw =>
      let r := signal_emit (fst s) n kw (snd s) in
      (dispatcher_after r, world_end r)
  end.

Definition run (ops : list op) (s : SignalDispatcher * World) : SignalDispatcher * World :=
  foldl (fun s o => run_op o s) s ops.
End Emit.

(** The order of dispatch: [before h1 h2] when [h1] has the higher priority,
    or the same priority and was bound earlier. *)
Definition before (h1 h2 : SignalHandler) : Prop :=
  (priority h2 < priority h1)%Q \/
  ((priority h1 == priority h2)%Q /\ hid h1 < hid h2).

(** The invariant of a dispatcher: every handler list is in dispatch order
    and holds handlers that were allocated by this dispatcher. *)
Definition well_formed (d : SignalDispatcher) : Prop :=
  forall signal_name handlers,
    _signals d !! signal_name = Some handlers ->
    StronglySorted before handlers /\
    Forall (fun h => hid h < next_hid d) handlers.

(** Handler functions for the examples: three plain functions of one
    argument, and a world that is not looked at. *)
Definition fn_a : callable := {| fn_id := 1; co_argcount := 1; has_self := false |}.
Definition fn_b : callable := {| fn_id := 2; co_argcount := 1; has_self := false |}.
Definition fn_c : callable := {| fn_id := 3; co_argcount := 1; has_self := false |}.

Definition quiet (f : handler_function) (s : option (@Signal unit)) (w : unit)
  : @call_outcome unit unit :=
  {| raised := None; signal_after := s; world_after := w |}.

(** Every referent is there. *)
Definition never_gone (f : handler_function) (w : unit) : bool := false.

End Signals.


(** ** ranger/api/commands.py *)

Module Commands.

(** A subclass of [Command], as far as the container looks at it: its
    [__name__], the [name] attribute of its own class dictionary ([None]
    when it has none, or when it is Python's [None]) and [allow_abbrev]. *)
Record CommandClass : Type := mkClass {
  cls_name : string;
  own_name : option string;
  allow_abbrev : bool
}.

#[global] Instance CommandClass_eq_dec : EqDecision CommandClass.
Proof. solve_decision. Defined.

(** [class CommandContainer] *)
Record CommandContainer : Type := mkContainer {
  commands : gmap string CommandClass;
  aliases : gmap string string
}.

(** [CommandContainer.__init__] *)
Definition init : CommandContainer := {| commands := ∅; aliases := ∅ |}.

(** [CommandContainer.__getitem__] *)
Definition getitem (cc : CommandContainer) (key : string) : result CommandClass :=
  match commands cc !! key with
  | Some c => Ok c
  | None => Raise KeyError
  end.


(** [CommandContainer.register]: an empty [name] is falsy. *)
Definition register (cc : CommandContainer) (command : CommandClass)
  : CommandContainer :=
  match own_name command with
  | Some n =>
      if negb (String.eqb n "") then
        {| commands := <[n := command]> (commands cc); aliases := aliases cc |}
      else
        {| commands := <[cls_name command := command]> (commands cc);
           aliases := aliases cc |}
  | None =>
      {| commands := <[cls_name command := command]> (commands cc);
         aliases := aliases cc |}
  end.

(** The condition of the list comprehension in [get_command]:
    [cls.allow_abbrev and cmd.startswith(name) or cmd == name]. *)
Definition matches (name : string) (item : string * CommandClass) : bool :=
  allow_abbrev (snd item) && String.prefix name (fst item)
  || String.eqb (fst item) name.

(** The items of [self.commands.items()] that pass the condition. *)
Definition matching (cc : CommandContainer) (name : string)
  : list (string * CommandClass) :=
  List.filter (matches name) (map_to_list (commands cc)).

(** [CommandContainer.get_command]; [Ok None] is the [None] returned by an
    exact lookup that finds nothing. *)
Definition get_command (cc : CommandContainer) (name : string) (abbrev : bool)
  : result (option CommandClass) :=
  if abbrev then
    let lst := List.map snd (matching cc name) in
    match lst with
    | [] => Raise KeyError
    | [c] => Ok (Some c)
    | _ =>
        (* [self.commands[name] in lst]: the subscript is evaluated first *)
        match commands cc !! name with
        | None => Raise KeyError
        | Some c =>
            if bool_decide (c ∈ lst) then Ok (Some c)
            else Raise (ValueError "Ambiguous command")
        end
    end
  else
    Ok (commands cc !! name).

(** [CommandContainer.command_generator] *)
Definition command_generator (cc : CommandContainer) (start : string)
  : list string :=
  List.map (fun item => String.append (fst item) " ")
    (List.filter (fun item => String.prefix start (fst item))
       (map_to_list (commands cc))).

(** *** [class Command]: the line helpers *)

(** [str.isspace] of Python 3.  A [string] stands for a [str] whose
    characters are the code points below 256; of those the white space is
    9..13, the separators 28..31, the space, U+0085 and U+00A0. *)
Definition is_space (c : ascii) : bool :=
  let k := nat_of_ascii c in
  (9 <=? k) && (k <=? 13) || (28 <=? k) && (k <=? 32)
  || (k =? 133) || (k =? 160).

(** [line.split()]: the maximal runs of characters that are not white space. *)
Fixpoint split_from (cur : option string) (s : string) : list string :=
  match s with
  | EmptyString => match cur with Some w => [w] | None => [] end
  | String c s' =>
      if is_space c then
        match cur with
        | Some w => w :: split_from None s'
        | None => split_from None s'
        end
      else split_from (Some (String.append (default "" cur) (String c ""))) s'
  end.

Definition split (s : string) : list string := split_from None s.

(** [l[i]] with Python's negative indices; [None] is the [IndexError]. *)
Definition py_index {A} (l : list A) (i : Z) : option A :=
  if (0 <=? i)%Z then l !! Z.to_nat i
  else if (- i <=? Z.of_nat (length l))%Z
       then l !! Z.to_nat (Z.of_nat (length l) + i)
       else None.

(** The instance attributes of a [Command] that the helpers read. *)
Record Command : Type := mkCommand {
  line : string;
  args : list string;
  n : option Z;
  pos : Z;
  _shifted : Z
}.

(** [Command.setargs]; [_shifted] is the class attribute [0] until [shift]
    sets it on the instance. *)
Definition setargs (c : Command) (line : string) (pos : option Z) (n : option Z)
  : Command :=
  {| line := line;
     args := split line;
     n := n;
     pos := match pos with
            | None => Z.of_nat (String.length line)
            | Some p => p
            end;
     _shifted := _shifted c |}.

(** A fresh instance, before [setargs]. *)
Definition new_command : Command :=
  {| line := ""; args := []; n := None; pos := 0; _shifted := 0 |}.

(** [Command.arg] *)
Definition arg (c : Command) (n : Z) : string :=
  match py_index (args c) n with
  | Some w => w
  | None => ""
  end.

(** The loop of [Command.rest] over the characters from index [i] on, the
    string [s] being [self.line[i:]]. *)
Fixpoint rest_loop (target : Z) (got_space : bool) (word_count : Z) (s : string)
  : string :=
  match s with
  | EmptyString => ""
  | String c s' =>
      if Ascii.eqb c " " then
        if negb got_space then rest_loop target true (word_count + 1) s'
        else rest_loop target got_space word_count s'
      else if got_space then
        if (word_count =? target)%Z then s
        else rest_loop target false word_count s'
      else rest_loop target got_space word_count s'
  end.

(** [Command.rest] *)
Definition rest (c : Command) (n : Z) : string :=
  rest_loop (n + _shifted c) false 0 (line c).

(** [Command.shift]: [del self.args[0]] raises [IndexError] on an empty
    list, before [_shifted] is touched. *)
Definition shift (c : Command) : result Command :=
  match args c with
  | [] => Raise IndexError
  | _ :: args' =>
      Ok {| line := line c; args := args'; n := n c; pos := pos c;
            _shifted := _shifted c + 1 |}
  end.

(** Three command classes for the examples, all allowing abbreviation. *)
Definition edit : CommandClass := mkClass "edit" None true.
Definition exit : CommandClass := mkClass "exit" None true.
Definition editall : CommandClass := mkClass "editall" None true.

End Commands.


(** ** ranger/core/actions.py: the preview cache *)

Module Previews.

(** The values [get_preview] returns: [None], a cached text, or the file
    object of [open(path, 'r')]. *)
Inductive pyval : Type :=
| PyNone
| PyStr (s : string)
| PyFile (path : string).

(** One entry of [self.previews]: the dictionary with the keys ['loading'],
    ['foundpreview'] (absent at first) and the pairs [(width, height)].  A
    cached value is a text or Python's [None]. *)
Record data : Type := mkData {
  loading : bool;
  foundpreview : option bool;
  cached : gmap (Z * Z) (option string)
}.

(** [self.env.cf], the selected file system object. *)
Record File : Type := mkFile {
  realpath : string;
  is_file : bool
}.

(** A [CommandLoader] made by [get_preview]: its arguments, and the entry
    [data] that its callback [on_after] closes over. *)
Record CommandLoader : Type := mkLoader {
  job_script : string;
  job_path : string;
  job_width : Z;
  job_height : Z;
  job_data : nat
}.

(** The part of the file manager that the preview functions touch.  The
    entries are shared objects: [previews] maps a path to the address of its
    entry in [heap], and a callback keeps the address it was created with. *)
Record Fm : Type := mkFm {
  preview_script : option string;   (* [settings.preview_script] *)
  use_preview_script : bool;        (* [settings.use_preview_script] *)
  previews : gmap string nat;
  heap : gmap nat data;
  loader : list CommandLoader;      (* jobs handed to [self.loader.add] *)
  cf : option File;
  pager_wid : Z;                    (* [self.ui.browser.pager.wid] *)
  pager_hei : Z;                    (* [self.ui.browser.pager.hei] *)
  ui_need_redraw : bool;
  browser_need_redraw : bool;
  readable : gmap string string     (* what [open(path, 'r')] can read *)
}.

(** The address of the next entry made: one that no entry has. *)
Definition next_ref (fm : Fm) : nat := fresh (dom (heap fm)).

Definition set_entry (fm : Fm) (r : nat) (d : data) : Fm :=
  {| preview_script := preview_script fm;
     use_preview_script := use_preview_script fm;
     previews := previews fm;
     heap := <[r := d]> (heap fm);
     loader := loader fm;
     cf := cf fm;
     pager_wid := pager_wid fm;
     pager_hei := pager_hei fm;
     ui_need_redraw := ui_need_redraw fm;
     browser_need_redraw := browser_need_redraw fm;
     readable := readable fm |}.

Definition set_previews (fm : Fm) (p : gmap string nat) : Fm :=
  {| preview_script := preview_script fm;
     use_preview_script := use_preview_script fm;
     previews := p;
     heap := heap fm;
     loader := loader fm;
     cf := cf fm;
     pager_wid := pager_wid fm;
     pager_hei := pager_hei fm;
     ui_need_redraw := ui_need_redraw fm;
     browser_need_redraw := browser_need_redraw fm;
     readable := readable fm |}.

Definition set_loader (fm : Fm) (l : list CommandLoader) : Fm :=
  {| preview_script := preview_script fm;
     use_preview_script := use_preview_script fm;
     previews := previews fm;
     heap := heap fm;
     loader := l;
     cf := cf fm;
     pager_wid := pager_wid fm;
     pager_hei := pager_hei fm;
     ui_need_redraw := ui_need_redraw fm;
     browser_need_redraw := browser_need_redraw fm;
     readable := readable fm |}.

Definition set_redraw (fm : Fm) (ui browser : bool) : Fm :=
  {| preview_script := preview_script fm;
     use_preview_script := use_preview_script fm;
     previews := previews fm;
     heap := heap fm;
     loader := loader fm;
     cf := cf fm;
     pager_wid := pager_wid fm;
     pager_hei := pager_hei fm;
     ui_need_redraw := ui;
     browser_need_redraw := browser;
     readable := readable fm |}.

(** The truth value of [settings.preview_script and settings.use_preview_script]. *)
Definition script_enabled (fm : Fm) : bool :=
  match preview_script fm with
  | Some s => negb (String.eqb s "") && use_preview_script fm
  | None => false
  end.

(** [data.get((-1, -1), data.get((width, -1), data.get((-1, height),
    data.get((width, height), False))))]; [None] stands for the default
    [False] of the innermost [get]. *)
Definition found (d : data) (width height : Z) : option (option string) :=
  match cached d !! ((-1)%Z, (-1)%Z) with
  | Some v => Some v
  | None =>
      match cached d !! (width, (-1)%Z) with
      | Some v => Some v
      | None =>
          match cached d !! ((-1)%Z, height) with
          | Some v => Some v
          | None => cached d !! (width, height)
          end
      end
  end.

Definition to_pyval (v : option string) : pyval :=
  match v with Some s => PyStr s | None => PyNone end.

(** The entry that [self.previews[path]] evaluates to, if it does. *)
Definition entry_of (fm : Fm) (path : string) : option (nat * data) :=
  match previews fm !! path with
  | Some r => match heap fm !! r with Some d => Some (r, d) | None => None end
  | None => None
  end.

(** The rest of [get_preview] once [data] is at hand and not loading. *)
Definition lookup_or_submit (fm : Fm) (path : string) (width height : Z)
  (r : nat) (d : data) : pyval * Fm :=
  match found d width height with
  | None =>
      let d' := {| loading := true; foundpreview := foundpreview d;
                   cached := cached d |} in
      let loadable := {| job_script := default "" (preview_script fm);
                         job_path := path; job_width := width;
                         job_height := height; job_data := r |} in
      (PyNone, set_loader (set_entry fm r d') (loader fm ++ [loadable]))
  | Some v => (to_pyval v, fm)
  end.

(** [Actions.get_preview] *)
Definition get_preview (fm : Fm) (path : string) (width height : Z)
  : pyval * Fm :=
  if script_enabled fm then
    match entry_of fm path with
    | Some (r, d) =>
        if loading d then (PyNone, fm)
        else lookup_or_submit fm path width height r d
    | None =>
        let r := next_ref fm in
        let d := {| loading := false; foundpreview := None; cached := ∅ |} in
        let fm' := set_entry (set_previews fm (<[path := r]> (previews fm))) r d in
        lookup_or_submit fm' path width height r d
    end
  else
    match readable fm !! path with
    | Some _ => (PyFile path, fm)
    | None => (PyNone, fm)
    end.

Definition with_cached (d : data) (k : Z * Z) (v : option string) : data :=
  {| loading := loading d; foundpreview := foundpreview d;
     cached := <[k := v]> (cached d) |}.

Definition with_foundpreview (d : data) (b : bool) : data :=
  {| loading := loading d; foundpreview := Some b; cached := cached d |}.

Definition with_loading (d : data) (b : bool) : data :=
  {| loading := b; foundpreview := foundpreview d; cached := cached d |}.

(** The chain [if exit == 0: ... else: ...] of [on_after]; reading the file
    for exit code 2 can fail. *)
Definition store_result (fm : Fm) (job : CommandLoader) (exit : Z)
  (content : string) (d : data) : result data :=
  let width := job_width job in
  let height := job_height job in
  if (exit =? 0)%Z then Ok (with_cached d (width, height) (Some content))
  else if (exit =? 3)%Z then Ok (with_cached d ((-1)%Z, height) (Some content))
  else if (exit =? 4)%Z then Ok (with_cached d (width, (-1)%Z) (Some content))
  else if (exit =? 5)%Z then Ok (with_cached d ((-1)%Z, (-1)%Z) (Some content))
  else if (exit =? 1)%Z then
    Ok (with_foundpreview (with_cached d ((-1)%Z, (-1)%Z) None) false)
  else if (exit =? 2)%Z then
    match readable fm !! job_path job with
    | Some text =>
        Ok (with_cached d ((-1)%Z, (-1)%Z) (Some (String.substring 0 (1024 * 32) text)))
    | None => Raise IOError
    end
  else Ok (with_cached d ((-1)%Z, (-1)%Z) None).

(** The callback [on_after] of the job [job], from its first statement to
    [data['loading'] = False].  An exception leaves the callback at once,
    with what was written so far. *)
Definition on_after_store (fm : Fm) (job : CommandLoader) (exit : Z)
  (content : string) : result unit * Fm :=
  match heap fm !! job_data job with
  | None => (Ok tt, fm)   (* a closure keeps its entry alive *)
  | Some d =>
      let d1 := with_foundpreview d true in
      match store_result fm job exit content d1 with
      | Raise e => (Raise e, set_entry fm (job_data job) d1)
      | Ok d2 =>
          let fm2 := set_entry fm (job_data job) d2 in
          match cf fm2 with
          | None => (Raise AttributeError, fm2)
          | Some f =>
              let fm3 :=
                if String.eqb (realpath f) (job_path job)
                then set_redraw fm2 (ui_need_redraw fm2) true
                else fm2 in
              (Ok tt, set_entry fm3 (job_data job) (with_loading d2 false))
          end
      end
  end.

(** [File.get_preview_source(width, height)] is defined with the file
    system objects, outside these sources.  Its callers here hand it the
    size of the pager and give what it returns to [pager.set_source]; it is
    the way of a file into [get_preview]:
    [self.fm.get_preview(self.realpath, width, height)]. *)
Definition get_preview_source (fm : Fm) (f : File) (width height : Z)
  : pyval * Fm :=
  get_preview fm (realpath f) width height.

(** The last statement of the callback:
    [if self.env.cf and self.env.cf.is_file:
       pager.set_source(self.env.cf.get_preview_source(pager.wid, pager.hei))].
    [set_source] acts on the pager only. *)
Definition refresh_pager (fm : Fm) : Fm :=
  match cf fm with
  | Some f =>
      if is_file f
      then snd (get_preview_source fm f (pager_wid fm) (pager_hei fm))
      else fm
  | None => fm
  end.

(** The callback [on_after] of the job [job]. *)
Definition on_after (fm : Fm) (job : CommandLoader) (exit : Z) (content : string)
  : result unit * Fm :=
  match on_after_store fm job exit content with
  | (Ok _, fm') => (Ok tt, refresh_pager fm')
  | (Raise e, fm') => (Raise e, fm')
  end.

(** The callback [on_destroy] of the job [job]. *)
Definition on_destroy (fm : Fm) (job : CommandLoader) : Fm :=
  set_previews fm (delete (job_path job) (previews fm)).

(** [Actions.update_preview]: [Some false] is the [False] it returns when
    there is no entry, [None] the [None] it returns otherwise. *)
Definition update_preview (fm : Fm) (path : string) : option bool * Fm :=
  match previews fm !! path with
  | Some _ =>
      (None,
       set_redraw (set_previews fm (delete path (previews fm)))
                  true (browser_need_redraw fm))
  | None => (Some false, fm)
  end.

(** [Actions.reset], as far as the previews go: [self.previews = {}].  The
    entries live on in the callbacks of the jobs, and the queue of the job
    runner is not touched; the other statements of [reset] act on the
    directories and on the tab. *)
Definition reset (fm : Fm) : Fm := set_previews fm ∅.

(** What happens to the cache in the event loop: requests, a reset, and
    the job runner finishing or discarding the [i]-th job it holds. *)
Inductive op : Type :=
| GetPreview (path : string) (width height : Z)
| UpdatePreview (path : string)
| Reset
| After (i : nat) (exit : Z) (content : string)
| Destroy (i : nat).

Definition run_op (fm : Fm) (o : op) : Fm :=
  match o with
  | GetPreview path width height => snd (get_preview fm path width height)
  | UpdatePreview path => snd (update_preview fm path)
  | Reset => reset fm
  | After i exit content =>
      match loader fm !! i with
      | Some job =>
          let fm' := snd (on_after fm job exit content) in
          set_loader fm' (delete i (loader fm'))
      | None => fm
      end
  | Destroy i =>
      match loader fm !! i with
      | Some job =>
          let fm' := on_destroy fm job in
          set_loader fm' (delete i (loader fm'))
      | None => fm
      end
  end.

Definition run (fm : Fm) (ops : list op) : Fm := foldl run_op fm ops.

(** The jobs for [path] that the job runner holds. *)
Definition outstanding (fm : Fm) (path : string) : list CommandLoader :=
  filter (fun job => job_path job = path) (loader fm).

(** A file manager with the preview script switched on and nothing
    cached; the pager has 80 columns and 24 lines. *)
Definition fresh (script : string) (selected : option File)
  (files : gmap string string) : Fm :=
  {| preview_script := Some script;
     use_preview_script := true;
     previews := ∅;
     heap := ∅;
     loader := [];
     cf := selected;
     pager_wid := 80;
     pager_hei := 24;
     ui_need_redraw := false;
     browser_need_redraw := false;
     readable := files |}.

(** States for the examples.  The selected object is a directory "/x";
    the preview script is "scope.sh". *)
Definition example_fm : Fm :=
  fresh "scope.sh" (Some {| realpath := "/x"; is_file := false |}) ∅.

(** The job for ("/p", 80, 24) exits with 0, then the job for
    ("/p", 40, 10) exits with 5: both keys are cached. *)
Definition both_cached : Fm :=
  run example_fm [GetPreview "/p" 80 24; After 0 0 "exact";
                  GetPreview "/p" 40 10; After 0 5 "any"].

(** The job for ("/p", 80, 24) exits with 7. *)
Definition failed_once : Fm :=
  run example_fm [GetPreview "/p" 80 24; After 0 7 "out"].

(** [is_update_of p o]: the operation is [update_preview(p)]. *)
Definition is_update_of (p : string) (o : op) : bool :=
  match o with
  | UpdatePreview q => String.eqb q p
  | _ => false
  end.

(** [is_reset o]: the operation is [reset()]. *)
Definition is_reset (o : op) : bool :=
  match o with
  | Reset => true
  | _ => false
  end.

(** [is_after o]: the operation is the completion callback of a job. *)
Definition is_after (o : op) : bool :=
  match o with
  | After _ _ _ => true
  | _ => false
  end.

(** Two requests in a row, and two requests with an [update_preview]
    between them. *)
Definition requested_twice : list op :=
  [GetPreview "/p" 80 24; GetPreview "/p" 80 24].

Definition refreshed_between : list op :=
  [GetPreview "/p" 80 24; UpdatePreview "/p"; GetPreview "/p" 80 24].

(** Two requests with a [reset] between them. *)
Definition reset_between : list op :=
  [GetPreview "/p" 80 24; Reset; GetPreview "/p" 80 24].

(** The cache is consistent for the path [p]: the entries of [previews]
    are allocated and distinct; a job for [p] in the queue closes over the
    entry of [p], which is loading; no job of another path does; and the
    queue holds at most one job for [p]. *)
Record consistent (p : string) (fm : Fm) : Prop := {
  refs_allocated : forall q r,
    previews fm !! q = Some r -> is_Some (heap fm !! r);
  refs_distinct : forall q1 q2 r,
    previews fm !! q1 = Some r -> previews fm !! q2 = Some r -> q1 = q2;
  jobs_allocated : forall job,
    job ∈ loader fm -> is_Some (heap fm !! job_data job);
  jobs_of_path : forall job,
    job ∈ loader fm -> job_path job = p ->
    previews fm !! p = Some (job_data job) /\
    exists d, heap fm !! job_data job = Some d /\ loading d = true;
  jobs_of_others : forall job,
    job ∈ loader fm -> previews fm !! p = Some (job_data job) -> job_path job = p;
  at_most_one : length (outstanding fm p) <= 1
}.

End Previews.


(** ** ranger/core/tab.py *)

Module Tab.

(** What [Tab] uses of the operating system and of the directory objects
    ([ranger.fsobject] and [fm.get_directory], outside these sources).
    [Dirs] is the state of the directory cache and of its objects, [DirRef]
    a reference to a directory object, [FsObj] a file system object. *)
Class Environment (Dirs DirRef FsObj : Type) : Type := {
  expanduser : string -> string;
  normpath : string -> string;
  isdir : string -> bool;
  chdir_succeeds : string -> bool;      (* [os.chdir(path)] does not raise *)
  get_directory : string -> Dirs -> DirRef * Dirs;
  load_content_if_outdated : DirRef -> Dirs -> Dirs;
  move_to_obj : DirRef -> DirRef -> Dirs -> Dirs;
  set_sort_directories_first : DirRef -> bool -> Dirs -> Dirs;
  set_sort_reverse : DirRef -> bool -> Dirs -> Dirs;
  sort_if_outdated : DirRef -> Dirs -> Dirs;
  pointed_obj : DirRef -> Dirs -> option FsObj
}.

(** [posixpath.join(a, b)] *)
Definition join (a b : string) : string :=
  if String.prefix "/" b then b
  else if String.eqb a "" || String.eqb (String.substring (String.length a - 1) 1 a) "/"
       then String.append a b
       else String.append a (String.append "/" b).

(** [s.split('/')] *)
Fixpoint split_slash_from (cur : string) (s : string) : list string :=
  match s with
  | EmptyString => [cur]
  | String c s' =>
      if Ascii.eqb c "/" then cur :: split_slash_from "" s'
      else split_slash_from (String.append cur (String c "")) s'
  end.

Definition split_slash (s : string) : list string := split_slash_from "" s.

Section WithEnvironment.
Context {Dirs DirRef FsObj : Type} `{EqDecision DirRef}.
Context {env : Environment Dirs DirRef FsObj}.

(** The signals a tab emits through [self.fm.signal_emit]. *)
Inductive emitted : Type :=
| Cd (previous new : option DirRef)
| Move (previous new : option FsObj).

(** The file manager as the tab sees it: the directory cache, the
    process's working directory, two settings and the signals emitted. *)
Record Fm : Type := mkFm {
  dirs : Dirs;
  cwd : string;
  sort_directories_first : bool;
  sort_reverse : bool;
  signals : list emitted
}.

Definition set_dirs (fm : Fm) (d : Dirs) : Fm :=
  {| dirs := d; cwd := cwd fm;
     sort_directories_first := sort_directories_first fm;
     sort_reverse := sort_reverse fm; signals := signals fm |}.

(** The attributes of a [Tab]. *)
Record t : Type := mkTab {
  thisdir : option DirRef;
  _thisfile : option FsObj;
  history : History.t DirRef;
  pointer : Z;
  path : string;
  pathway : list DirRef
}.

(** [Tab.inherit_history]: [self.history.rebase(other_history)], a method
    call resolved on the [History] object when it runs. *)
Definition inherit_history (tab : t) (other_history : History.t DirRef)
  : result unit * t :=
  let '(r, h) := History.call_method (history tab) "rebase"
                   [History.VHistory other_history] in
  (match r with Ok _ => Ok tt | Raise e => Raise e end,
   {| thisdir := thisdir tab; _thisfile := _thisfile tab; history := h;
      pointer := pointer tab; path := path tab; pathway := pathway tab |}).

(** The loop that builds the pathway in [enter_dir]. *)
Fixpoint build_pathway (components : list string) (currentpath : string)
  (d : Dirs) (pathway : list DirRef) : list DirRef * Dirs :=
  match components with
  | [] => (pathway, d)
  | dir :: rest =>
      let currentpath := join currentpath dir in
      let '(obj, d') := get_directory currentpath d in
      build_pathway rest currentpath d' (pathway ++ [obj])
  end.

(** The loop of [Tab.assign_cursor_positions_for_subdirs] over
    [reversed(self.pathway)]. *)
Fixpoint assign_from (reversed_pathway : list DirRef) (last_path : option DirRef)
  (d : Dirs) : Dirs :=
  match reversed_pathway with
  | [] => d
  | path :: rest =>
      match last_path with
      | None => assign_from rest (Some path) d
      | Some last => assign_from rest (Some path) (move_to_obj path last d)
      end
  end.

Definition assign_cursor_positions_for_subdirs (pathway : list DirRef) (d : Dirs)
  : Dirs :=
  assign_from (rev pathway) None d.

(** [Tab.enter_dir]; the value is [None], [Some false] or [Some true] for
    Python's [None], [False] and [True]. *)
Definition enter_dir (tab : t) (fm : Fm) (path_arg : option string)
  (record_history : bool) : option bool * t * Fm :=
  match path_arg with
  | None => (None, tab, fm)
  | Some p =>
      let previous := thisdir tab in
      let p := normpath (join (path tab) (expanduser p)) in
      if negb (isdir p) then (Some false, tab, fm)
      else
        let '(new_thisdir, d1) := get_directory p (dirs fm) in
        if negb (chdir_succeeds p) then (Some true, tab, set_dirs fm d1)
        else
          let d2 := load_content_if_outdated new_thisdir d1 in
          let '(pw, d3) :=
            if String.eqb p "/" then
              let '(root, d) := get_directory "/" d2 in ([root], d)
            else build_pathway (split_slash p) "/" d2 [] in
          let d4 := assign_cursor_positions_for_subdirs pw d3 in
          let d5 := set_sort_directories_first new_thisdir
                      (sort_directories_first fm) d4 in
          let d6 := set_sort_reverse new_thisdir (sort_reverse fm) d5 in
          let d7 := sort_if_outdated new_thisdir d6 in
          let h := if record_history then History.add (history tab) new_thisdir
                   else history tab in
          (Some true,
           {| thisdir := Some new_thisdir;
              _thisfile := pointed_obj new_thisdir d7;
              history := h;
              pointer := pointer tab;
              path := p;
              pathway := pw |},
           {| dirs := d7; cwd := p;
              sort_directories_first := sort_directories_first fm;
              sort_reverse := sort_reverse fm;
              signals := signals fm ++ [Cd previous (Some new_thisdir)] |})
  end.
End WithEnvironment.

Arguments Fm : clear implicits.
Arguments t : clear implicits.
Arguments emitted : clear implicits.

(** An environment for the examples: the directories "/" and "/a" exist,
    paths need no expansion, the directory cache is the list of the paths
    asked for, a directory object is referred to by its path, and
    [os.chdir] succeeds or fails throughout. *)
Definition example_env (chdir_ok : bool) : Environment (list string) string string :=
  {| expanduser := fun p => p;
     normpath := fun p => p;
     isdir := fun p => String.eqb p "/" || String.eqb p "/a";
     chdir_succeeds := fun _ => chdir_ok;
     get_directory := fun p d => (p, if bool_decide (p ∈ d) then d else d ++ [p]);
     load_content_if_outdated := fun _ d => d;
     move_to_obj := fun _ _ d => d;
     set_sort_directories_first := fun _ _ d => d;
     set_sort_reverse := fun _ _ d => d;
     sort_if_outdated := fun _ d => d;
     pointed_obj := fun _ _ => None |}.

(** A tab at "/" that has not entered a directory yet, and its file
    manager. *)
Definition example_tab : t string string :=
  {| thisdir := None; _thisfile := None; history := History.init None;
     pointer := 0; path := "/"; pathway := [] |}.

Definition example_fm : Fm (list string) string string :=
  {| dirs := []; cwd := "/"; sort_directories_first := true;
     sort_reverse := false; signals := [] |}.

End Tab.


(** ** Runs of a History *)

Module HistoryRuns.
Import History.

Section WithItem.
Context {Item : Type} `{EqDecision Item}.

(** The calls a user of a [History] makes. *)
Inductive op : Type :=
| Add (item : Item)
| Back
| Forward
| Move (n : Z).

Definition run_op (h : History.t Item) (o : op) : History.t Item :=
  match o with
  | Add item => add h item
  | Back => snd (back h)
  | Forward => snd (forward h)
  | Move n => snd (move h n)
  end.

Definition run (h : History.t Item) (ops : list op) : History.t Item :=
  foldl run_op h ops.

(** The visited items in the order of the visits: the back stack, then the
    forward stack from its top down. *)
Definition timeline (h : History.t Item) : list Item :=
  history h ++ reverse (history_forward h).

(** No item is next to an equal one. *)
Definition no_repeats (l : list Item) : Prop :=
  forall l1 x y l2, l = l1 ++ x :: y :: l2 -> x <> y.

(** Both deques respect [maxlen]. *)
Definition within_maxlen (h : History.t Item) : Prop :=
  forall m, maxlen h = Some m ->
    length (history h) <= m /\ length (history_forward h) <= m.

(** What every run keeps. *)
Definition tidy (h : History.t Item) : Prop :=
  within_maxlen h /\ no_repeats (timeline h).
End WithItem.

End HistoryRuns.

(** ** ranger/ext/signals.py: collecting expired handlers, and the calls of
    an emit *)

Module SignalsCollect.
Import Signals.

Section Collect.
(** Whether the referent of a weak reference is gone. *)
Variable dead : handler_function -> bool.

(** Whether [handler.function.__class__] (for a pair, the [__class__] of
    its second component) raises [ReferenceError]: only a weak proxy can. *)
Definition expired (f : handler_function) : bool :=
  match f with
  | Direct _ => false
  | Proxy _ => dead f
  | MethodOfProxy _ => dead f
  end.

(** The loop [while i: i -= 1; ...; del handler_list[i]] of
    [signal_garbage_collect], from the index [i] down. *)
Fixpoint collect_from (i : nat) (handler_list : list SignalHandler)
  : list SignalHandler :=
  match i with
  | 0 => handler_list
  | S i' =>
      match handler_list !! i' with
      | Some handler =>
          if expired (function handler)
          then collect_from i' (delete i' handler_list)
          else collect_from i' handler_list
      | None => handler_list   (* an [IndexError]; [i'] is below the length *)
      end
  end.

(** [SignalDispatcher.signal_garbage_collect] *)
Definition signal_garbage_collect (d : SignalDispatcher) : SignalDispatcher :=
  {| _signals := (fun handler_list =>
                    collect_from (length handler_list) handler_list)
                 <$> _signals d;
     next_hid := next_hid d |}.
End Collect.

Section Calls.
Context {Val World : Type}.
Variable invoke : handler_function -> option (@Signal Val) -> World -> @call_outcome Val World.

(** The signal and the state of the program after [handler] has been
    called as [signal_emit] calls it: with the signal when [pass_signal]
    is set, and then the signal is as the function left it. *)
Definition call (handler : SignalHandler) (s : @Signal Val * World)
  : @Signal Val * World :=
  let o := invoke (function handler)
                  (if pass_signal handler then Some (fst s) else None) (snd s) in
  (if pass_signal handler then default (fst s) (signal_after o) else fst s,
   world_after o).

(** The same after the handlers of a list have been called in turn. *)
Definition after_calls (handlers : list SignalHandler) (s : @Signal Val * World)
  : @Signal Val * World :=
  foldl (fun s handler => call handler s) s handlers.
End Calls.

(** No two handlers of a list are the same object. *)
Definition distinct_ids (d : SignalDispatcher) : Prop :=
  forall signal_name handlers,
    _signals d !! signal_name = Some handlers ->
    NoDup (hid <$> handlers) /\
    Forall (fun h => hid h < next_hid d) handlers.

End SignalsCollect.

(** ** ranger/api/commands.py: more of the line helpers *)

Module CommandLine.
Import Commands.

(** The key under which [register] stores a class. *)
Definition registered_name (command : CommandClass) : string :=
  match own_name command with
  | Some n => if String.eqb n "" then cls_name command else n
  | None => cls_name command
  end.

(** [l[:n]] with Python's negative bounds. *)
Definition py_take {A} (l : list A) (n : Z) : list A :=
  if (0 <=? n)%Z then take (Z.to_nat n) l
  else take (length l - Z.to_nat (- n)) l.

(** [' '.join(words)] *)
Fixpoint join_space (words : list string) : string :=
  match words with
  | [] => ""
  | w :: ws =>
      match ws with
      | [] => w
      | _ :: _ => String.append w (String " " (join_space ws))
      end
  end.

(** [Command.start] *)
Definition start (c : Command) (n : Z) : string :=
  String.append (join_space (py_take (args c) n)) " ".

(** No character of the string is white space. *)
Fixpoint no_space (w : string) : bool :=
  match w with
  | EmptyString => true
  | String c w' => negb (is_space c) && no_space w'
  end.

(** The only white space of the string is the space character. *)
Fixpoint blanks_only (s : string) : bool :=
  match s with
  | EmptyString => true
  | String c s' => (negb (is_space c) || Ascii.eqb c " ") && blanks_only s'
  end.

(** A word as [split] makes them. *)
Definition is_word (w : string) : Prop := w <> "" /\ no_space w = true.

End CommandLine.

(** ** ranger/core/tab.py: the pathway and the history of a tab *)

Module TabPaths.
Import Tab.

(** No character of the string is a slash. *)
Fixpoint no_slash (s : string) : bool :=
  match s with
  | EmptyString => true
  | String c s' => negb (Ascii.eqb c "/") && no_slash s'
  end.

(** The name of a directory entry. *)
Definition is_name (c : string) : Prop := c <> "" /\ no_slash c = true.

(** "/c1/c2/.../cn"; the empty string when there is no component. *)
Fixpoint path_of (comps : list string) : string :=
  match comps with
  | [] => ""
  | c :: cs => String "/" (String.append c (path_of cs))
  end.

(** The normalised absolute path with these components; "/" for none. *)
Definition absolute (comps : list string) : string :=
  match comps with
  | [] => "/"
  | _ :: _ => path_of comps
  end.

Section WithEnvironment.
Context {Dirs DirRef FsObj : Type} `{EqDecision DirRef}.
Context {env : Environment Dirs DirRef FsObj}.

(** [directory.go(history=False)] of the directory objects, outside these
    sources. *)
Variable go : DirRef -> Tab.t DirRef FsObj -> Tab.Fm Dirs DirRef FsObj ->
              Tab.t DirRef FsObj * Tab.Fm Dirs DirRef FsObj.

(** [Tab.history_go]: [if self.history] asks [History.__len__]; the
    [None] that [move(0)] returns has no attribute [go]. *)
Definition history_go (tab : Tab.t DirRef FsObj) (fm : Tab.Fm Dirs DirRef FsObj)
  (relative : Z) : result unit * Tab.t DirRef FsObj * Tab.Fm Dirs DirRef FsObj :=
  if 0 <? History.len (history tab) then
    let '(r, h) := History.move (history tab) relative in
    let tab' := {| thisdir := thisdir tab; _thisfile := _thisfile tab;
                   history := h; pointer := pointer tab; path := path tab;
                   pathway := pathway tab |} in
    match r with
    | Raise e => (Raise e, tab', fm)
    | Ok None => (Raise AttributeError, tab', fm)
    | Ok (Some directory) =>
        let '(tab'', fm') := go directory tab' fm in (Ok tt, tab'', fm')
    end
  else (Ok tt, tab, fm).
End WithEnvironment.

End TabPaths.

(** ** Tabs ([ranger/core/actions.py], lines 622-664)

    [self.tabs] is a dict from tab names (the numbers of the key bindings)
    to paths, [self.current_tab] the name of the tab shown.  Two
    collaborators are outside these sources: [Actions.enter_dir], which with
    [remember=False] is [self.env.enter_dir(path)], and the handlers bound to
    the signal [tab.change]; both are variables of the section. *)
Module Tabs.

Inductive failure : Type :=
| AssertionError
| ValueError
| IndexError.

Inductive outcome (A : Type) : Type :=
| Done (a : A)
| Failed (f : failure).
Arguments Done {A} a.
Arguments Failed {A} f.

Record Fm : Type := mkFm {
  tabs : gmap Z string;
  current_tab : Z;
  cwd : string;                (* self.env.cwd.path *)
  visual : option nat          (* self.fm.visual *)
}.

Definition set_tabs (m : gmap Z string) (fm : Fm) : Fm :=
  mkFm m (current_tab fm) (cwd fm) (visual fm).

Definition set_current_tab (name : Z) (fm : Fm) : Fm :=
  mkFm (tabs fm) name (cwd fm) (visual fm).

Definition set_visual (v : option nat) (fm : Fm) : Fm :=
  mkFm (tabs fm) (current_tab fm) (cwd fm) v.

(** [path or d]: a path that is [None] or empty is false. *)
Definition py_or (path : option string) (d : option string) : option string :=
  match path with
  | Some p => if String.eqb p "" then d else Some p
  | None => d
  end.

(** [_update_current_tab], lines 663-664. *)
Definition _update_current_tab (fm : Fm) : Fm :=
  set_tabs (<[current_tab fm := cwd fm]> (tabs fm)) fm.

(** [_get_tab_list], lines 659-661. *)
Definition _get_tab_list (fm : Fm) : outcome (list Z) :=
  if Nat.ltb 0 (size (tabs fm)) then
    Done (merge_sort Z.le (elements (dom (tabs fm))))
  else Failed AssertionError.

(** [list.index]: the first position of [x], [ValueError] without one. *)
Definition index (x : Z) (l : list Z) : outcome nat :=
  match list_find (fun y => y = x) l with
  | Some (i, _) => Done i
  | None => Failed ValueError
  end.

(** [l[i]] for an index that may be negative. *)
Definition getitem (l : list Z) (i : Z) : outcome Z :=
  let i := if (i <? 0)%Z then (i + Z.of_nat (length l))%Z else i in
  if (i <? 0)%Z then Failed IndexError else
  match l !! Z.to_nat i with
  | Some x => Done x
  | None => Failed IndexError
  end.

(** Whether a callee keeps the tab shown and the names of the open tabs,
    when the tab shown is an open one. *)
Definition keeps_tabs (f : Fm -> Fm) : Prop :=
  forall fm, current_tab fm ∈ dom (tabs fm) ->
    current_tab (f fm) = current_tab fm /\ dom (tabs (f fm)) = dom (tabs fm).

Section Callees.

Variable enter_dir : string -> Fm -> Fm.
Variable emit_tab_change : Fm -> Fm.

(** [tab_open], lines 622-631.  [self.tabs[name]] is read only when [name]
    is a key. *)
Definition tab_open (name : Z) (path : option string) (fm : Fm) : Fm :=
  let do_emit_signal := negb (name =? current_tab fm)%Z in
  let fm := set_current_tab name fm in
  let fm :=
    match py_or path (tabs fm !! name) with
    | Some p => enter_dir p (set_visual None fm)
    | None => _update_current_tab fm
    end in
  if do_emit_signal then emit_tab_change fm else fm.

(** [tab_move], lines 645-651.  Every failure comes before the first
    assignment, so a failed call leaves the state as it was. *)
Definition tab_move (offset : Z) (fm : Fm) : outcome Fm :=
  match _get_tab_list fm with
  | Failed f => Failed f
  | Done tablist =>
    match index (current_tab fm) tablist with
    | Failed f => Failed f
    | Done current_index =>
      match getitem tablist
              ((Z.of_nat current_index + offset) mod Z.of_nat (length tablist))%Z with
      | Failed f => Failed f
      | Done newtab =>
        if (newtab =? current_tab fm)%Z then Done fm
        else Done (tab_open newtab None fm)
      end
    end
  end.

(** [tab_close], lines 633-643; [name = None] is the default argument. *)
Definition tab_close (name : option Z) (fm : Fm) : outcome Fm :=
  let name := default (current_tab fm) name in
  if (name =? current_tab fm)%Z then
    match _get_tab_list fm with
    | Failed f => Failed f
    | Done tablist =>
      match getitem tablist (-1) with
      | Failed f => Failed f
      | Done final =>
        let direction := if (name =? final)%Z then (-1)%Z else 1%Z in
        let previous := current_tab fm in
        match tab_move direction fm with
        | Failed f => Failed f
        | Done fm =>
          if (previous =? current_tab fm)%Z then Done fm
          else Done (set_tabs (delete name (tabs fm)) fm)
        end
      end
    end
  else Done (set_tabs (delete name (tabs fm)) fm).

(** [tab_new], lines 653-657. *)
Definition tab_new (path : option string) (fm : Fm) : Fm :=
  match List.find (fun i => bool_decide (tabs fm !! i = None))
                  (Z.of_nat <$> seq 1 9) with
  | Some i => tab_open i path fm
  | None => fm
  end.

End Callees.

(** A callee in the shape of the [cd] hook: it records the path entered for
    the tab shown. *)
Definition example_enter_dir (p : string) (fm : Fm) : Fm :=
  mkFm (<[current_tab fm := p]> (tabs fm)) (current_tab fm) p (visual fm).

Definition example_fm : Fm :=
  mkFm (<[1%Z := "/a"]> (<[2%Z := "/b"]> (<[4%Z := "/c"]> ∅))) 2%Z "/b" None.

End Tabs.

(** * Properties *)

(** ** History *)

Module HistoryFacts.
Import History.

Section WithItem.
Context {Item : Type} `{EqDecision Item}.
Implicit Types h : History.t Item.

Lemma top_last h x : last (history h) = Some x -> top h = Ok x.
Proof. unfold top. intros ->. reflexivity. Qed.

Lemma top_empty h : history h = [] -> top h = Raise HistoryEmptyException.
Proof. unfold top. intros ->. reflexivity. Qed.

Lemma top_ok_iff h : is_ok (top h) = true <-> history h <> [].
Proof.
  unfold top. destruct (history h) as [|x l] eqn:E.
  - simpl. split; [discriminate | congruence].
  - destruct (last (x :: l)) eqn:L.
    + simpl. split; [discriminate | reflexivity].
    + apply last_None in L. discriminate.
Qed.

Lemma back_short h : length (history h) <= 1 -> back h = (top h, h).
Proof.
  intros Hlen. unfold back.
  destruct (Nat.ltb_spec 1 (length (history h))) as [Hlt|_]; [lia | reflexivity].
Qed.

Lemma forward_nothing h : length (history_forward h) = 0 -> forward h = (top h, h).
Proof. intros Hlen. unfold forward. rewrite Hlen. reflexivity. Qed.

(** C9, as the code has it: [back()] on a back stack of at most one entry
    and [forward()] on an empty forward stack leave both stacks as they
    are; they return the top entry when the back stack has one, and raise
    [HistoryEmptyException] when the History has no entry. *)
Theorem back_forward_noop h :
  (length (history h) <= 1 ->
     snd (back h) = h /\
     (forall x, last (history h) = Some x -> fst (back h) = Ok x) /\
     (history h = [] -> fst (back h) = Raise HistoryEmptyException)) /\
  (length (history_forward h) = 0 ->
     snd (forward h) = h /\
     (forall x, last (history h) = Some x -> fst (forward h) = Ok x) /\
     (history h = [] -> fst (forward h) = Raise HistoryEmptyException)).
Proof.
  split; intros Hlen.
  - rewrite (back_short h Hlen). simpl.
    split; [reflexivity | split; [apply top_last | apply top_empty]].
  - rewrite (forward_nothing h Hlen). simpl.
    split; [reflexivity | split; [apply top_last | apply top_empty]].
Qed.

(** [rebase] is no attribute of a [History]. *)
Lemma no_rebase : hasattr "rebase" = false.
Proof. reflexivity. Qed.

Lemma call_rebase_raises h args :
  call_method h "rebase" args = (Raise AttributeError, h).
Proof. reflexivity. Qed.
End WithItem.

(** A History of one entry: [back] and [forward] return it and change
    nothing. *)
Lemma back_forward_noop_witness :
  let h := History.add (History.init None) 7 in
  History.back h = (Ok 7, h) /\ History.forward h = (Ok 7, h).
Proof.
  intros h.
  destruct (back_forward_noop h) as [Hb Hf].
  destruct (Hb ltac:(simpl; lia)) as (Hb1 & Hb2 & _).
  destruct (Hf ltac:(reflexivity)) as (Hf1 & Hf2 & _).
  specialize (Hb2 7 eq_refl). specialize (Hf2 7 eq_refl).
  split; apply injective_projections; simpl; assumption.
Defined.

(** C9 as stated fails on the empty History: [back()] and [forward()]
    return no element there, they raise [HistoryEmptyException]. *)
Lemma back_forward_empty_raise :
  History.back (History.init (Item:=nat) None)
    = (Raise HistoryEmptyException, History.init None) /\
  History.forward (History.init (Item:=nat) None)
    = (Raise HistoryEmptyException, History.init None) /\
  ~ (exists x : nat, fst (History.back (History.init None)) = Ok x) /\
  ~ (exists x : nat, fst (History.forward (History.init None)) = Ok x).
Proof.
  repeat split; try reflexivity; intros [x Hx]; discriminate Hx.
Qed.

End HistoryFacts.


(** ** Commands *)

Module CommandsFacts.
Import Commands.

Implicit Types cc : CommandContainer.

Lemma matches_exact name c : matches name (name, c) = true.
Proof.
  unfold matches. simpl. rewrite String.eqb_refl. apply orb_true_r.
Qed.


Lemma matching_spec cc name cmd c :
  (cmd, c) ∈ matching cc name <->
  commands cc !! cmd = Some c /\ matches name (cmd, c) = true.
Proof.
  unfold matching. rewrite list_elem_of_In, filter_In, <- list_elem_of_In.
  rewrite elem_of_map_to_list. reflexivity.
Qed.

Lemma exact_in_matching cc name c :
  commands cc !! name = Some c -> (name, c) ∈ matching cc name.
Proof. intros H. apply matching_spec. split; [exact H | apply matches_exact]. Qed.

Lemma in_lst cc name cmd c :
  (cmd, c) ∈ matching cc name -> c ∈ List.map snd (matching cc name).
Proof.
  intros H. apply list_elem_of_In.
  change c with (snd (cmd, c)). apply in_map. apply list_elem_of_In, H.
Qed.

(** The three outcomes of a lookup with abbreviations, by the number of
    matches. *)
Lemma get_command_cases cc name :
  match List.map snd (matching cc name) with
  | [] => get_command cc name true = Raise KeyError
  | [c] => get_command cc name true = Ok (Some c)
  | _ =>
      match commands cc !! name with
      | Some c => get_command cc name true = Ok (Some c)
      | None => get_command cc name true = Raise KeyError
      end
  end.
Proof.
  unfold get_command.
  destruct (List.map snd (matching cc name)) as [|c1 [|c2 l]] eqn:E;
    try reflexivity.
  destruct (commands cc !! name) as [c|] eqn:L; [|reflexivity].
  rewrite bool_decide_eq_true_2; [reflexivity|].
  rewrite <- E. eapply in_lst, exact_in_matching, L.
Qed.

(** A registered name looked up in full is found, whatever else starts
    with it. *)
Lemma get_command_exact cc name c :
  commands cc !! name = Some c -> get_command cc name true = Ok (Some c).
Proof.
  intros L. pose proof (get_command_cases cc name) as H.
  pose proof (in_lst _ _ _ _ (exact_in_matching cc name c L)) as Hin.
  destruct (List.map snd (matching cc name)) as [|c1 [|c2 l]].
  - inversion Hin.
  - apply list_elem_of_singleton in Hin. subst c1. exact H.
  - rewrite L in H. exact H.
Qed.

(** The "Ambiguous command" error is never raised. *)
Lemma get_command_never_ambiguous cc name abbrev msg :
  get_command cc name abbrev <> Raise (ValueError msg).
Proof.
  destruct abbrev; [|discriminate].
  pose proof (get_command_cases cc name) as H.
  destruct (List.map snd (matching cc name)) as [|c1 [|c2 l]];
    try (rewrite H; discriminate).
  destruct (commands cc !! name); rewrite H; discriminate.
Qed.

(** C2 at the registry of its example: with exactly "edit" and "exit"
    registered, both allowing abbreviation, [get_command("e", True)] has two
    matches and raises [KeyError] from [self.commands["e"]]; it does not
    raise the "Ambiguous command" [ValueError].  The other lookups of the
    claim return what it says. *)
Theorem get_command_ambiguous_prefix :
  let cc := register (register init edit) exit in
  List.length (matching cc "e") = 2 /\
  get_command cc "e" true = Raise KeyError /\
  get_command cc "ed" true = Ok (Some edit) /\
  get_command cc "q" true = Raise KeyError /\
  get_command (register cc editall) "edit" true = Ok (Some edit).
Proof. vm_compute. repeat split; reflexivity. Qed.






(** *** The line helpers *)

(** [rest] returns the empty string or the part of the line after one of
    its spaces. *)
Lemma rest_loop_after_space target s : forall got_space word_count,
  let r := rest_loop target got_space word_count s in
  r = "" \/ (got_space = true /\ r = s) \/
  exists pre, s = String.append pre (String " " r).
Proof.
  induction s as [|c s IH]; intros g w; simpl.
  - left. reflexivity.
  - destruct (Ascii.eqb_spec c " ") as [->|Hc].
    + destruct g; simpl.
      * destruct (IH true w) as [H|[[_ H]|[pre H]]].
        -- left. exact H.
        -- right. right. exists "". simpl. rewrite H at 1. reflexivity.
        -- right. right. exists (String " " pre). simpl. rewrite H at 1. reflexivity.
      * destruct (IH true (w + 1)%Z) as [H|[[_ H]|[pre H]]].
        -- left. exact H.
        -- right. right. exists "". simpl. rewrite H at 1. reflexivity.
        -- right. right. exists (String " " pre). simpl. rewrite H at 1. reflexivity.
    + destruct g.
      * destruct (w =? target)%Z.
        -- right. left. split; reflexivity.
        -- destruct (IH false w) as [H|[[H _]|[pre H]]].
           ++ left. exact H.
           ++ discriminate H.
           ++ right. right. exists (String c pre). simpl. rewrite H at 1. reflexivity.
      * destruct (IH false w) as [H|[[H _]|[pre H]]].
        -- left. exact H.
        -- discriminate H.
        -- right. right. exists (String c pre). simpl. rewrite H at 1. reflexivity.
Qed.

Lemma rest_after_space (c : Command) k :
  rest c k = "" \/ exists pre, line c = String.append pre (String " " (rest c k)).
Proof.
  unfold rest.
  destruct (rest_loop_after_space (k + _shifted c) (line c) false 0)
    as [H|[[H _]|H]]; [left; exact H | discriminate H | right; exact H].
Qed.

Lemma length_append (a b : string) :
  String.length (String.append a b) = String.length a + String.length b.
Proof. induction a as [|x a IH]; simpl; [reflexivity | rewrite IH; reflexivity]. Qed.

(** [rest] never returns a whole, non-empty line: not for the first word. *)
Lemma rest_never_whole_line (c : Command) k :
  line c <> "" -> rest c k <> line c.
Proof.
  intros Hne Heq. destruct (rest_after_space c k) as [H|[pre H]].
  - rewrite H in Heq. auto.
  - apply (f_equal String.length) in H. rewrite length_append in H.
    simpl in H. rewrite Heq in H. lia.
Qed.

(** C5 on the claim's line, with no alias shift: [rest(0)] is the empty
    string, not the whole line "open file name"; [rest(1)] is "file name"
    and [arg(5)] is the empty string. *)
Theorem rest_open_file_name :
  let c := setargs new_command "open file name" None None in
  args c = ["open"; "file"; "name"] /\
  rest c 0 = "" /\
  rest c 1 = "file name" /\
  rest c 2 = "name" /\
  arg c 0 = "open" /\
  arg c 5 = "".
Proof. vm_compute. repeat split; reflexivity. Qed.

End CommandsFacts.


(** ** Signals *)

Module SignalsFacts.
Import Signals.

#[local] Abbreviation key := (fun handler : SignalHandler => (- priority handler)%Q).

Lemma before_irrefl h : ~ before h h.
Proof. intros [H|[_ H]]; [lra | lia]. Qed.

Lemma before_asym h1 h2 : before h1 h2 -> before h2 h1 -> False.
Proof. intros [H1|[E1 H1]] [H2|[E2 H2]]; try lra; lia. Qed.

Lemma before_trans h1 h2 h3 : before h1 h2 -> before h2 h3 -> before h1 h3.
Proof.
  revert h1 h2 h3.
  intros a b c [H1|[E1 H1]] [H2|[E2 H2]]; unfold before.
  - left. lra.
  - left. lra.
  - left. lra.
  - right. split; [lra | lia].
Qed.

Lemma key_le_true (x y : SignalHandler) :
  (priority y <= priority x)%Q -> Qle_bool (key x) (key y) = true.
Proof. intros H. apply Qle_bool_iff. lra. Qed.

Lemma key_le_false (x y : SignalHandler) :
  (priority x < priority y)%Q -> Qle_bool (key x) (key y) = false.
Proof.
  intros H. destruct (Qle_bool (key x) (key y)) eqn:E; [|reflexivity].
  apply Qle_bool_iff in E. lra.
Qed.

Lemma before_le h1 h2 : before h1 h2 -> (priority h2 <= priority h1)%Q.
Proof. intros [H|[H _]]; lra. Qed.

(** A handler that ranks no lower than the head of a list is put in
    front of it. *)
Lemma insert_by_front y l :
  (forall z, head l = Some z -> (priority z <= priority y)%Q) ->
  insert_by key y l = y :: l.
Proof.
  destruct l as [|z l]; intros H; simpl; [reflexivity|].
  rewrite key_le_true; [reflexivity | apply H; reflexivity].
Qed.

(** Sorting a list in dispatch order with one new handler appended: the
    new handler goes behind the handlers of its priority or higher, and in
    front of the lower ones. *)
Lemma sort_appended x l :
  StronglySorted before l ->
  exists l1 l2,
    l = l1 ++ l2 /\
    sort_by key (l ++ [x]) = l1 ++ x :: l2 /\
    Forall (fun y => (priority x <= priority y)%Q) l1 /\
    Forall (fun y => (priority y < priority x)%Q) l2.
Proof.
  unfold sort_by. rewrite foldr_app. simpl.
  induction l as [|y l IH]; intros HS.
  - exists [], []. repeat split; constructor.
  - apply StronglySorted_cons in HS as [Hy HS].
    destruct (IH HS) as (l1 & l2 & El & Es & H1 & H2). simpl. rewrite Es.
    destruct (Qlt_le_dec (priority y) (priority x)) as [Hlt|Hle].
    + (* y ranks lower than x: all of l does, and x comes first *)
      assert (l1 = []) as ->.
      { destruct l1 as [|z l1]; [reflexivity|]. exfalso.
        apply Forall_cons in H1 as [Hz _].
        assert (Hbz : before y z).
        { rewrite Forall_forall in Hy. apply Hy. rewrite El. left. }
        apply before_le in Hbz. lra. }
      simpl in *. subst l2.
      exists [], (y :: l). simpl. rewrite key_le_false by exact Hlt.
      rewrite insert_by_front.
      * repeat split; [constructor|].
        constructor; [exact Hlt|]. exact H2.
      * intros z Hz. destruct l as [|z' l]; [discriminate|].
        injection Hz as ->. apply Forall_cons in Hy as [Hb _].
        apply before_le, Hb.
    + exists (y :: l1), l2. rewrite insert_by_front.
      * repeat split; [simpl; congruence | constructor; assumption | assumption].
      * intros z Hz. destruct l1 as [|z' l1]; simpl in Hz.
        -- injection Hz as <-. exact Hle.
        -- injection Hz as ->. apply before_le.
           rewrite Forall_forall in Hy. apply Hy. rewrite El. left.
Qed.

(** Binding keeps a handler list in dispatch order, the new handler being
    the last one bound. *)
Lemma sort_appended_sorted x l k :
  StronglySorted before l ->
  Forall (fun h => hid h < k) l ->
  hid x = k ->
  StronglySorted before (sort_by key (l ++ [x])) /\
  Forall (fun h => hid h < S k) (sort_by key (l ++ [x])).
Proof.
  intros HS Hid Hx.
  destruct (sort_appended x l HS) as (l1 & l2 & -> & -> & H1 & H2).
  apply StronglySorted_app in HS as (H12 & HS1 & HS2).
  apply Forall_app in Hid as [Hid1 Hid2].
  split.
  - apply StronglySorted_app. split; [|split].
    + intros a b Ha Hb. apply elem_of_cons in Hb as [->|Hb].
      * rewrite Forall_forall in H1, Hid1.
        specialize (H1 a Ha). specialize (Hid1 a Ha).
        destruct (Qlt_le_dec (priority x) (priority a)) as [Hlt|Hle].
        -- left. exact Hlt.
        -- right. split; [lra | lia].
      * apply H12; assumption.
    + exact HS1.
    + apply StronglySorted_cons. split; [|exact HS2].
      eapply Forall_impl; [exact H2|]. intros b Hb. left. exact Hb.
  - apply Forall_app. split.
    + eapply Forall_impl; [exact Hid1|]. simpl. intros; lia.
    + constructor; [lia|]. eapply Forall_impl; [exact Hid2|]. simpl. intros; lia.
Qed.

Lemma list_remove_sublist h l l' : list_remove h l = Some l' -> l' `sublist_of` l.
Proof.
  revert l'. induction l as [|y l IH]; intros l'; simpl; [discriminate|].
  destruct (Nat.eqb (hid y) (hid h)).
  - intros [= <-]. apply sublist_cons. reflexivity.
  - destruct (list_remove h l) as [r|]; [|discriminate].
    intros [= <-]. apply sublist_skip. apply IH. reflexivity.
Qed.

Lemma Forall_sublist {A} (P : A -> Prop) (l' l : list A) :
  l' `sublist_of` l -> Forall P l -> Forall P l'.
Proof.
  intros Hs. rewrite !Forall_forall. intros H x Hx.
  apply H. eapply elem_of_sublist; eassumption.
Qed.

Lemma StronglySorted_sublist {A} (R : relation A) (l' l : list A) :
  l' `sublist_of` l -> StronglySorted R l -> StronglySorted R l'.
Proof.
  induction 1 as [|x l1 l2 Hs IH|x l1 l2 Hs IH]; intros HS.
  - constructor.
  - apply StronglySorted_cons in HS as [Hx HS].
    apply StronglySorted_cons. split; [|apply IH, HS].
    eapply Forall_sublist; eassumption.
  - apply StronglySorted_cons in HS as [_ HS]. apply IH, HS.
Qed.

(** *** The invariant *)

Lemma well_formed_empty : well_formed empty.
Proof. intros n l H. simpl in H. rewrite lookup_empty in H. discriminate. Qed.

Lemma well_formed_clear d : well_formed (signal_clear d).
Proof. intros n l H. simpl in H. rewrite lookup_empty in H. discriminate. Qed.

Lemma well_formed_bind d n f p weak :
  well_formed d -> well_formed (snd (signal_bind d n f p weak)).
Proof.
  intros Hwf n' l. unfold signal_bind.
  destruct (has_self f); simpl;
    (destruct (decide (n = n')) as [->|Hne];
     [ rewrite lookup_insert_eq; intros [= <-];
       apply sort_appended_sorted; [| |reflexivity];
       (destruct (_signals d !! n') as [l0|] eqn:E; simpl;
        [ apply (Hwf n' l0 E) | constructor ])
     | rewrite lookup_insert_ne by exact Hne; intros E;
       destruct (Hwf n' l E) as [HS Hid]; split; [exact HS|];
       eapply Forall_impl; [exact Hid|]; simpl; intros; lia ]).
Qed.

Lemma well_formed_replace d n l l' :
  well_formed d ->
  _signals d !! n = Some l ->
  l' `sublist_of` l ->
  well_formed {| _signals := <[n := l']> (_signals d); next_hid := next_hid d |}.
Proof.
  intros Hwf E Hs n' l0. simpl.
  destruct (decide (n = n')) as [->|Hne].
  - rewrite lookup_insert_eq. intros [= <-].
    destruct (Hwf n' l E) as [HS Hid].
    split; [eapply StronglySorted_sublist | eapply Forall_sublist]; eassumption.
  - rewrite lookup_insert_ne by exact Hne. apply Hwf.
Qed.

Lemma well_formed_unbind d h : well_formed d -> well_formed (signal_unbind d h).
Proof.
  intros Hwf. unfold signal_unbind.
  destruct (_signals d !! signal_name h) as [l|] eqn:E; [|exact Hwf].
  destruct (list_remove h l) as [l'|] eqn:R; [|exact Hwf].
  eapply well_formed_replace; [exact Hwf | exact E |].
  eapply list_remove_sublist, R.
Qed.

Section Emit.
Context {Val World : Type}.
Variable truthy : Val -> bool.
Variable gone : handler_function -> World -> bool.
Variable invoke : handler_function -> option (@Signal Val) -> World -> @call_outcome Val World.

Lemma propagate_well_formed snapshot n : forall signal d w called,
  well_formed d ->
  well_formed (dispatcher_after (propagate gone invoke snapshot n signal d w called)).
Proof.
  induction snapshot as [|h rest IH]; intros signal d w called Hwf; simpl.
  - exact Hwf.
  - destruct (active h); [|apply IH, Hwf].
    destruct (isinstance_tuple _ _ _); [|exact Hwf].
    destruct (raised (invoke _ _ _)) as [e|].
    + destruct e; simpl; try exact Hwf.
      destruct (_signals d !! n) as [l|] eqn:E; simpl; [|exact Hwf].
      destruct (list_remove h l) as [l'|] eqn:R; simpl; [|exact Hwf].
      assert (well_formed {| _signals := <[n := l']> (_signals d);
                             next_hid := next_hid d |}) as Hwf'.
      { eapply well_formed_replace; [exact Hwf | exact E |].
        eapply list_remove_sublist, R. }
      destruct (stopped _); [exact Hwf' | apply IH, Hwf'].
    + destruct (stopped _); [exact Hwf | apply IH, Hwf].
Qed.

Lemma emit_well_formed d n kw w :
  well_formed d ->
  well_formed (dispatcher_after (signal_emit truthy gone invoke d n kw w)).
Proof.
  intros Hwf. unfold signal_emit.
  destruct (_signals d !! n) as [[|h l]|]; try exact Hwf.
  destruct (Signal_init truthy n kw) as [signal|e]; [|exact Hwf].
  apply propagate_well_formed, Hwf.
Qed.

Lemma run_op_well_formed o s :
  well_formed (fst s) -> well_formed (fst (run_op truthy gone invoke o s)).
Proof.
  destruct o; simpl; intros Hwf.
  - apply well_formed_bind, Hwf.
  - apply well_formed_unbind, Hwf.
  - apply well_formed_clear.
  - apply emit_well_formed, Hwf.
Qed.

Lemma run_well_formed ops : forall s,
  well_formed (fst s) -> well_formed (fst (run truthy gone invoke ops s)).
Proof.
  unfold run. induction ops as [|o ops IH]; intros s Hwf; simpl.
  - exact Hwf.
  - apply IH, run_op_well_formed, Hwf.
Qed.

(** The handlers called by the loop are handlers of the snapshot, in the
    order of the snapshot. *)
Lemma propagate_invoked snapshot n : forall signal d w called,
  exists l, invoked (propagate gone invoke snapshot n signal d w called) = called ++ l /\
            l `sublist_of` snapshot.
Proof.
  induction snapshot as [|h rest IH]; intros signal d w called; simpl.
  - exists []. rewrite app_nil_r. split; reflexivity.
  - assert (Hnext : forall signal' d' w',
      exists l, invoked (propagate gone invoke rest n signal' d' w' (called ++ [h])) = called ++ l /\
                l `sublist_of` h :: rest).
    { intros signal' d' w'.
      destruct (IH signal' d' w' (called ++ [h])) as (l & El & Hs).
      exists (h :: l). rewrite El, <- app_assoc. split; [reflexivity|].
      apply sublist_skip, Hs. }
    assert (Hstop : exists l, called ++ [h] = called ++ l /\ l `sublist_of` h :: rest).
    { exists [h]. split; [reflexivity|]. apply sublist_skip, sublist_nil_l. }
    destruct (active h).
    + destruct (isinstance_tuple _ _ _); simpl.
      * destruct (raised (invoke _ _ _)) as [e|].
        -- destruct e; simpl; try exact Hstop.
           destruct (list_remove h _); simpl; [|exact Hstop].
           destruct (stopped _); simpl; [exact Hstop | apply Hnext].
        -- destruct (stopped _); simpl; [exact Hstop | apply Hnext].
      * exists []. rewrite app_nil_r. split; [reflexivity | apply sublist_nil_l].
    + destruct (IH signal d w called) as (l & El & Hs).
      exists l. split; [exact El | apply sublist_cons, Hs].
Qed.

Lemma emit_invoked d n kw w :
  invoked (signal_emit truthy gone invoke d n kw w)
    `sublist_of` default [] (_signals d !! n).
Proof.
  unfold signal_emit.
  destruct (_signals d !! n) as [[|h l]|]; try reflexivity.
  destruct (Signal_init truthy n kw) as [signal|e]; [|apply sublist_nil_l].
  match goal with
  | |- invoked (propagate _ _ ?snap _ ?s _ _ _) `sublist_of` _ =>
      destruct (propagate_invoked snap n s d w []) as (l' & -> & Hs)
  end.
  exact Hs.
Qed.

Lemma emit_invoked_sorted d n kw w :
  well_formed d ->
  StronglySorted before (invoked (signal_emit truthy gone invoke d n kw w)).
Proof.
  intros Hwf. eapply StronglySorted_sublist; [apply emit_invoked|].
  destruct (_signals d !! n) as [l|] eqn:E; simpl; [|constructor].
  apply (Hwf n l E).
Qed.
End Emit.

Lemma StronglySorted_lookup {A} (R : relation A) (l : list A) i j x y :
  StronglySorted R l -> l !! i = Some x -> l !! j = Some y -> i < j -> R x y.
Proof.
  intros HS. revert i j. induction HS as [|a l HS IH Ha]; intros i j Hi Hj Hlt.
  - discriminate.
  - destruct j as [|j]; [lia|]. simpl in Hj. destruct i as [|i]; simpl in Hi.
    + injection Hi as ->. rewrite Forall_forall in Ha.
      apply Ha. eapply list_elem_of_lookup_2, Hj.
    + eapply IH; [exact Hi | exact Hj | lia].
Qed.

(** *** [sort_by] is the stable sort *)

Lemma insert_by_perm x l : insert_by key x l ≡ₚ x :: l.
Proof.
  induction l as [|y l IH]; simpl; [reflexivity|].
  destruct (Qle_bool _ _); [reflexivity|].
  rewrite IH. apply Permutation_swap.
Qed.

Lemma sort_by_perm l : sort_by key l ≡ₚ l.
Proof.
  induction l as [|x l IH]; simpl; [reflexivity|].
  rewrite insert_by_perm. f_equiv. exact IH.
Qed.

Lemma insert_by_sorted x l :
  StronglySorted (fun a b => (priority b <= priority a)%Q) l ->
  StronglySorted (fun a b => (priority b <= priority a)%Q) (insert_by key x l).
Proof.
  induction 1 as [|y l HS IH Hy]; simpl.
  - repeat constructor.
  - destruct (Qle_bool _ _) eqn:E.
    + apply Qle_bool_iff in E. constructor; [constructor; assumption|].
      constructor; [lra|]. eapply Forall_impl; [exact Hy|]. simpl. intros; lra.
    + constructor; [exact IH|].
      rewrite insert_by_perm. constructor; [|exact Hy].
      destruct (Qlt_le_dec (priority x) (priority y)) as [Hlt|Hle]; [lra|].
      apply key_le_true in Hle. simpl in E, Hle. congruence.
Qed.

Lemma sort_by_sorted l :
  StronglySorted (fun a b => (priority b <= priority a)%Q) (sort_by key l).
Proof.
  induction l as [|x l IH]; simpl; [constructor | apply insert_by_sorted, IH].
Qed.

(** Handlers of one priority keep the order they had before the sort. *)
Lemma sort_by_stable (q : Q) l :
  List.filter (fun h => Qeq_bool (priority h) q) (sort_by key l)
  = List.filter (fun h => Qeq_bool (priority h) q) l.
Proof.
  induction l as [|x l IH]; [reflexivity|].
  change (sort_by key (x :: l)) with (insert_by key x (sort_by key l)).
  change (List.filter (fun h => Qeq_bool (priority h) q) (x :: l))
    with (if Qeq_bool (priority x) q
          then x :: List.filter (fun h => Qeq_bool (priority h) q) l
          else List.filter (fun h => Qeq_bool (priority h) q) l).
  rewrite <- IH. clear IH. generalize (sort_by key l) as s. clear l.
  induction s as [|y s IH]; [reflexivity|]. simpl insert_by.
  destruct (Qle_bool (- priority x) (- priority y)) eqn:E; [reflexivity|].
  simpl List.filter. rewrite IH.
  destruct (Qeq_bool (priority x) q) eqn:Ex, (Qeq_bool (priority y) q) eqn:Ey;
    try reflexivity.
  apply Qeq_bool_iff in Ex, Ey.
  assert (Qle_bool (- priority x) (- priority y) = true) as E'.
  { apply Qle_bool_iff. lra. }
  congruence.
Qed.

(** Identities are handed out in the order of the [signal_bind] calls. *)
Lemma signal_bind_allocates d n f p weak :
  hid (fst (signal_bind d n f p weak)) = next_hid d /\
  next_hid (snd (signal_bind d n f p weak)) = S (next_hid d).
Proof. unfold signal_bind. destruct (has_self f); split; reflexivity. Qed.

(** The priority a handler is sorted by is the one given to [signal_bind],
    as long as that lies between 0 and 1. *)
Lemma signal_bind_priority d n f p weak :
  (0 <= p <= 1)%Q -> (priority (fst (signal_bind d n f p weak)) == p)%Q.
Proof.
  intros [H0 H1]. unfold signal_bind.
  assert (py_max 0 (py_min 1 p) == p)%Q as E.
  { unfold py_max, py_min, Qltb.
    destruct (Qle_bool 1 p) eqn:E1; simpl.
    - apply Qle_bool_iff in E1.
      destruct (Qle_bool p 0) eqn:E2; simpl; [apply Qle_bool_iff in E2|]; lra.
    - destruct (Qle_bool 1 0) eqn:E3; [apply Qle_bool_iff in E3; lra|]. simpl.
      destruct (Qle_bool p 0) eqn:E2; simpl; [apply Qle_bool_iff in E2; lra|].
      reflexivity. }
  destruct (has_self f); simpl; exact E.
Qed.

(** In every dispatcher reached from the empty one by binding, unbinding,
    clearing and emitting, [signal_emit] calls the handlers of a signal in
    dispatch order: by the priority they store, and of two handlers that
    store the same priority the one created first ([hid] is the rank of
    creation) is called first. *)
Lemma emit_stored_order {Val World : Type} (truthy : Val -> bool)
  (gone : handler_function -> World -> bool)
  (invoke : handler_function -> option (@Signal Val) -> World -> @call_outcome Val World)
  (ops : list (@op Val)) (w0 : World) (n : string) (kw : list (string * Val))
  (i j : nat) (h1 h2 : SignalHandler) :
  let s := run truthy gone invoke ops (empty, w0) in
  let called := invoked (signal_emit truthy gone invoke (fst s) n kw (snd s)) in
  called !! i = Some h1 ->
  called !! j = Some h2 ->
  ((priority h2 < priority h1)%Q -> i < j) /\
  ((priority h1 == priority h2)%Q -> hid h1 < hid h2 -> i < j).
Proof.
  intros s called Hi Hj.
  assert (HS : StronglySorted before called).
  { apply emit_invoked_sorted. apply run_well_formed. exact well_formed_empty. }
  assert (Hji : j < i -> before h2 h1).
  { intros Hlt. eapply StronglySorted_lookup; eassumption. }
  assert (Heq : i = j -> h1 = h2) by (intros ->; congruence).
  split.
  - intros Hp. destruct (Nat.lt_trichotomy i j) as [?|[E|Hlt]]; [assumption| |].
    + apply Heq in E. subst h2. lra.
    + destruct (Hji Hlt) as [?|[? ?]]; lra.
  - intros Hp Hid. destruct (Nat.lt_trichotomy i j) as [?|[E|Hlt]]; [assumption| |].
    + apply Heq in E. subst h2. lia.
    + destruct (Hji Hlt) as [?|[? ?]]; [lra | lia].
Qed.

(** What a handler stores as its priority: the priority given to
    [signal_bind], cut to the interval from 0 to 1. *)
Lemma signal_bind_clamps d n f p weak :
  priority (fst (signal_bind d n f p weak)) = py_max 0 (py_min 1 p).
Proof. unfold signal_bind. destruct (has_self f); reflexivity. Qed.

Section Allocation.
Context {Val World : Type}.
Variable truthy : Val -> bool.
Variable gone : handler_function -> World -> bool.
Variable invoke : handler_function -> option (@Signal Val) -> World -> @call_outcome Val World.

Lemma propagate_next_hid snapshot n : forall signal d w called,
  next_hid (dispatcher_after (propagate gone invoke snapshot n signal d w called))
  = next_hid d.
Proof.
  induction snapshot as [|h rest IH]; intros signal d w called; simpl.
  - reflexivity.
  - destruct (active h); [|apply IH].
    destruct (isinstance_tuple _ _ _); [|reflexivity].
    destruct (raised (invoke _ _ _)) as [e|].
    + destruct e; simpl; try reflexivity.
      destruct (list_remove h _); simpl; [|reflexivity].
      destruct (stopped _); [reflexivity | rewrite IH; reflexivity].
    + destruct (stopped _); [reflexivity | apply IH].
Qed.

Lemma emit_next_hid d n kw w :
  next_hid (dispatcher_after (signal_emit truthy gone invoke d n kw w)) = next_hid d.
Proof.
  unfold signal_emit. destruct (_signals d !! n) as [[|h l]|]; try reflexivity.
  destruct (Signal_init truthy n kw); [|reflexivity].
  apply propagate_next_hid.
Qed.

(** Identities are never handed out again. *)
Lemma run_next_hid ops : forall s,
  next_hid (fst s) <= next_hid (fst (run truthy gone invoke ops s)).
Proof.
  unfold run. induction ops as [|o ops IH]; intros s; simpl; [lia|].
  etransitivity; [|apply IH].
  destruct o as [n f p weak|h| |n kw].
  - simpl. rewrite (proj2 (signal_bind_allocates (fst s) n f p weak)). lia.
  - simpl. unfold signal_unbind.
    destruct (_signals (fst s) !! signal_name h) as [l|]; [|lia].
    destruct (list_remove h l); simpl; lia.
  - simpl. lia.
  - change (next_hid (fst s)
            <= next_hid (dispatcher_after
                           (signal_emit truthy gone invoke (fst s) n kw (snd s)))).
    rewrite emit_next_hid. lia.
Qed.

Lemma run_app ops1 ops2 s :
  run truthy gone invoke (ops1 ++ ops2) s
  = run truthy gone invoke ops2 (run truthy gone invoke ops1 s).
Proof. unfold run. apply foldl_app. Qed.
End Allocation.

(** C7, as the code has it.  A handler is bound to a signal with priority
    [p1] and later another one with priority [p2], with any binding,
    unbinding, clearing and emitting before, between and after.  When an
    emit calls both, the order is decided by the priorities cut to the
    interval from 0 to 1, [max(0, min(1, p))]: the handler with the
    strictly higher cut priority is called first, whatever the order of
    binding, and with equal cut priorities the handler bound first is
    called first. *)
Theorem emit_dispatch_order {Val World : Type} (truthy : Val -> bool)
  (gone : handler_function -> World -> bool)
  (invoke : handler_function -> option (@Signal Val) -> World -> @call_outcome Val World)
  (ops1 ops2 ops3 : list (@op Val)) (w0 : World) (n : string)
  (f1 f2 : callable) (p1 p2 : Q) (weak1 weak2 : bool)
  (kw : list (string * Val)) (i j : nat) :
  let s1 := run truthy gone invoke ops1 (empty, w0) in
  let b1 := signal_bind (fst s1) n f1 p1 weak1 in
  let s2 := run truthy gone invoke ops2 (snd b1, snd s1) in
  let b2 := signal_bind (fst s2) n f2 p2 weak2 in
  let s3 := run truthy gone invoke ops3 (snd b2, snd s2) in
  let called := invoked (signal_emit truthy gone invoke (fst s3) n kw (snd s3)) in
  called !! i = Some (fst b1) ->
  called !! j = Some (fst b2) ->
  ((py_max 0 (py_min 1 p2) < py_max 0 (py_min 1 p1))%Q -> i < j) /\
  ((py_max 0 (py_min 1 p1) < py_max 0 (py_min 1 p2))%Q -> j < i) /\
  ((py_max 0 (py_min 1 p1) == py_max 0 (py_min 1 p2))%Q -> i < j).
Proof.
  intros s1 b1 s2 b2 s3 called Hi Hj.
  assert (E : s3 = run truthy gone invoke
                     (ops1 ++ Bind n f1 p1 weak1 :: ops2 ++ Bind n f2 p2 weak2 :: ops3)
                     (empty, w0)).
  { rewrite run_app. fold s1.
    change (run truthy gone invoke (Bind n f1 p1 weak1 :: ops2 ++ Bind n f2 p2 weak2 :: ops3) s1)
      with (run truthy gone invoke (ops2 ++ Bind n f2 p2 weak2 :: ops3) (snd b1, snd s1)).
    rewrite run_app. fold s2. reflexivity. }
  assert (Hhid : hid (fst b1) < hid (fst b2)).
  { unfold b1, b2.
    rewrite (proj1 (signal_bind_allocates (fst s1) n f1 p1 weak1)).
    rewrite (proj1 (signal_bind_allocates (fst s2) n f2 p2 weak2)).
    pose proof (run_next_hid truthy gone invoke ops2 (snd b1, snd s1)) as Hm.
    fold s2 in Hm. simpl in Hm. unfold b1 in Hm.
    rewrite (proj2 (signal_bind_allocates (fst s1) n f1 p1 weak1)) in Hm. lia. }
  assert (P1 : priority (fst b1) = py_max 0 (py_min 1 p1))
    by apply signal_bind_clamps.
  assert (P2 : priority (fst b2) = py_max 0 (py_min 1 p2))
    by apply signal_bind_clamps.
  rewrite <- P1, <- P2.
  unfold called in Hi, Hj. rewrite E in Hi, Hj.
  destruct (emit_stored_order truthy gone invoke _ w0 n kw i j _ _ Hi Hj) as [H12 Heq].
  destruct (emit_stored_order truthy gone invoke _ w0 n kw j i _ _ Hj Hi) as [H21 _].
  split; [exact H12|]. split; [exact H21|].
  intros Hp. apply Heq; assumption.
Qed.

(** A handler bound with priority 0.5 and then one bound with priority 3,
    which is stored as 1: the second is called first. *)
Lemma emit_dispatch_order_witness :
  let b1 := signal_bind empty "cd" fn_a (1 # 2) false in
  let b2 := signal_bind (snd b1) "cd" fn_b (3 # 1) false in
  invoked (signal_emit (fun _ : unit => false) never_gone quiet (snd b2) "cd" [] tt)
    = [fst b2; fst b1] /\
  0 < 1.
Proof.
  intros b1 b2. split; [reflexivity|].
  apply (proj1 (proj2 (emit_dispatch_order (fun _ : unit => false) never_gone quiet
                         [] [] [] tt "cd" fn_a fn_b (1 # 2) (3 # 1) false false []
                         1 0 eq_refl eq_refl))).
  reflexivity.
Defined.

(** C7 as stated fails: a handler bound with priority 2 and then one
    bound with the strictly higher priority 3 both store 1, and the
    handler bound with 2 is called first. *)
Lemma higher_priority_not_first :
  let b1 := signal_bind empty "cd" fn_a (2 # 1) false in
  let b2 := signal_bind (snd b1) "cd" fn_b (3 # 1) false in
  let called :=
    invoked (signal_emit (fun _ : unit => false) never_gone quiet (snd b2) "cd" [] tt) in
  (2 # 1 < 3 # 1)%Q /\
  called = [fst b1; fst b2] /\
  ~ (exists i j, called !! i = Some (fst b2) /\ called !! j = Some (fst b1) /\ i < j).
Proof.
  intros b1 b2 called. split; [reflexivity|]. split; [reflexivity|].
  intros (i & j & Hi & Hj & Hlt).
  destruct i as [|[|i]]; try discriminate Hi.
  destruct j as [|[|j]]; try discriminate Hj. lia.
Qed.

End SignalsFacts.


(** ** Tab *)

Module TabFacts.
Import Tab.

Section WithEnvironment.
Context {Dirs DirRef FsObj : Type} `{EqDecision DirRef}.
Context {env : Environment Dirs DirRef FsObj}.

(** C6 on the code: [Tab.inherit_history] calls [self.history.rebase], and
    the [History] class has no attribute [rebase]: the call raises
    [AttributeError] and the tab's History stays as it was. *)
Theorem inherit_history_raises (tab : t DirRef FsObj) (other : History.t DirRef) :
  History.hasattr "rebase" = false /\
  inherit_history tab other = (Raise AttributeError, tab).
Proof.
  split; [reflexivity|]. unfold inherit_history.
  rewrite HistoryFacts.call_rebase_raises. destruct tab; reflexivity.
Qed.

(** C3, as the code has it: when the resolved path is a directory and
    [os.chdir] fails, [enter_dir] returns [True] at once.  The directory
    object has been fetched from the cache; the tab (path, thisdir,
    pathway, thisfile, history), the working directory and the signals
    emitted are what they were. *)
Theorem enter_dir_chdir_fails (tab : t DirRef FsObj) (fm : Fm Dirs DirRef FsObj)
  (p : string) (record_history : bool) :
  let resolved := normpath (join (path tab) (expanduser p)) in
  isdir resolved = true ->
  chdir_succeeds resolved = false ->
  enter_dir tab fm (Some p) record_history
    = (Some true, tab, set_dirs fm (snd (get_directory resolved (dirs fm)))) /\
  signals (snd (enter_dir tab fm (Some p) record_history)) = signals fm /\
  cwd (snd (enter_dir tab fm (Some p) record_history)) = cwd fm.
Proof.
  intros resolved Hdir Hch.
  assert (E : enter_dir tab fm (Some p) record_history
              = (Some true, tab, set_dirs fm (snd (get_directory resolved (dirs fm))))).
  { unfold enter_dir. fold resolved. rewrite Hdir. simpl.
    destruct (get_directory resolved (dirs fm)) as [new_thisdir d1].
    rewrite Hch. reflexivity. }
  rewrite E. repeat split.
Qed.

(** When [os.chdir] succeeds the tab is updated and "cd" is emitted. *)
Lemma enter_dir_chdir_succeeds (tab : t DirRef FsObj) (fm : Fm Dirs DirRef FsObj)
  (p : string) (record_history : bool) :
  let resolved := normpath (join (path tab) (expanduser p)) in
  let new_thisdir := fst (get_directory resolved (dirs fm)) in
  let '(r, tab', fm') := enter_dir tab fm (Some p) record_history in
  isdir resolved = true ->
  chdir_succeeds resolved = true ->
  r = Some true /\
  path tab' = resolved /\
  thisdir tab' = Some new_thisdir /\
  cwd fm' = resolved /\
  signals fm' = signals fm ++ [Cd (thisdir tab) (Some new_thisdir)] /\
  history tab' = (if record_history then History.add (history tab) new_thisdir
                  else history tab).
Proof.
  intros resolved new_thisdir. unfold enter_dir. fold resolved.
  subst new_thisdir.
  destruct (isdir resolved) eqn:Hdir; simpl; [|discriminate].
  destruct (get_directory resolved (dirs fm)) as [new_thisdir d1]. simpl.
  destruct (chdir_succeeds resolved) eqn:Hch; simpl; [|discriminate].
  destruct (String.eqb resolved "/").
  - destruct (get_directory "/" _) as [root d]. intros _ _. repeat split.
  - destruct (build_pathway _ _ _ _) as [pw d3]. intros _ _. repeat split.
Qed.
End WithEnvironment.

(** [enter_dir("a")] from "/" with a failing [os.chdir]: the tab stays at
    "/". *)
Lemma enter_dir_chdir_fails_witness :
  @enter_dir _ _ _ _ (example_env false) example_tab example_fm (Some "a") true
  = (Some true, example_tab, set_dirs example_fm ["/a"]).
Proof.
  apply (@enter_dir_chdir_fails _ _ _ _ (example_env false)
           example_tab example_fm "a" true); reflexivity.
Defined.

(** C3 as stated fails: "/a" is a directory, [os.chdir] fails, and after
    [enter_dir("a")] the tab's path is not "/a", it has no current
    directory, no pathway, no history entry, and no "cd" signal was
    emitted. *)
Lemma enter_dir_chdir_fails_no_update :
  let '(r, tab', fm') :=
    @enter_dir _ _ _ _ (example_env false) example_tab example_fm (Some "a") true in
  r = Some true /\
  path tab' <> "/a" /\
  thisdir tab' = None /\
  pathway tab' = [] /\
  History.history (history tab') = [] /\
  signals fm' = [].
Proof. vm_compute. repeat split. discriminate. Qed.

End TabFacts.


(** ** The preview cache *)

Module PreviewsFacts.
Import Previews.

Local Open Scope Z_scope.

Lemma next_ref_fresh (fm : Fm) : heap fm !! next_ref fm = None.
Proof. apply not_elem_of_dom. unfold next_ref. apply is_fresh. Qed.

Lemma entry_of_Some fm q r d :
  entry_of fm q = Some (r, d) <-> previews fm !! q = Some r /\ heap fm !! r = Some d.
Proof.
  unfold entry_of. destruct (previews fm !! q) as [r'|]; [|split; [discriminate|intros [? _]; discriminate]].
  destruct (heap fm !! r') as [d'|] eqn:E.
  - split; [intros [= -> ->]; auto | intros [[= ->] H]; congruence].
  - split; [discriminate | intros [[= ->] H]; congruence].
Qed.

(** What a request does to the state. *)
Lemma get_preview_shape fm q w h :
  let d0 := {| loading := false; foundpreview := None; cached := ∅ |} in
  let r0 := next_ref fm in
  get_preview fm q w h = (fst (get_preview fm q w h), fm) \/
  (exists r d, entry_of fm q = Some (r, d) /\ loading d = false /\
     found d w h = None /\
     get_preview fm q w h
     = (PyNone,
        set_loader (set_entry fm r (with_loading d true))
          (loader fm ++ [mkLoader (default "" (preview_script fm)) q w h r]))) \/
  (entry_of fm q = None /\
     get_preview fm q w h
     = (PyNone,
        set_loader
          (set_entry (set_entry (set_previews fm (<[q := r0]> (previews fm))) r0 d0)
             r0 (with_loading d0 true))
          (loader fm ++ [mkLoader (default "" (preview_script fm)) q w h r0]))).
Proof.
  intros d0 r0. unfold get_preview.
  destruct (script_enabled fm).
  - destruct (entry_of fm q) as [[r d]|] eqn:E.
    + destruct (loading d) eqn:L; [left; reflexivity|].
      unfold lookup_or_submit. destruct (found d w h) eqn:F.
      * left. reflexivity.
      * right. left. exists r, d. repeat split; assumption.
    + right. right. split; reflexivity.
  - left. destruct (readable fm !! q); reflexivity.
Qed.

(** What a request leaves alone: the settings, the selected object and the
    pager; the entry of every other path; every entry but the one of the
    path, and that one too when it is loading or has a value at hand. *)
Lemma get_preview_frame fm q w h :
  let fm' := snd (get_preview fm q w h) in
  script_enabled fm' = script_enabled fm /\
  (forall q' r, previews fm !! q' = Some r -> is_Some (heap fm !! r) ->
     previews fm' !! q' = Some r) /\
  (forall q', q' <> q -> previews fm' !! q' = previews fm !! q') /\
  (forall r d, heap fm !! r = Some d ->
     previews fm !! q <> Some r \/ loading d = true \/ is_Some (found d w h) ->
     heap fm' !! r = Some d).
Proof.
  destruct (get_preview_shape fm q w h) as [E|[(r & d & He & Hl & Hf & E)|[He E]]];
    rewrite E; cbn [snd].
  - repeat split; auto.
  - apply entry_of_Some in He as [Hq Hd].
    split; [reflexivity|]. split; [auto|]. split; [reflexivity|].
    intros r' d' Hd' Hwhy. cbn [set_loader set_entry heap].
    destruct (decide (r' = r)) as [->|Hne].
    + exfalso. assert (d' = d) as -> by congruence.
      destruct Hwhy as [H|[H|[v H]]]; congruence.
    + rewrite lookup_insert_ne by congruence. exact Hd'.
  - split; [reflexivity|]. cbn [set_loader set_entry set_previews previews heap].
    split; [|split].
    + intros q' r Hq' [d Hd]. destruct (decide (q' = q)) as [->|Hne].
      * exfalso. unfold entry_of in He. rewrite Hq', Hd in He. discriminate.
      * rewrite lookup_insert_ne by congruence. exact Hq'.
    + intros q' Hne. rewrite lookup_insert_ne by congruence. reflexivity.
    + intros r d Hd _. rewrite !lookup_insert_ne; [exact Hd| |];
        intros E'; rewrite <- E', next_ref_fresh in Hd; discriminate.
Qed.

Lemma refresh_pager_cases (fm : Fm) :
  refresh_pager fm = fm \/
  exists f, cf fm = Some f /\ is_file f = true /\
    refresh_pager fm
    = snd (get_preview fm (realpath f) (pager_wid fm) (pager_hei fm)).
Proof.
  unfold refresh_pager. destruct (cf fm) as [f|]; [|left; reflexivity].
  destruct (is_file f) eqn:E; [|left; reflexivity].
  right. exists f. repeat split. exact E.
Qed.

(** The pager refresh leaves alone what a request leaves alone. *)
Lemma refresh_pager_frame (fm : Fm) :
  let fm' := refresh_pager fm in
  script_enabled fm' = script_enabled fm /\
  (forall q r, previews fm !! q = Some r -> is_Some (heap fm !! r) ->
     previews fm' !! q = Some r) /\
  (forall r d, heap fm !! r = Some d ->
     loading d = true \/ is_Some (cached d !! (-1, -1)) ->
     heap fm' !! r = Some d).
Proof.
  destruct (refresh_pager_cases fm) as [E|(f & _ & _ & E)]; rewrite E; cbn zeta.
  - repeat split; auto.
  - destruct (get_preview_frame fm (realpath f) (pager_wid fm) (pager_hei fm))
      as (Hs & Hp & _ & Hh).
    split; [exact Hs|]. split; [exact Hp|].
    intros r d Hd [Hl|[v Hv]]; apply (Hh r d Hd).
    + right. left. exact Hl.
    + right. right. exists v. unfold found. rewrite Hv. reflexivity.
Qed.

(** The callback is its first part followed by the pager refresh. *)
Lemma on_after_ok fm job exit content fm1 :
  on_after_store fm job exit content = (Ok tt, fm1) ->
  on_after fm job exit content = (Ok tt, refresh_pager fm1).
Proof. intros E. unfold on_after. rewrite E. reflexivity. Qed.

Lemma on_after_raise fm job exit content e fm1 :
  on_after_store fm job exit content = (Raise e, fm1) ->
  on_after fm job exit content = (Raise e, fm1).
Proof. intros E. unfold on_after. rewrite E. reflexivity. Qed.

(** A request on an entry that is not loading and has a value at hand
    returns that value and changes nothing. *)
Lemma get_preview_found (fm : Fm) (path : string) (width height : Z)
  (r : nat) (d : data) (v : option string) :
  script_enabled fm = true ->
  entry_of fm path = Some (r, d) ->
  loading d = false ->
  found d width height = Some v ->
  get_preview fm path width height = (to_pyval v, fm).
Proof.
  intros Hs He Hl Hf. unfold get_preview. rewrite Hs, He, Hl.
  unfold lookup_or_submit. rewrite Hf. reflexivity.
Qed.

(** C1, as the code has it: for an entry that is not loading,
    [get_preview] returns the first value found in the order (-1,-1),
    (width,-1), (-1,height), (width,height), and changes nothing: the most
    general key wins, the exact key is looked at last. *)
Theorem get_preview_priority (fm : Fm) (path : string) (width height : Z)
  (r : nat) (d : data) :
  script_enabled fm = true ->
  entry_of fm path = Some (r, d) ->
  loading d = false ->
  (forall v, cached d !! (-1, -1) = Some v ->
     get_preview fm path width height = (to_pyval v, fm)) /\
  (forall v, cached d !! (-1, -1) = None ->
     cached d !! (width, -1) = Some v ->
     get_preview fm path width height = (to_pyval v, fm)) /\
  (forall v, cached d !! (-1, -1) = None ->
     cached d !! (width, -1) = None ->
     cached d !! (-1, height) = Some v ->
     get_preview fm path width height = (to_pyval v, fm)) /\
  (forall v, cached d !! (-1, -1) = None ->
     cached d !! (width, -1) = None ->
     cached d !! (-1, height) = None ->
     cached d !! (width, height) = Some v ->
     get_preview fm path width height = (to_pyval v, fm)).
Proof.
  intros Hs He Hl.
  assert (E : get_preview fm path width height
              = lookup_or_submit fm path width height r d).
  { unfold get_preview. rewrite Hs, He, Hl. reflexivity. }
  rewrite E. unfold lookup_or_submit, found.
  repeat split; intros v.
  - intros ->. reflexivity.
  - intros -> ->. reflexivity.
  - intros -> -> ->. reflexivity.
  - intros -> -> -> ->. reflexivity.
Qed.

(** With (80,24) and (-1,-1) both cached, a request for (80,24) gets the
    value of (-1,-1). *)
Lemma get_preview_priority_witness :
  get_preview both_cached "/p" 80 24 = (PyStr "any", both_cached).
Proof.
  refine (proj1 (get_preview_priority both_cached "/p" 80 24 0
                   {| loading := false; foundpreview := Some true;
                      cached := <[(-1, -1) := Some "any"]>
                                  (<[(80, 24) := Some "exact"]> ∅) |}
                   _ _ _) (Some "any") _);
    vm_compute; reflexivity.
Defined.

(** C1 as stated fails: the entry of "/p" is not loading and holds "exact"
    under (80,24) and "any" under (-1,-1); [get_preview("/p", 80, 24)]
    returns "any", not the value of the exact key. *)
Lemma exact_key_does_not_win :
  (exists r d, entry_of both_cached "/p" = Some (r, d) /\
               loading d = false /\
               cached d !! (80, 24) = Some (Some "exact") /\
               cached d !! (-1, -1) = Some (Some "any")) /\
  fst (get_preview both_cached "/p" 80 24) = PyStr "any" /\
  fst (get_preview both_cached "/p" 80 24) <> PyStr "exact".
Proof.
  split; [|split].
  - eexists _, _. split; [vm_compute; reflexivity|].
    repeat split; vm_compute; reflexivity.
  - vm_compute. reflexivity.
  - vm_compute. discriminate.
Qed.

Lemma store_result_other (fm : Fm) (job : CommandLoader) (exit : Z)
  (content : string) (d : data) :
  exit < 0 \/ 5 < exit ->
  store_result fm job exit content d = Ok (with_cached d (-1, -1) None).
Proof.
  intros H. unfold store_result.
  destruct (Z.eqb_spec exit 0) as [?|_]; [lia|].
  destruct (Z.eqb_spec exit 3) as [?|_]; [lia|].
  destruct (Z.eqb_spec exit 4) as [?|_]; [lia|].
  destruct (Z.eqb_spec exit 5) as [?|_]; [lia|].
  destruct (Z.eqb_spec exit 1) as [?|_]; [lia|].
  destruct (Z.eqb_spec exit 2) as [?|_]; [lia|].
  reflexivity.
Qed.

(** C4, as the code has it: for an exit code other than 0..5 the callback
    stores Python's [None] under (-1,-1), sets [foundpreview] to [True]
    and [loading] to [False]; while the entry is the one of the path, every
    later [get_preview] for the path finds that [None], returns it and
    submits no job. *)
Theorem on_after_other_exit (fm : Fm) (job : CommandLoader) (exit : Z)
  (content : string) (d : data) (f : File) :
  exit < 0 \/ 5 < exit ->
  heap fm !! job_data job = Some d ->
  cf fm = Some f ->
  let fm' := snd (on_after fm job exit content) in
  fst (on_after fm job exit content) = Ok tt /\
  (exists d', heap fm' !! job_data job = Some d' /\
              cached d' = <[(-1, -1) := None]> (cached d) /\
              foundpreview d' = Some true /\
              loading d' = false) /\
  (script_enabled fm = true ->
   previews fm !! job_path job = Some (job_data job) ->
   forall width height,
     get_preview fm' (job_path job) width height = (PyNone, fm')).
Proof.
  intros Hexit Hd Hcf fm'.
  set (d4 := with_loading (with_cached (with_foundpreview d true) (-1, -1) None)
               false).
  assert (E : exists fm4,
            on_after_store fm job exit content = (Ok tt, fm4) /\
            heap fm4 !! job_data job = Some d4 /\
            previews fm4 = previews fm /\
            script_enabled fm4 = script_enabled fm).
  { unfold on_after_store.
    rewrite Hd, (store_result_other _ _ _ _ _ Hexit). simpl. rewrite Hcf.
    eexists. split; [reflexivity|].
    destruct (String.eqb (realpath f) (job_path job)); simpl;
      (split; [apply lookup_insert_eq | split; reflexivity]). }
  destruct E as (fm4 & E & Hd4 & Hp4 & Hs4).
  subst fm'. rewrite (on_after_ok _ _ _ _ _ E). cbn [fst snd].
  destruct (refresh_pager_frame fm4) as (Hs' & Hp' & Hh').
  assert (Hd' : heap (refresh_pager fm4) !! job_data job = Some d4).
  { apply Hh'; [exact Hd4|]. right. exists None. apply lookup_insert_eq. }
  split; [reflexivity|]. split.
  - exists d4. split; [exact Hd'|]. repeat split.
  - intros Hs Hp width height.
    eapply (get_preview_found _ _ _ _ _ _ None).
    + rewrite Hs', Hs4. exact Hs.
    + apply entry_of_Some. split; [|exact Hd'].
      apply Hp'; [rewrite Hp4; exact Hp | eauto].
    + reflexivity.
    + unfold found. simpl. rewrite lookup_insert_eq. reflexivity.
Qed.

(** The job for ("/p", 80, 24) exits with 7; the next request returns
    [None] and leaves the state, the job queue included, as it is. *)
Lemma on_after_other_exit_witness :
  let fm := snd (get_preview example_fm "/p" 80 24) in
  let job := mkLoader "scope.sh" "/p" 80 24 0 in
  let fm' := snd (on_after fm job 7 "out") in
  get_preview fm' "/p" 80 24 = (PyNone, fm').
Proof.
  intros fm job fm'.
  refine (proj2 (proj2 (on_after_other_exit fm job 7 "out"
                   {| loading := true; foundpreview := None; cached := ∅ |}
                   {| realpath := "/x"; is_file := false |} _ _ _)) _ _ 80 24).
  - right. reflexivity.
  - vm_compute. reflexivity.
  - reflexivity.
  - reflexivity.
  - vm_compute. reflexivity.
Defined.

(** C4 as stated fails: after the job for ("/p", 80, 24) has exited with 7,
    the entry holds [None] under (-1,-1), and the next
    [get_preview("/p", 80, 24)] submits no job: the queue of the job
    runner stays empty. *)
Lemma failed_job_not_retried :
  loader failed_once = [] /\
  (exists r d, entry_of failed_once "/p" = Some (r, d) /\
               cached d !! (-1, -1) = Some None /\ loading d = false) /\
  fst (get_preview failed_once "/p" 80 24) = PyNone /\
  loader (snd (get_preview failed_once "/p" 80 24)) = [].
Proof.
  split; [vm_compute; reflexivity|]. split; [|split; vm_compute; reflexivity].
  eexists _, _. split; [vm_compute; reflexivity|].
  split; vm_compute; reflexivity.
Qed.

End PreviewsFacts.


(** ** The preview cache: jobs in flight *)

Module PreviewJobsFacts.
Import Previews PreviewsFacts.

Lemma at_most_one_elsewhere {A} (P : A -> Prop) `{!forall x, Decision (P x)}
  (l : list A) (i : nat) (a : A) :
  length (filter P l) <= 1 -> l !! i = Some a -> P a ->
  forall b, b ∈ delete i l -> ~ P b.
Proof.
  intros Hlen Hi Ha b Hb Hpb.
  rewrite <- (take_drop_middle l i a Hi) in Hlen.
  rewrite filter_app, filter_cons_True, length_app in Hlen by exact Ha.
  simpl in Hlen.
  rewrite delete_take_drop in Hb. apply elem_of_app in Hb as [Hb|Hb].
  - assert (b ∈ filter P (take i l)) as Hin by (apply list_elem_of_filter; split; assumption).
    destruct (filter P (take i l)); [inversion Hin | simpl in Hlen; lia].
  - assert (b ∈ filter P (drop (S i) l)) as Hin by (apply list_elem_of_filter; split; assumption).
    destruct (filter P (drop (S i) l)); [inversion Hin | simpl in Hlen; lia].
Qed.

Lemma filter_delete_length {A} (P : A -> Prop) `{!forall x, Decision (P x)}
  (l : list A) (i : nat) :
  length (filter P (delete i l)) <= length (filter P l).
Proof.
  revert i. induction l as [|x l IH]; intros [|i]; simpl; try lia.
  - rewrite filter_cons. destruct (decide (P x)); simpl; lia.
  - rewrite !filter_cons. destruct (decide (P x)); simpl; specialize (IH i); lia.
Qed.

Lemma entry_of_None p fm q :
  consistent p fm -> entry_of fm q = None -> previews fm !! q = None.
Proof.
  intros C. unfold entry_of. destruct (previews fm !! q) as [r|] eqn:E; [|reflexivity].
  destruct (refs_allocated p fm C q r E) as [d Hd]. rewrite Hd. discriminate.
Qed.

Lemma consistent_fresh p script selected files : consistent p (fresh script selected files).
Proof.
  split; simpl; intros *.
  - rewrite lookup_empty. discriminate.
  - rewrite lookup_empty. discriminate.
  - intros H. inversion H.
  - intros H. inversion H.
  - intros H. inversion H.
  - unfold outstanding. simpl. lia.
Qed.

Lemma no_job_when_idle p fm r d :
  consistent p fm -> previews fm !! p = Some r -> heap fm !! r = Some d ->
  loading d = false -> outstanding fm p = [].
Proof.
  intros C Hp Hd Hl. unfold outstanding.
  destruct (filter _ (loader fm)) as [|job l] eqn:E; [reflexivity|]. exfalso.
  assert (job ∈ filter (fun job => job_path job = p) (loader fm)) as Hin
    by (rewrite E; left).
  apply list_elem_of_filter in Hin as [Hpath Hin].
  destruct (jobs_of_path p fm C job Hin Hpath) as [Hp' (d' & Hd' & Hl')].
  congruence.
Qed.

Lemma no_job_without_entry p fm :
  consistent p fm -> previews fm !! p = None -> outstanding fm p = [].
Proof.
  intros C Hp. unfold outstanding.
  destruct (filter _ (loader fm)) as [|job l] eqn:E; [reflexivity|]. exfalso.
  assert (job ∈ filter (fun job => job_path job = p) (loader fm)) as Hin
    by (rewrite E; left).
  apply list_elem_of_filter in Hin as [Hpath Hin].
  destruct (jobs_of_path p fm C job Hin Hpath) as [Hp' _]. congruence.
Qed.

Lemma outstanding_submit fm fm0 p job :
  outstanding (set_loader fm0 (loader fm ++ [job])) p
  = outstanding fm p ++ (if decide (job_path job = p) then [job] else []).
Proof.
  unfold outstanding. simpl. rewrite filter_app. reflexivity.
Qed.

Lemma consistent_submit_existing p fm q w h r d :
  consistent p fm -> entry_of fm q = Some (r, d) -> loading d = false ->
  consistent p (set_loader (set_entry fm r (with_loading d true))
                  (loader fm ++ [mkLoader (default "" (preview_script fm)) q w h r])).
Proof.
  intros C He Hl. apply entry_of_Some in He as [Hq Hd].
  split; simpl.
  - intros q' r' H. pose proof (refs_allocated p fm C q' r' H) as ?.
    rewrite lookup_insert. case_decide; eauto.
  - apply (refs_distinct p fm C).
  - intros job Hin. rewrite lookup_insert. case_decide; [eauto|].
    apply elem_of_app in Hin as [Hin|Hin].
    + apply (jobs_allocated p fm C job Hin).
    + apply list_elem_of_singleton in Hin as ->. simpl.
      apply (refs_allocated p fm C q r Hq).
  - intros job Hin Hpath. apply elem_of_app in Hin as [Hin|Hin].
    + destruct (jobs_of_path p fm C job Hin Hpath) as [Hp (d' & Hd' & Hl')].
      split; [exact Hp|]. rewrite lookup_insert. case_decide; simpl; eauto.
    + apply list_elem_of_singleton in Hin as ->. simpl in *. subst q.
      split; [exact Hq|]. rewrite lookup_insert_eq. eauto.
  - intros job Hin Hp. apply elem_of_app in Hin as [Hin|Hin].
    + apply (jobs_of_others p fm C job Hin Hp).
    + apply list_elem_of_singleton in Hin as ->. simpl in *.
      apply (refs_distinct p fm C q p r Hq Hp).
  - rewrite outstanding_submit. simpl. case_decide as Hqp.
    + subst q. rewrite (no_job_when_idle p fm r d C Hq Hd Hl). simpl. lia.
    + rewrite app_nil_r. apply (at_most_one p fm C).
Qed.

Lemma consistent_submit_new p fm q w h :
  consistent p fm -> previews fm !! q = None ->
  let r := next_ref fm in
  let d := {| loading := false; foundpreview := None; cached := ∅ |} in
  consistent p
    (set_loader
       (set_entry (set_entry (set_previews fm (<[q := r]> (previews fm))) r d)
          r (with_loading d true))
       (loader fm ++ [mkLoader (default "" (preview_script fm)) q w h r])).
Proof.
  intros C Hq r d.
  assert (Hfresh : forall r', is_Some (heap fm !! r') -> r' <> r).
  { intros r' [d' Hd'] ->. unfold r in Hd'. rewrite next_ref_fresh in Hd'.
    discriminate. }
  split; simpl.
  - intros q' r'. rewrite lookup_insert. case_decide.
    + intros [= <-]. rewrite lookup_insert_eq. eauto.
    + intros H'. pose proof (refs_allocated p fm C q' r' H') as ?.
      rewrite !lookup_insert. repeat case_decide; eauto.
  - intros q1 q2 r'. rewrite !lookup_insert. repeat case_decide; subst.
    + reflexivity.
    + intros [= <-] H'. exfalso.
      apply (Hfresh r (refs_allocated p fm C q2 _ H')). reflexivity.
    + intros H' [= <-]. exfalso.
      apply (Hfresh r (refs_allocated p fm C q1 _ H')). reflexivity.
    + apply (refs_distinct p fm C).
  - intros job Hin. rewrite !lookup_insert. repeat case_decide; eauto.
    apply elem_of_app in Hin as [Hin|Hin].
    + apply (jobs_allocated p fm C job Hin).
    + apply list_elem_of_singleton in Hin as ->. simpl in *. congruence.
  - intros job Hin Hpath. apply elem_of_app in Hin as [Hin|Hin].
    + destruct (jobs_of_path p fm C job Hin Hpath) as [Hp (d' & Hd' & Hl')].
      assert (q <> p) by congruence.
      rewrite lookup_insert_ne by assumption. split; [exact Hp|].
      rewrite !lookup_insert_ne by (apply not_eq_sym, Hfresh; eauto). eauto.
    + apply list_elem_of_singleton in Hin as ->. simpl in *. subst q.
      rewrite !lookup_insert_eq. eauto.
  - intros job Hin. apply elem_of_app in Hin as [Hin|Hin].
    + pose proof (jobs_allocated p fm C job Hin) as Ha.
      rewrite lookup_insert. case_decide.
      * intros [= E]. exfalso. apply (Hfresh _ Ha). congruence.
      * apply (jobs_of_others p fm C job Hin).
    + apply list_elem_of_singleton in Hin as ->. simpl.
      rewrite lookup_insert. case_decide; [auto|].
      intros H'. exfalso.
      apply (Hfresh r (refs_allocated p fm C p _ H')). reflexivity.
  - rewrite outstanding_submit. simpl. case_decide as Hqp.
    + subst q. rewrite (no_job_without_entry p fm C Hq). simpl. lia.
    + rewrite app_nil_r. apply (at_most_one p fm C).
Qed.

Lemma consistent_get_preview p fm q w h :
  consistent p fm -> consistent p (snd (get_preview fm q w h)).
Proof.
  intros C.
  destruct (get_preview_shape fm q w h) as [E|[(r & d & He & Hl & _ & E)|[He E]]];
    rewrite E; simpl.
  - exact C.
  - apply consistent_submit_existing; assumption.
  - apply consistent_submit_new; [exact C|]. eapply entry_of_None; eassumption.
Qed.

Lemma consistent_delete_other p fm q ui br :
  consistent p fm -> q <> p ->
  consistent p (set_redraw (set_previews fm (delete q (previews fm))) ui br).
Proof.
  intros C Hne. split; simpl.
  - intros q' r' H. apply lookup_delete_Some in H as [_ H].
    apply (refs_allocated p fm C q' r' H).
  - intros q1 q2 r' H1 H2.
    apply lookup_delete_Some in H1 as [_ H1]. apply lookup_delete_Some in H2 as [_ H2].
    apply (refs_distinct p fm C q1 q2 r' H1 H2).
  - apply (jobs_allocated p fm C).
  - intros job Hin Hpath. rewrite lookup_delete_ne by exact Hne.
    apply (jobs_of_path p fm C job Hin Hpath).
  - intros job Hin. rewrite lookup_delete_ne by exact Hne.
    apply (jobs_of_others p fm C job Hin).
  - apply (at_most_one p fm C).
Qed.

Lemma consistent_update_preview p fm q :
  consistent p fm -> q <> p -> consistent p (snd (update_preview fm q)).
Proof.
  intros C Hne. unfold update_preview.
  destruct (previews fm !! q); simpl; [|exact C].
  apply consistent_delete_other; assumption.
Qed.

(** What the first part of the callback leaves alone. *)
Lemma on_after_store_frame fm job exit content :
  let fm' := snd (on_after_store fm job exit content) in
  previews fm' = previews fm /\
  loader fm' = loader fm /\
  (forall r, r <> job_data job -> heap fm' !! r = heap fm !! r) /\
  (forall r, is_Some (heap fm !! r) -> is_Some (heap fm' !! r)) /\
  cf fm' = cf fm /\
  (pager_wid fm' = pager_wid fm /\ pager_hei fm' = pager_hei fm) /\
  (script_enabled fm' = script_enabled fm /\
   preview_script fm' = preview_script fm).
Proof.
  unfold on_after_store.
  destruct (heap fm !! job_data job) as [d|] eqn:Hd; [|cbn; repeat split; auto].
  destruct (store_result _ _ _ _ _) as [d2|e]; cbn [snd].
  - cbn [cf set_entry]. destruct (cf fm) as [f|] eqn:Hcf; cbn [snd].
    + destruct (String.eqb _ _); cbn; repeat split; try assumption;
        try (intros r Hr; rewrite !lookup_insert_ne by congruence; reflexivity);
        try (intros r Hr; rewrite !lookup_insert; repeat case_decide; eauto).
    + cbn; repeat split; try assumption;
        try (intros r Hr; rewrite !lookup_insert_ne by congruence; reflexivity);
        try (intros r Hr; rewrite !lookup_insert; repeat case_decide; eauto).
  - cbn; repeat split;
      try (intros r Hr; rewrite !lookup_insert_ne by congruence; reflexivity);
      try (intros r Hr; rewrite !lookup_insert; repeat case_decide; eauto).
Qed.

(** The state after the first part of the callback, the finished job
    taken out of the queue. *)
Lemma consistent_after_store p fm i job exit content :
  consistent p fm -> loader fm !! i = Some job ->
  let fm1 := snd (on_after_store fm job exit content) in
  consistent p (set_loader fm1 (delete i (loader fm1))).
Proof.
  intros C Hi fm1.
  destruct (on_after_store_frame fm job exit content)
    as (Ep & El & Hframe & Hsome & _).
  fold fm1 in Ep, El, Hframe, Hsome.
  assert (Hsub : forall job', job' ∈ delete i (loader fm1) -> job' ∈ loader fm).
  { intros job' Hin. rewrite El in Hin.
    eapply elem_of_sublist; [exact Hin | apply sublist_delete]. }
  split; simpl.
  - intros q r H. rewrite Ep in H. apply Hsome, (refs_allocated p fm C q r H).
  - rewrite Ep. apply (refs_distinct p fm C).
  - intros job' Hin. apply Hsome, (jobs_allocated p fm C), Hsub, Hin.
  - intros job' Hin Hpath. rewrite Ep.
    destruct (jobs_of_path p fm C job' (Hsub _ Hin) Hpath) as [Hp (d' & Hd' & Hl')].
    split; [exact Hp|].
    destruct (decide (job_data job' = job_data job)) as [E|Hne].
    + exfalso. rewrite E in Hp.
      pose proof (jobs_of_others p fm C job (list_elem_of_lookup_2 _ _ _ Hi) Hp) as Hjp.
      rewrite El in Hin.
      exact (at_most_one_elsewhere _ (loader fm) i job (at_most_one p fm C) Hi Hjp
               job' Hin Hpath).
    + rewrite Hframe by exact Hne. eauto.
  - intros job' Hin. rewrite Ep. apply (jobs_of_others p fm C), Hsub, Hin.
  - unfold outstanding. simpl. rewrite El.
    etransitivity; [apply filter_delete_length | apply (at_most_one p fm C)].
Qed.

Lemma delete_snoc {A} (l : list A) (i : nat) (x : A) :
  i < length l -> delete i (l ++ [x]) = delete i l ++ [x].
Proof.
  revert i. induction l as [|y l IH]; intros i Hi; simpl in *; [lia|].
  destruct i as [|i]; [reflexivity|]. simpl. f_equal. apply IH. lia.
Qed.

(** A request does not look at the queue: taking a job out before the
    request or after it gives the same state. *)
Lemma get_preview_delete_job fm q w h i :
  i < length (loader fm) ->
  snd (get_preview (set_loader fm (delete i (loader fm))) q w h)
  = set_loader (snd (get_preview fm q w h))
      (delete i (loader (snd (get_preview fm q w h)))).
Proof.
  intros Hi. unfold get_preview.
  change (script_enabled (set_loader fm (delete i (loader fm))))
    with (script_enabled fm).
  change (entry_of (set_loader fm (delete i (loader fm))) q) with (entry_of fm q).
  destruct (script_enabled fm).
  - destruct (entry_of fm q) as [[r d]|].
    + destruct (loading d); [reflexivity|].
      unfold lookup_or_submit. destruct (found d w h); [reflexivity|].
      cbn -[next_ref]. rewrite delete_snoc by exact Hi. reflexivity.
    + unfold lookup_or_submit, found. cbn [cached]. rewrite !lookup_empty.
      change (next_ref (set_loader fm (delete i (loader fm)))) with (next_ref fm).
      cbn -[next_ref]. rewrite delete_snoc by exact Hi. reflexivity.
  - change (readable (set_loader fm (delete i (loader fm)))) with (readable fm).
    destruct (readable fm !! q); reflexivity.
Qed.

Lemma refresh_pager_delete_job fm i :
  i < length (loader fm) ->
  refresh_pager (set_loader fm (delete i (loader fm)))
  = set_loader (refresh_pager fm) (delete i (loader (refresh_pager fm))).
Proof.
  intros Hi. unfold refresh_pager, get_preview_source.
  change (cf (set_loader fm (delete i (loader fm)))) with (cf fm).
  destruct (cf fm) as [f|]; [|reflexivity].
  destruct (is_file f); [|reflexivity].
  apply get_preview_delete_job, Hi.
Qed.

Lemma on_after_frame_length fm job exit content i :
  loader fm !! i = Some job ->
  i < length (loader (snd (on_after_store fm job exit content))).
Proof.
  intros Hi.
  destruct (on_after_store_frame fm job exit content) as (_ & El & _).
  rewrite El. eapply lookup_lt_Some, Hi.
Qed.

(** The whole callback and the removal of the finished job: the first part
    of the callback, the removal, and then the pager refresh. *)
Lemma run_op_after fm i exit content job :
  loader fm !! i = Some job ->
  let fm1 := snd (on_after_store fm job exit content) in
  let fm2 := set_loader fm1 (delete i (loader fm1)) in
  run_op fm (After i exit content)
  = if is_ok (fst (on_after_store fm job exit content))
    then refresh_pager fm2 else fm2.
Proof.
  intros Hi fm1 fm2. cbn [run_op]. rewrite Hi. unfold on_after.
  pose proof (on_after_frame_length fm job exit content i Hi) as Hlen.
  subst fm2 fm1.
  destruct (on_after_store fm job exit content) as [[u|e] fm1]; cbn [fst snd is_ok].
  - symmetry. apply refresh_pager_delete_job. exact Hlen.
  - reflexivity.
Qed.

Lemma consistent_refresh p fm :
  consistent p fm -> consistent p (refresh_pager fm).
Proof.
  intros C. destruct (refresh_pager_cases fm) as [E|(f & _ & _ & E)]; rewrite E.
  - exact C.
  - apply consistent_get_preview, C.
Qed.

Lemma consistent_after p fm i exit content :
  consistent p fm -> consistent p (run_op fm (After i exit content)).
Proof.
  intros C. destruct (loader fm !! i) as [job|] eqn:Hi.
  - rewrite (run_op_after fm i exit content job Hi).
    pose proof (consistent_after_store p fm i job exit content C Hi) as C2.
    destruct (is_ok _); [apply consistent_refresh, C2 | exact C2].
  - cbn [run_op]. rewrite Hi. exact C.
Qed.

Lemma consistent_destroy p fm i :
  consistent p fm -> consistent p (run_op fm (Destroy i)).
Proof.
  intros C. simpl. destruct (loader fm !! i) as [job|] eqn:Hi; [|exact C].
  assert (Hsub : forall job', job' ∈ delete i (loader fm) -> job' ∈ loader fm).
  { intros job' Hin. eapply elem_of_sublist; [exact Hin | apply sublist_delete]. }
  split; simpl.
  - intros q r H. apply lookup_delete_Some in H as [_ H].
    apply (refs_allocated p fm C q r H).
  - intros q1 q2 r' H1 H2.
    apply lookup_delete_Some in H1 as [_ H1]. apply lookup_delete_Some in H2 as [_ H2].
    apply (refs_distinct p fm C q1 q2 r' H1 H2).
  - intros job' Hin. apply (jobs_allocated p fm C), Hsub, Hin.
  - intros job' Hin Hpath.
    destruct (decide (job_path job = p)) as [Hjp|Hne].
    + exfalso.
      exact (at_most_one_elsewhere _ (loader fm) i job (at_most_one p fm C) Hi Hjp
               job' Hin Hpath).
    + rewrite lookup_delete_ne by exact Hne.
      apply (jobs_of_path p fm C job' (Hsub _ Hin) Hpath).
  - intros job' Hin H. apply lookup_delete_Some in H as [_ H].
    apply (jobs_of_others p fm C job' (Hsub _ Hin) H).
  - unfold outstanding. simpl.
    etransitivity; [apply filter_delete_length | apply (at_most_one p fm C)].
Qed.

Lemma consistent_run_op p fm o :
  is_update_of p o = false -> is_reset o = false ->
  consistent p fm -> consistent p (run_op fm o).
Proof.
  intros Hu Hr C. destruct o as [q w h|q| |i e c|i].
  - apply consistent_get_preview, C.
  - simpl in Hu. apply consistent_update_preview; [exact C|].
    intros ->. rewrite String.eqb_refl in Hu. discriminate.
  - discriminate Hr.
  - apply consistent_after, C.
  - apply consistent_destroy, C.
Qed.

Lemma consistent_run p ops : forall fm,
  Forall (fun o => is_update_of p o = false /\ is_reset o = false) ops ->
  consistent p fm -> consistent p (run fm ops).
Proof.
  unfold run. induction ops as [|o ops IH]; intros fm Hops C; simpl; [exact C|].
  apply Forall_cons in Hops as [[Hu Hr] Hops].
  apply IH; [exact Hops | apply consistent_run_op; assumption].
Qed.

Lemma get_preview_loading fm p w h r d :
  script_enabled fm = true -> entry_of fm p = Some (r, d) -> loading d = true ->
  get_preview fm p w h = (PyNone, fm).
Proof. intros Hs He Hl. unfold get_preview. rewrite Hs, He, Hl. reflexivity. Qed.

Lemma get_preview_submits fm p w h :
  loader (snd (get_preview fm p w h)) <> loader fm ->
  (forall r d, entry_of fm p = Some (r, d) -> loading d = false) /\
  fst (get_preview fm p w h) = PyNone /\
  exists r d',
    entry_of (snd (get_preview fm p w h)) p = Some (r, d') /\
    loading d' = true /\
    loader (snd (get_preview fm p w h))
    = loader fm ++ [mkLoader (default "" (preview_script fm)) p w h r].
Proof.
  intros Hne.
  destruct (get_preview_shape fm p w h) as [E|[(r & d & He & Hl & _ & E)|[He E]]];
    rewrite E in *; simpl in *.
  - congruence.
  - split; [intros r' d' He'; congruence|]. split; [reflexivity|].
    apply entry_of_Some in He as [Hp Hd].
    exists r, (with_loading d true). split; [|split; reflexivity].
    apply entry_of_Some. simpl. split; [exact Hp | apply lookup_insert_eq].
  - split; [intros r' d' He'; congruence|]. split; [reflexivity|].
    exists (next_ref fm),
      (with_loading {| loading := false; foundpreview := None; cached := ∅ |} true).
    split; [|split; reflexivity].
    apply entry_of_Some. simpl. split; apply lookup_insert_eq.
Qed.

Lemma get_preview_settings fm p w h :
  script_enabled (snd (get_preview fm p w h)) = script_enabled fm.
Proof.
  destruct (get_preview_shape fm p w h) as [E|[(r & d & He & Hl & _ & E)|[He E]]];
    rewrite E; reflexivity.
Qed.

Lemma get_preview_twice fm p w h w' h' :
  script_enabled fm = true ->
  loader (snd (get_preview fm p w h)) <> loader fm ->
  get_preview (snd (get_preview fm p w h)) p w' h'
  = (PyNone, snd (get_preview fm p w h)).
Proof.
  intros Hs Hne.
  destruct (get_preview_submits fm p w h Hne) as (_ & _ & r & d' & He & Hl & _).
  eapply get_preview_loading; [|exact He|exact Hl].
  rewrite get_preview_settings. exact Hs.
Qed.

Lemma loading_kept fm o r d :
  is_after o = false -> heap fm !! r = Some d -> loading d = true ->
  exists d', heap (run_op fm o) !! r = Some d' /\ loading d' = true.
Proof.
  intros Ho Hd Hl. destruct o as [q w h|q| |i e c|i]; simpl in *; try discriminate.
  - destruct (get_preview_shape fm q w h) as [E|[(r1 & d1 & He & Hl1 & _ & E)|[He E]]];
      rewrite E; simpl.
    + eauto.
    + rewrite lookup_insert. case_decide; eauto.
    + rewrite !lookup_insert. repeat case_decide; eauto.
  - unfold update_preview. destruct (previews fm !! q); simpl; eauto.
  - eauto.
  - destruct (loader fm !! i); simpl; eauto.
Qed.

(** The callback of a job and the pager refresh in it leave every entry
    but the job's own loading, if it was. *)
Lemma after_keeps_others_loading fm i exit content job r d :
  loader fm !! i = Some job -> r <> job_data job ->
  heap fm !! r = Some d -> loading d = true ->
  heap (run_op fm (After i exit content)) !! r = Some d.
Proof.
  intros Hi Hne Hd Hl. rewrite (run_op_after fm i exit content job Hi).
  destruct (on_after_store_frame fm job exit content) as (_ & _ & Hframe & _).
  set (fm1 := snd (on_after_store fm job exit content)) in *.
  assert (Hd2 : heap (set_loader fm1 (delete i (loader fm1))) !! r = Some d).
  { cbn [set_loader heap]. rewrite Hframe by exact Hne. exact Hd. }
  destruct (is_ok _); [|exact Hd2].
  apply (proj2 (proj2 (refresh_pager_frame _))); [exact Hd2 | left; exact Hl].
Qed.

(** C8, as the code has it.  For every path [p]: a request on a loading
    entry returns [None] and changes nothing; a request that submits a job
    found no loading entry, returns [None], and leaves the entry of [p]
    loading with the new job at the end of the queue; no operation but a
    completion callback turns a loading entry into one that is not
    loading, and the callback of a job leaves the entries of the other
    jobs as they are when they are loading; a request after a submitting
    request returns [None] and changes nothing; and in every run from a
    fresh file manager that calls neither [update_preview(p)] nor
    [reset()], the job runner holds at most one job for [p]. *)
Theorem one_job_per_path (p : string) :
  (forall fm width height r d,
     script_enabled fm = true -> entry_of fm p = Some (r, d) -> loading d = true ->
     get_preview fm p width height = (PyNone, fm)) /\
  (forall fm width height,
     loader (snd (get_preview fm p width height)) <> loader fm ->
     (forall r d, entry_of fm p = Some (r, d) -> loading d = false) /\
     fst (get_preview fm p width height) = PyNone /\
     exists r d',
       entry_of (snd (get_preview fm p width height)) p = Some (r, d') /\
       loading d' = true /\
       loader (snd (get_preview fm p width height))
       = loader fm ++ [mkLoader (default "" (preview_script fm)) p width height r]) /\
  (forall fm o r d,
     is_after o = false -> heap fm !! r = Some d -> loading d = true ->
     exists d', heap (run_op fm o) !! r = Some d' /\ loading d' = true) /\
  (forall fm i exit content job r d,
     loader fm !! i = Some job -> r <> job_data job ->
     heap fm !! r = Some d -> loading d = true ->
     heap (run_op fm (After i exit content)) !! r = Some d) /\
  (forall fm width height width' height',
     script_enabled fm = true ->
     loader (snd (get_preview fm p width height)) <> loader fm ->
     get_preview (snd (get_preview fm p width height)) p width' height'
     = (PyNone, snd (get_preview fm p width height))) /\
  (forall script selected files ops,
     Forall (fun o => is_update_of p o = false /\ is_reset o = false) ops ->
     length (outstanding (run (fresh script selected files) ops) p) <= 1).
Proof.
  split; [|split; [|split; [|split; [|split]]]].
  - intros fm w h r d. apply get_preview_loading.
  - intros fm w h. apply get_preview_submits.
  - intros fm o r d. apply loading_kept.
  - intros fm i exit content job r d. apply after_keeps_others_loading.
  - intros fm w h w' h'. apply get_preview_twice.
  - intros script selected files ops Hops.
    apply (at_most_one p), consistent_run; [exact Hops | apply consistent_fresh].
Qed.

(** Two requests for ("/p", 80, 24) in a row: both return [None], the
    second changes nothing, and one job is in the queue. *)
Lemma one_job_per_path_witness :
  fst (get_preview example_fm "/p" 80 24) = PyNone /\
  get_preview (snd (get_preview example_fm "/p" 80 24)) "/p" 80 24
  = (PyNone, snd (get_preview example_fm "/p" 80 24)) /\
  length (outstanding (run example_fm requested_twice) "/p") <= 1 /\
  length (outstanding (run example_fm requested_twice) "/p") = 1.
Proof.
  split; [reflexivity|]. split; [|split; [|reflexivity]].
  - apply (proj1 (proj2 (proj2 (proj2 (proj2 (one_job_per_path "/p")))))).
    + reflexivity.
    + vm_compute. discriminate.
  - apply (proj2 (proj2 (proj2 (proj2 (proj2 (one_job_per_path "/p")))))).
    repeat (constructor; [split; reflexivity|]). constructor.
Defined.

(** C8 as stated fails: [update_preview("/p")] between two requests
    deletes the loading entry, the second request makes a new entry and
    submits a second job while the first is still in the queue. *)
Lemma two_jobs_after_update_preview :
  length (outstanding (run example_fm refreshed_between) "/p") = 2 /\
  ~ length (outstanding (run example_fm refreshed_between) "/p") <= 1.
Proof. split; [reflexivity|]. vm_compute. lia. Qed.

(** [reset()] between two requests does the same. *)
Lemma two_jobs_after_reset :
  length (outstanding (run example_fm reset_between) "/p") = 2.
Proof. reflexivity. Qed.

End PreviewJobsFacts.

(** ** History: how the operations compose *)

Module HistoryRunsFacts.
Import History HistoryRuns.

Section WithItem.
Context {Item : Type} `{EqDecision Item}.
Implicit Types h : History.t Item.

Lemma last_drop_lt {A} (l : list A) k : k < length l -> last (drop k l) = last l.
Proof.
  revert k. induction l as [|x l IH]; intros k Hk; simpl in Hk; [lia|].
  destruct k as [|k]; [reflexivity|]. simpl drop.
  rewrite IH by lia. destruct l; [simpl in Hk; lia | reflexivity].
Qed.

Lemma deque_append_last {A} (m : option nat) (d : list A) x :
  m <> Some 0 -> last (deque_append m d x) = Some x.
Proof.
  intros Hm. unfold deque_append. destruct m as [m|]; [|apply last_snoc].
  rewrite last_drop_lt; [apply last_snoc|].
  rewrite length_app. simpl. destruct m; [congruence | lia].
Qed.

Lemma deque_append_fits {A} (m : option nat) (d : list A) x :
  (forall k, m = Some k -> length d < k) -> deque_append m d x = d ++ [x].
Proof.
  intros Hm. unfold deque_append. destruct m as [m|]; [|reflexivity].
  specialize (Hm m eq_refl). rewrite length_app. simpl.
  replace (length d + 1 - m) with 0 by lia. reflexivity.
Qed.

Lemma deque_append_length {A} (m : option nat) (d : list A) x k :
  m = Some k -> length (deque_append m d x) <= k.
Proof.
  intros ->. unfold deque_append. rewrite length_drop, length_app. simpl. lia.
Qed.

Lemma last_removelast {A} (l : list A) x :
  last l = Some x -> l = removelast l ++ [x].
Proof.
  intros H. destruct (decide (l = [])) as [->|Hne]; [discriminate|].
  rewrite (app_removelast_last x Hne) at 1. f_equal. f_equal.
  clear Hne. induction l as [|a l IH]; [discriminate|].
  destruct l as [|b l]; [simpl in *; congruence|]. simpl in *. apply IH, H.
Qed.

(** X1: [add(x)]: afterwards [top()] is [x], unless [maxlen] is 0; adding the
    top again changes nothing, adding something else empties the forward
    stack. *)
Theorem add_then_top h x :
  maxlen h <> Some 0 ->
  top (add h x) = Ok x /\
  (top h = Ok x -> add h x = h) /\
  (top h <> Ok x -> history_forward (add h x) = []).
Proof.
  intros Hm. unfold add, top.
  destruct (history h) as [|a l] eqn:E.
  - simpl. rewrite deque_append_last by exact Hm.
    split; [reflexivity|]. split; [discriminate | reflexivity].
  - rewrite bool_decide_eq_false_2 by (simpl; lia). simpl orb.
    destruct (decide (last (a :: l) = Some x)) as [Hl|Hl].
    + rewrite bool_decide_eq_true_2 by exact Hl. simpl. rewrite E, Hl.
      split; [reflexivity|]. split; [reflexivity|]. congruence.
    + rewrite bool_decide_eq_false_2 by exact Hl. simpl.
      rewrite deque_append_last by exact Hm.
      split; [reflexivity|]. split; [|reflexivity].
      destruct (last (a :: l)); intros [= ->]; congruence.
Qed.

Lemma deque_pop_snoc {A} (d : list A) x : deque_pop (d ++ [x]) = Ok (x, d).
Proof. unfold deque_pop. rewrite last_snoc, removelast_last. reflexivity. Qed.

Lemma history_split h :
  history h <> [] ->
  exists l x, history h = l ++ [x] /\ top h = Ok x.
Proof.
  intros Hne. unfold top. destruct (last (history h)) as [x|] eqn:L.
  - exists (removelast (history h)), x. split; [apply last_removelast, L | reflexivity].
  - apply last_None in L. contradiction.
Qed.

(** X2: [back()] then [forward()] is a round trip on a History with at least
    two entries, as long as the deques have room: both stacks are as
    before and [forward()] returns the old top. *)
Theorem back_then_forward h :
  2 <= length (history h) ->
  (forall m, maxlen h = Some m ->
     length (history h) <= m /\ length (history_forward h) < m) ->
  forward (snd (back h)) = (top h, h).
Proof.
  intros Hlen Hm.
  destruct (history_split h) as (l & x & El & Et).
  { intros E. rewrite E in Hlen. simpl in Hlen. lia. }
  rewrite Et. destruct h as [m hist fwd]. simpl in *. subst hist.
  rewrite length_app in Hlen, Hm. simpl in Hlen, Hm.
  unfold back. simpl. rewrite length_app. simpl.
  destruct (Nat.ltb_spec 1 (length l + 1)) as [_|?]; [|lia].
  rewrite deque_pop_snoc. simpl.
  rewrite (deque_append_fits m fwd x) by (intros k ->; apply (Hm k eq_refl)).
  unfold forward. simpl. rewrite length_app. simpl.
  destruct (Nat.ltb_spec 0 (length fwd + 1)) as [_|?]; [|lia].
  rewrite deque_pop_snoc. simpl.
  rewrite (deque_append_fits m l x)
    by (intros k ->; destruct (Hm k eq_refl); lia).
  unfold top. simpl. rewrite last_snoc. reflexivity.
Qed.

(** X3: [forward()] then [back()] is a round trip when both stacks are
    non-empty and the deques have room. *)
Theorem forward_then_back h :
  history h <> [] ->
  history_forward h <> [] ->
  (forall m, maxlen h = Some m ->
     length (history h) < m /\ length (history_forward h) <= m) ->
  back (snd (forward h)) = (top h, h).
Proof.
  intros Hh Hf Hm.
  destruct (history_split h Hh) as (l & y & El & Et). rewrite Et.
  destruct h as [m hist fwd]. simpl in *. subst hist.
  destruct (last fwd) as [x|] eqn:L; [|apply last_None in L; contradiction].
  apply last_removelast in L. set (f := removelast fwd) in *. clearbody f. subst fwd.
  rewrite !length_app in Hm. simpl in Hm.
  unfold forward. simpl. rewrite length_app. simpl.
  destruct (Nat.ltb_spec 0 (length f + 1)) as [_|?]; [|lia].
  rewrite deque_pop_snoc. simpl.
  rewrite (deque_append_fits m (l ++ [y]) x)
    by (intros k ->; rewrite length_app; simpl; apply (Hm k eq_refl)).
  unfold back. simpl. rewrite !length_app. simpl.
  destruct (Nat.ltb_spec 1 (length l + 1 + 1)) as [_|?]; [|lia].
  rewrite deque_pop_snoc. simpl.
  rewrite (deque_append_fits m f x)
    by (intros k ->; destruct (Hm k eq_refl); lia).
  unfold top. simpl. rewrite last_snoc. reflexivity.
Qed.

(** *** What every run keeps *)

Lemma no_repeats_segment (a s b : list Item) :
  no_repeats (a ++ s ++ b) -> no_repeats s.
Proof.
  intros H l1 x y l2 ->. apply (H (a ++ l1) x y (l2 ++ b)).
  rewrite <- !app_assoc. reflexivity.
Qed.

Lemma no_repeats_prefix (s b : list Item) : no_repeats (s ++ b) -> no_repeats s.
Proof. apply (no_repeats_segment [] s b). Qed.

Lemma no_repeats_suffix (a s : list Item) : no_repeats (a ++ s) -> no_repeats s.
Proof. intros H. apply (no_repeats_segment a s []). rewrite app_nil_r. exact H. Qed.

Lemma no_repeats_snoc (l : list Item) x :
  no_repeats l -> last l <> Some x -> no_repeats (l ++ [x]).
Proof.
  intros Hl Hx l1 a b l2 E.
  destruct l2 as [|c l2 _] using rev_ind.
  - change (l1 ++ [a; b]) with (l1 ++ [a] ++ [b]) in E.
    rewrite app_assoc in E. apply app_inj_tail in E as [-> ->].
    rewrite last_snoc in Hx. congruence.
  - change (l1 ++ a :: b :: l2 ++ [c]) with (l1 ++ (a :: b :: l2) ++ [c]) in E.
    rewrite app_assoc in E. apply app_inj_tail in E as [-> _].
    apply (Hl l1 a b l2). reflexivity.
Qed.

Lemma no_repeats_nil : no_repeats (@nil Item).
Proof. intros [|? l1] x y l2 E; discriminate E. Qed.

Lemma deque_append_suffix {A} (m : option nat) (d : list A) x :
  exists a, d ++ [x] = a ++ deque_append m d x.
Proof.
  unfold deque_append. destruct m as [m|].
  - exists (take (length (d ++ [x]) - m) (d ++ [x])). symmetry. apply take_drop.
  - exists []. reflexivity.
Qed.

Lemma tidy_init m : tidy (init (Item:=Item) m).
Proof.
  split.
  - intros k _. simpl. lia.
  - apply no_repeats_nil.
Qed.

Lemma tidy_add h x : tidy h -> tidy (add h x).
Proof.
  intros [Hb Hn]. unfold add.
  destruct (bool_decide (length (history h) = 0)
            || negb (bool_decide (last (history h) = Some x))) eqn:C;
    [|split; assumption].
  split.
  - intros k Hk. simpl in *. split; [|lia]. apply deque_append_length, Hk.
  - unfold timeline. simpl. rewrite app_nil_r.
    destruct (deque_append_suffix (maxlen h) (history h) x) as [a Ea].
    apply (no_repeats_suffix a). rewrite <- Ea.
    apply no_repeats_snoc.
    + unfold timeline in Hn. eapply no_repeats_prefix, Hn.
    + apply orb_true_iff in C as [C|C].
      * apply bool_decide_eq_true in C. apply nil_length_inv in C.
        rewrite C. discriminate.
      * apply negb_true_iff, bool_decide_eq_false in C. exact C.
Qed.

Lemma tidy_back h : tidy h -> tidy (snd (back h)).
Proof.
  intros [Hb Hn]. unfold back. simpl.
  destruct (1 <? length (history h)); [|split; assumption].
  unfold deque_pop. destruct (last (history h)) as [x|] eqn:L; [|split; assumption].
  apply last_removelast in L. set (l := removelast (history h)) in *.
  split.
  - intros k Hk. simpl in *. destruct (Hb k Hk) as [H1 _].
    rewrite L, length_app in H1. simpl in H1.
    split; [lia | apply deque_append_length, Hk].
  - unfold timeline in *. simpl. rewrite L in Hn.
    destruct (deque_append_suffix (maxlen h) (history_forward h) x) as [a Ea].
    apply (f_equal reverse) in Ea. rewrite !reverse_app in Ea. simpl in Ea.
    rewrite <- app_assoc in Hn. simpl in Hn. rewrite Ea in Hn.
    rewrite app_assoc in Hn. eapply no_repeats_prefix, Hn.
Qed.

Lemma tidy_forward h : tidy h -> tidy (snd (forward h)).
Proof.
  intros [Hb Hn]. unfold forward. simpl.
  destruct (0 <? length (history_forward h)); [|split; assumption].
  unfold deque_pop. destruct (last (history_forward h)) as [x|] eqn:L;
    [|split; assumption].
  apply last_removelast in L. set (f := removelast (history_forward h)) in *.
  split.
  - intros k Hk. simpl in *. destruct (Hb k Hk) as [_ H2].
    rewrite L, length_app in H2. simpl in H2.
    split; [apply deque_append_length, Hk | lia].
  - unfold timeline in *. simpl. rewrite L, reverse_app in Hn. simpl in Hn.
    destruct (deque_append_suffix (maxlen h) (history h) x) as [a Ea].
    change (x :: reverse f) with ([x] ++ reverse f) in Hn.
    rewrite app_assoc, Ea, <- app_assoc in Hn.
    eapply no_repeats_suffix, Hn.
Qed.

Lemma tidy_run_op h o : tidy h -> tidy (run_op h o).
Proof.
  intros T. destruct o as [x| | |n]; simpl.
  - apply tidy_add, T.
  - apply tidy_back, T.
  - apply tidy_forward, T.
  - unfold move. destruct (0 <? n)%Z.
    + pose proof (tidy_forward h T). destruct (forward h). exact H.
    + destruct (n <? 0)%Z.
      * pose proof (tidy_back h T). destruct (back h). exact H.
      * exact T.
Qed.

(** X4: In every History built from an empty one by [add], [back], [forward]
    and [move], no entry is next to an equal one, on the back stack and on
    the forward stack, and neither stack is longer than [maxlen]. *)
Theorem run_keeps_tidy (m : option nat) (ops : list (@op Item)) :
  let h := run (init m) ops in
  no_repeats (history h) /\
  no_repeats (history_forward h) /\
  no_repeats (timeline h) /\
  within_maxlen h.
Proof.
  intros h.
  assert (T : tidy h).
  { subst h. unfold run. generalize (tidy_init m).
    generalize (init (Item:=Item) m).
    induction ops as [|o ops IH]; intros h0 T; simpl; [exact T|].
    apply IH, tidy_run_op, T. }
  destruct T as [Hb Hn]. split; [|split; [|split; [exact Hn | exact Hb]]].
  - eapply no_repeats_prefix, Hn.
  - unfold timeline in Hn. apply no_repeats_suffix in Hn.
    intros l1 x y l2 E. apply (f_equal reverse) in E.
    rewrite reverse_app in E. simpl in E. rewrite !reverse_cons, <- !app_assoc in E.
    simpl in E. rewrite E in Hn.
    intros ->. exact (Hn (reverse l2) y y (reverse l1) eq_refl eq_refl).
Qed.
End WithItem.

Lemma add_then_top_witness :
  top (add (add (init (Some 2)) 1) 2) = Ok 2.
Proof. apply (add_then_top (add (init (Some 2)) 1) 2). discriminate. Defined.

Lemma back_then_forward_witness :
  let h := add (add (init (Some 3)) 1) 2 in
  forward (snd (back h)) = (Ok 2, h).
Proof.
  intros h. apply (back_then_forward h).
  - simpl. lia.
  - intros m [= <-]. simpl. lia.
Defined.

Lemma forward_then_back_witness :
  let h := snd (back (add (add (init None) 1) 2)) in
  back (snd (forward h)) = (Ok 1, h).
Proof.
  intros h. apply (forward_then_back h); [discriminate | discriminate |].
  intros m [=].
Defined.

End HistoryRunsFacts.

(** ** Signals: binding, unbinding, collecting, emitting *)

Module SignalsMoreFacts.
Import Signals SignalsCollect.

Section Collect.
Variable dead : handler_function -> bool.

Lemma collect_from_filter i l :
  i <= length l ->
  collect_from dead i l
  = filter (fun h => expired dead (function h) = false) (take i l) ++ drop i l.
Proof.
  revert l. induction i as [|i IH]; intros l Hi; [reflexivity|].
  simpl collect_from.
  destruct (l !! i) as [h|] eqn:E;
    [|apply lookup_ge_None in E; lia].
  rewrite (take_S_r l i h E), filter_app, filter_cons, filter_nil.
  destruct (expired dead (function h)) eqn:X.
  - rewrite decide_False by discriminate. rewrite app_nil_r.
    rewrite IH by (rewrite length_delete by eauto; lia).
    rewrite delete_take_drop, take_app_length' by (rewrite length_take; lia).
    rewrite drop_app_length' by (rewrite length_take; lia). reflexivity.
  - rewrite decide_True by reflexivity.
    rewrite IH by lia. rewrite <- app_assoc. simpl.
    rewrite (drop_S l h i E). reflexivity.
Qed.

(** X5: [signal_garbage_collect] keeps, in every list and in the same order,
    exactly the handlers whose function has not expired; handlers bound
    without [weak] are never dropped; collecting twice is collecting once. *)
Theorem garbage_collect_keeps_live (d : SignalDispatcher) (n : string) :
  _signals (signal_garbage_collect dead d) !! n
    = filter (fun h => expired dead (function h) = false) <$> (_signals d !! n) /\
  (forall l h c, _signals d !! n = Some l -> h ∈ l -> function h = Direct c ->
     exists l', _signals (signal_garbage_collect dead d) !! n = Some l' /\ h ∈ l') /\
  signal_garbage_collect dead (signal_garbage_collect dead d)
    = signal_garbage_collect dead d.
Proof.
  assert (E : forall l, collect_from dead (length l) l
                = filter (fun h => expired dead (function h) = false) l).
  { intros l. rewrite collect_from_filter by lia.
    rewrite firstn_all, drop_all, app_nil_r. reflexivity. }
  assert (L : forall d' k, _signals (signal_garbage_collect dead d') !! k
                = filter (fun h => expired dead (function h) = false)
                  <$> (_signals d' !! k)).
  { intros d' k. unfold signal_garbage_collect. simpl. rewrite lookup_fmap.
    destruct (_signals d' !! k) as [l|]; simpl; [rewrite E|]; reflexivity. }
  split; [apply L|]. split.
  - intros l h c Hl Hin Hf. rewrite L, Hl. simpl. eexists. split; [reflexivity|].
    apply list_elem_of_filter. split; [|exact Hin]. rewrite Hf. reflexivity.
  - unfold signal_garbage_collect at 1 3. f_equal. apply map_eq. intros k.
    rewrite lookup_fmap.
    change ((fun handler_list => collect_from dead (length handler_list) handler_list)
              <$> _signals d)
      with (_signals (signal_garbage_collect dead d)).
    rewrite L. destruct (_signals d !! k) as [l|]; simpl; [|reflexivity].
    f_equal. rewrite E.
    induction l as [|x l IH]; [reflexivity|].
    rewrite filter_cons. destruct (decide _) as [Hx|Hx]; [|exact IH].
    rewrite filter_cons, decide_True by exact Hx. f_equal. exact IH.
Qed.
End Collect.

Lemma sort_appended_perm (l : list SignalHandler) (h : SignalHandler) :
  sort_by (fun handler => (- priority handler)%Q) (l ++ [h]) ≡ₚ l ++ [h].
Proof. apply SignalsFacts.sort_by_perm. Qed.

Lemma bind_shape (d : SignalDispatcher) (n : string) (f : callable)
  (p : Q) (weak : bool) :
  let h := fst (signal_bind d n f p weak) in
  let d' := snd (signal_bind d n f p weak) in
  default [] (_signals d' !! n) ≡ₚ default [] (_signals d !! n) ++ [h] /\
  (forall n', n' <> n -> _signals d' !! n' = _signals d !! n') /\
  signal_name h = n /\ active h = true /\ hid h = next_hid d /\
  next_hid d' = S (next_hid d).
Proof.
  unfold signal_bind. destruct (has_self f); simpl;
    (split; [rewrite lookup_insert_eq; simpl; apply sort_appended_perm|];
     split; [intros n' Hn; apply lookup_insert_ne; congruence|];
     repeat split).
Qed.

(** X6: [signal_bind] adds exactly one handler: the list of the signal holds
    the handlers it held and the new one, the lists of the other signals
    are untouched, and the new handler is active and is the newest
    object. *)
Theorem bind_adds_one (d : SignalDispatcher) (n : string) (f : callable)
  (p : Q) (weak : bool) :
  let h := fst (signal_bind d n f p weak) in
  let d' := snd (signal_bind d n f p weak) in
  default [] (_signals d' !! n) ≡ₚ default [] (_signals d !! n) ++ [h] /\
  (forall n', n' <> n -> _signals d' !! n' = _signals d !! n') /\
  signal_name h = n /\ active h = true /\ hid h = next_hid d /\
  next_hid d' = S (next_hid d).
Proof. apply bind_shape. Qed.

Lemma list_remove_middle (h : SignalHandler) (l1 l2 : list SignalHandler) :
  Forall (fun y => hid y <> hid h) l1 ->
  list_remove h (l1 ++ h :: l2) = Some (l1 ++ l2).
Proof.
  induction 1 as [|y l1 Hy _ IH]; simpl.
  - rewrite Nat.eqb_refl. reflexivity.
  - destruct (Nat.eqb_spec (hid y) (hid h)) as [E|_]; [contradiction|].
    rewrite IH. reflexivity.
Qed.

(** X7: Unbinding the handler that was just bound restores the handlers of
    every signal. *)
Theorem bind_then_unbind (d : SignalDispatcher) (n : string) (f : callable)
  (p : Q) (weak : bool) :
  well_formed d ->
  let h := fst (signal_bind d n f p weak) in
  let d' := signal_unbind (snd (signal_bind d n f p weak)) h in
  (forall n', default [] (_signals d' !! n') = default [] (_signals d !! n')) /\
  next_hid d' = S (next_hid d).
Proof.
  intros Hwf h d'.
  assert (Hl : StronglySorted before (default [] (_signals d !! n)) /\
               Forall (fun y => hid y < next_hid d) (default [] (_signals d !! n))).
  { destruct (_signals d !! n) as [l|] eqn:E; simpl; [apply (Hwf n l E)|].
    split; constructor. }
  destruct Hl as [HS Hid].
  assert (Hh : signal_name h = n /\ hid h = next_hid d).
  { subst h. unfold signal_bind. destruct (has_self f); split; reflexivity. }
  destruct Hh as [Hn Hhid].
  destruct (SignalsFacts.sort_appended h _ HS) as (l1 & l2 & El & Es & _ & _).
  assert (Ed : snd (signal_bind d n f p weak)
               = {| _signals := <[n := l1 ++ h :: l2]> (_signals d);
                    next_hid := S (next_hid d) |}).
  { subst h. unfold signal_bind in *. destruct (has_self f); simpl in *;
      rewrite Es; reflexivity. }
  subst d'. rewrite Ed. unfold signal_unbind. simpl. rewrite Hn, lookup_insert_eq.
  rewrite list_remove_middle.
  - simpl. split; [|reflexivity]. intros n'.
    rewrite insert_insert_eq. destruct (decide (n = n')) as [<-|Hne].
    + rewrite lookup_insert_eq. simpl. symmetry. exact El.
    + rewrite lookup_insert_ne by exact Hne. reflexivity.
  - rewrite El in Hid. apply Forall_app in Hid as [Hid1 _].
    eapply Forall_impl; [exact Hid1|]. simpl. intros y Hy. lia.
Qed.

Section Emit.
Context {Val World : Type}.
Variable truthy : Val -> bool.
Variable gone : handler_function -> World -> bool.
Variable invoke : handler_function -> option (@Signal Val) -> World -> @call_outcome Val World.

Lemma propagate_calls snapshot n : forall signal d w called,
  exists l,
    invoked (propagate gone invoke snapshot n signal d w called) = called ++ l /\
    l `prefix_of` filter (fun h => active h = true) snapshot /\
    (returned (propagate gone invoke snapshot n signal d w called) = Ok true ->
     l = filter (fun h => active h = true) snapshot) /\
    (returned (propagate gone invoke snapshot n signal d w called) = Ok false ->
     l <> []) /\
    (forall k, 0 < k < length l ->
       stopped (fst (after_calls invoke (take k l) (signal, w))) = false) /\
    (returned (propagate gone invoke snapshot n signal d w called) = Ok false ->
     stopped (fst (after_calls invoke l (signal, w))) = true) /\
    (returned (propagate gone invoke snapshot n signal d w called) = Ok true ->
     l <> [] -> stopped (fst (after_calls invoke l (signal, w))) = false).
Proof.
  induction snapshot as [|h rest IH]; intros signal d w called; simpl.
  - exists []. rewrite app_nil_r.
    split; [reflexivity|]. split; [reflexivity|]. split; [reflexivity|].
    split; [discriminate|]. split; [simpl; intros; lia|].
    split; [discriminate | intros _ H; contradiction].
  - rewrite filter_cons. destruct (active h) eqn:A.
    + rewrite decide_True by reflexivity.
      destruct (isinstance_tuple gone (function h) w) as [b|e]; simpl.
      2:{ exists []. rewrite app_nil_r. split; [reflexivity|].
          split; [apply prefix_nil|]. split; [discriminate|].
          split; [discriminate|]. split; [simpl; intros; lia|].
          split; discriminate. }
      set (o := invoke (function h)
                  (if pass_signal h then Some signal else None) w).
      set (signal' := if pass_signal h
                      then default signal (signal_after o) else signal).
      assert (Hstep : forall t, after_calls invoke (h :: t) (signal, w)
                                = after_calls invoke t (signal', world_after o))
        by reflexivity.
      assert (Hnext : forall d',
        stopped signal' = false ->
        exists l,
          invoked (propagate gone invoke rest n signal' d' (world_after o)
                     (called ++ [h])) = called ++ l /\
          l `prefix_of` h :: filter (fun h => active h = true) rest /\
          (returned (propagate gone invoke rest n signal' d' (world_after o)
                       (called ++ [h])) = Ok true ->
           l = h :: filter (fun h => active h = true) rest) /\
          (returned (propagate gone invoke rest n signal' d' (world_after o)
                       (called ++ [h])) = Ok false -> l <> []) /\
          (forall k, 0 < k < length l ->
             stopped (fst (after_calls invoke (take k l) (signal, w))) = false) /\
          (returned (propagate gone invoke rest n signal' d' (world_after o)
                       (called ++ [h])) = Ok false ->
           stopped (fst (after_calls invoke l (signal, w))) = true) /\
          (returned (propagate gone invoke rest n signal' d' (world_after o)
                       (called ++ [h])) = Ok true ->
           l <> [] -> stopped (fst (after_calls invoke l (signal, w))) = false)).
      { intros d' Hgo.
        destruct (IH signal' d' (world_after o) (called ++ [h]))
          as (l & El & Hp & Ht & _ & Hk & Hf & Hlast).
        exists (h :: l). rewrite El, <- app_assoc.
        split; [reflexivity|]. split; [apply prefix_cons, Hp|].
        split; [intros Hr; f_equal; apply Ht, Hr|].
        split; [discriminate|]. split; [|split].
        - intros [|k] Hlt; [lia|]. simpl in Hlt.
          change (take (S k) (h :: l)) with (h :: take k l). rewrite Hstep.
          destruct k as [|k]; [exact Hgo|]. apply Hk. lia.
        - intros Hr. rewrite Hstep. apply Hf, Hr.
        - intros Hr _. rewrite Hstep.
          destruct l as [|y l]; [exact Hgo|]. apply Hlast; [exact Hr | discriminate]. }
      assert (Hstop : forall (r : result bool),
        (r = Ok false -> stopped signal' = true) -> r <> Ok true ->
        exists l,
          called ++ [h] = called ++ l /\
          l `prefix_of` h :: filter (fun h => active h = true) rest /\
          (r = Ok true -> l = h :: filter (fun h => active h = true) rest) /\
          (r = Ok false -> l <> []) /\
          (forall k, 0 < k < length l ->
             stopped (fst (after_calls invoke (take k l) (signal, w))) = false) /\
          (r = Ok false ->
           stopped (fst (after_calls invoke l (signal, w))) = true) /\
          (r = Ok true ->
           l <> [] -> stopped (fst (after_calls invoke l (signal, w))) = false)).
      { intros r Hs Hr. exists [h]. split; [reflexivity|].
        split; [apply prefix_cons, prefix_nil|].
        split; [intros; contradiction|]. split; [discriminate|].
        split; [simpl; intros; lia|]. split; [exact Hs | intros; contradiction]. }
      fold o. fold signal'.
      destruct (raised o) as [e|].
      * destruct e; simpl; try (apply Hstop; discriminate).
        destruct (list_remove h _); simpl; [|apply Hstop; discriminate].
        destruct (stopped signal'); simpl;
          [apply Hstop; [reflexivity | discriminate] | apply Hnext; reflexivity].
      * destruct (stopped signal'); simpl;
          [apply Hstop; [reflexivity | discriminate] | apply Hnext; reflexivity].
    + rewrite decide_False by discriminate. apply IH.
Qed.

(** X8: [signal_emit] calls the active handlers of the signal in list order
    and stops at the first one after which the signal is stopped.  The
    handlers called are a prefix of the active ones; they are all of them
    when it returns [True]; when it returns [False] at least one was
    called.  After every call but the last the signal is not stopped; the
    emit returns [False] with the signal stopped after the last call, and
    [True] with the signal not stopped after it. *)
Theorem emit_calls_active_prefix (d : SignalDispatcher) (n : string)
  (kw : list (string * Val)) (w : World) :
  let r := signal_emit truthy gone invoke d n kw w in
  let act := filter (fun h => active h = true) (default [] (_signals d !! n)) in
  invoked r `prefix_of` act /\
  (returned r = Ok true -> invoked r = act) /\
  (returned r = Ok false -> invoked r <> []) /\
  (forall signal, Signal_init truthy n kw = Ok signal ->
     (forall k, 0 < k < length (invoked r) ->
        stopped (fst (after_calls invoke (take k (invoked r)) (signal, w))) = false) /\
     (returned r = Ok false ->
      stopped (fst (after_calls invoke (invoked r) (signal, w))) = true) /\
     (returned r = Ok true -> invoked r <> [] ->
      stopped (fst (after_calls invoke (invoked r) (signal, w))) = false)).
Proof.
  unfold signal_emit.
  destruct (_signals d !! n) as [[|h l]|]; simpl;
    try (split; [reflexivity|]; split; [reflexivity|]; split; [discriminate|];
         intros signal _; split; [simpl; intros; lia|];
         split; [discriminate | intros _ H; contradiction]).
  destruct (Signal_init truthy n kw) as [signal|e]; simpl.
  - destruct (propagate_calls (h :: l) n signal d w [])
      as (l' & El & Hp & Ht & Hf & Hk & Hlast & Hgo).
    simpl in El. rewrite El. split; [exact Hp|]. split; [exact Ht|].
    split; [exact Hf|]. intros signal0 [= <-]. split; [exact Hk|].
    split; assumption.
  - split; [apply prefix_nil|]. split; [discriminate|]. split; [discriminate|].
    intros signal0 H. discriminate H.
Qed.

(** *** Handlers are distinct objects *)

Lemma distinct_ids_replace d n l l' :
  distinct_ids d ->
  _signals d !! n = Some l ->
  l' `sublist_of` l ->
  distinct_ids {| _signals := <[n := l']> (_signals d); next_hid := next_hid d |}.
Proof.
  intros Hd E Hs n' l0. simpl.
  destruct (decide (n = n')) as [->|Hne].
  - rewrite lookup_insert_eq. intros [= <-].
    destruct (Hd n' l E) as [Hnd Hid]. split.
    + apply (sublist_NoDup (hid <$> l') (hid <$> l)); [exact Hnd | apply fmap_sublist, Hs].
    + eapply SignalsFacts.Forall_sublist; eassumption.
  - rewrite lookup_insert_ne by exact Hne. apply Hd.
Qed.

Lemma distinct_ids_bind d n f p weak :
  distinct_ids d -> distinct_ids (snd (signal_bind d n f p weak)).
Proof.
  intros Hd n' l.
  destruct (bind_shape d n f p weak) as (Hperm & Hother & _ & _ & Hhid & Hnext).
  rewrite Hnext. destruct (decide (n' = n)) as [->|Hne].
  - intros E. rewrite E in Hperm. simpl in Hperm.
    assert (Hold : NoDup (hid <$> default [] (_signals d !! n)) /\
                   Forall (fun h => hid h < next_hid d) (default [] (_signals d !! n))).
    { destruct (_signals d !! n) as [l0|] eqn:E0; simpl; [apply (Hd n l0 E0)|].
      split; constructor. }
    destruct Hold as [Hnd Hid]. split.
    + rewrite Hperm, fmap_app. simpl. apply NoDup_app. split; [exact Hnd|].
      split; [|apply NoDup_singleton].
      intros x Hx Hx'. apply list_elem_of_singleton in Hx'. subst x.
      apply list_elem_of_fmap in Hx as (y & Ey & Hy).
      rewrite Forall_forall in Hid. specialize (Hid y Hy). lia.
    + rewrite Hperm. apply Forall_app. split.
      * eapply Forall_impl; [exact Hid|]. simpl. intros; lia.
      * constructor; [lia | constructor].
  - rewrite Hother by exact Hne. intros E. destruct (Hd n' l E) as [Hnd Hid].
    split; [exact Hnd|]. eapply Forall_impl; [exact Hid|]. simpl. intros; lia.
Qed.

Lemma distinct_ids_unbind d h : distinct_ids d -> distinct_ids (signal_unbind d h).
Proof.
  intros Hd. unfold signal_unbind.
  destruct (_signals d !! signal_name h) as [l|] eqn:E; [|exact Hd].
  destruct (list_remove h l) as [l'|] eqn:R; [|exact Hd].
  eapply distinct_ids_replace; [exact Hd | exact E |].
  eapply SignalsFacts.list_remove_sublist, R.
Qed.

Lemma distinct_ids_propagate snapshot n : forall signal d w called,
  distinct_ids d ->
  distinct_ids (dispatcher_after (propagate gone invoke snapshot n signal d w called)).
Proof.
  induction snapshot as [|h rest IH]; intros signal d w called Hd; simpl.
  - exact Hd.
  - destruct (active h); [|apply IH, Hd].
    destruct (isinstance_tuple _ _ _); [|exact Hd].
    destruct (raised (invoke _ _ _)) as [e|].
    + destruct e; simpl; try exact Hd.
      destruct (_signals d !! n) as [l|] eqn:E; simpl; [|exact Hd].
      destruct (list_remove h l) as [l'|] eqn:R; simpl; [|exact Hd].
      assert (distinct_ids {| _signals := <[n := l']> (_signals d);
                              next_hid := next_hid d |}) as Hd'.
      { eapply distinct_ids_replace; [exact Hd | exact E |].
        eapply SignalsFacts.list_remove_sublist, R. }
      destruct (stopped _); [exact Hd' | apply IH, Hd'].
    + destruct (stopped _); [exact Hd | apply IH, Hd].
Qed.

Lemma distinct_ids_run ops : forall s,
  distinct_ids (fst s) -> distinct_ids (fst (run truthy gone invoke ops s)).
Proof.
  unfold run. induction ops as [|o ops IH]; intros s Hd; simpl; [exact Hd|].
  apply IH. destruct o as [n f p weak|h|
                          |n kw]; simpl.
  - apply distinct_ids_bind, Hd.
  - apply distinct_ids_unbind, Hd.
  - intros n l H. simpl in H. rewrite lookup_empty in H. discriminate.
  - unfold signal_emit. destruct (_signals (fst s) !! n) as [[|h l]|];
      try exact Hd.
    destruct (Signal_init truthy n kw); [|exact Hd].
    apply distinct_ids_propagate, Hd.
Qed.

Lemma list_remove_gone (h : SignalHandler) (l l' : list SignalHandler) :
  NoDup (hid <$> l) -> list_remove h l = Some l' ->
  Forall (fun y => hid y <> hid h) l'.
Proof.
  revert l'. induction l as [|y l IH]; intros l' Hnd; simpl; [discriminate|].
  apply NoDup_cons in Hnd as [Hy Hnd].
  destruct (Nat.eqb_spec (hid y) (hid h)) as [E|Hne].
  - intros [= <-]. apply Forall_forall. intros z Hz Ez.
    apply Hy. rewrite E, <- Ez. apply list_elem_of_fmap. eauto.
  - destruct (list_remove h l) as [r|]; [|discriminate].
    intros [= <-]. constructor; [exact Hne | apply IH; [exact Hnd | reflexivity]].
Qed.

Lemma list_remove_absent (h : SignalHandler) (l : list SignalHandler) :
  list_remove h l = None -> Forall (fun y => hid y <> hid h) l.
Proof.
  induction l as [|y l IH]; simpl; [constructor|].
  destruct (Nat.eqb_spec (hid y) (hid h)) as [E|Hne]; [discriminate|].
  destruct (list_remove h l) as [r|]; [discriminate|].
  intros _. constructor; [exact Hne | apply IH; reflexivity].
Qed.

(** X9: After [signal_unbind(handler)], in a dispatcher reached from the empty
    one by binding, unbinding, clearing and emitting, the handler is not
    in the list of its signal any more, and an emit of that signal does
    not call it. *)
Theorem unbind_removes (ops : list (@op Val)) (w0 : World) (h : SignalHandler)
  (kw : list (string * Val)) :
  let s := run truthy gone invoke ops (empty, w0) in
  let d' := signal_unbind (fst s) h in
  Forall (fun y => hid y <> hid h) (default [] (_signals d' !! signal_name h)) /\
  Forall (fun y => hid y <> hid h)
    (invoked (signal_emit truthy gone invoke d' (signal_name h) kw (snd s))).
Proof.
  intros s d'.
  assert (Hd : distinct_ids (fst s)).
  { apply distinct_ids_run. intros n l H. simpl in H.
    rewrite lookup_empty in H. discriminate. }
  assert (Hl : Forall (fun y => hid y <> hid h)
                 (default [] (_signals d' !! signal_name h))).
  { subst d'. unfold signal_unbind.
    destruct (_signals (fst s) !! signal_name h) as [l|] eqn:E.
    - destruct (list_remove h l) as [l'|] eqn:R.
      + simpl. rewrite lookup_insert_eq. simpl.
        eapply list_remove_gone; [apply (Hd _ _ E) | exact R].
      + rewrite E. simpl. apply list_remove_absent, R.
    - rewrite E. constructor. }
  split; [exact Hl|].
  eapply SignalsFacts.Forall_sublist; [apply SignalsFacts.emit_invoked | exact Hl].
Qed.
End Emit.

Lemma bind_then_unbind_witness :
  let d := snd (signal_bind empty "cd" fn_a (1 # 2) false) in
  let h := fst (signal_bind d "cd" fn_b (9 # 10) false) in
  default [] (_signals (signal_unbind (snd (signal_bind d "cd" fn_b (9 # 10) false)) h)
                !! "cd")
  = default [] (_signals d !! "cd").
Proof.
  intros d h.
  apply (proj1 (bind_then_unbind d "cd" fn_b (9 # 10) false
                  (SignalsFacts.well_formed_bind empty "cd" fn_a (1 # 2) false
                     SignalsFacts.well_formed_empty))).
Defined.

End SignalsMoreFacts.

(** ** Commands: registry lookups and line helpers *)

Module CommandLineFacts.
Import Commands CommandLine.

Implicit Types cc : CommandContainer.

Lemma register_commands cc c :
  commands (register cc c) = <[registered_name c := c]> (commands cc).
Proof.
  unfold register, registered_name. destruct (own_name c) as [n|]; [|reflexivity].
  destruct (String.eqb n ""); reflexivity.
Qed.

(** X10: After [register(c)], looking up the name [c] was stored under returns
    [c], exactly or with abbreviations and whatever else is registered; an
    exact lookup of any other name gives what it gave before. *)
Theorem register_then_get cc c :
  get_command (register cc c) (registered_name c) false = Ok (Some c) /\
  get_command (register cc c) (registered_name c) true = Ok (Some c) /\
  (forall name, name <> registered_name c ->
     get_command (register cc c) name false = get_command cc name false).
Proof.
  assert (L : commands (register cc c) !! registered_name c = Some c).
  { rewrite register_commands. apply lookup_insert_eq. }
  split; [|split].
  - unfold get_command. rewrite L. reflexivity.
  - apply CommandsFacts.get_command_exact, L.
  - intros name Hne. unfold get_command. rewrite register_commands.
    rewrite lookup_insert_ne by congruence. reflexivity.
Qed.

(** X11: A lookup with abbreviations succeeds exactly when the name is
    registered or exactly one registered name matches it. *)
Theorem get_command_succeeds_iff cc name :
  is_ok (get_command cc name true) = true <->
  is_Some (commands cc !! name) \/ length (matching cc name) = 1.
Proof.
  pose proof (CommandsFacts.get_command_cases cc name) as H.
  destruct (commands cc !! name) as [c|] eqn:L.
  - rewrite (CommandsFacts.get_command_exact cc name c L). simpl.
    split; [intros _; left; eauto | reflexivity].
  - rewrite <- (length_map snd (matching cc name)).
    destruct (List.map snd (matching cc name)) as [|c1 [|c2 l]];
      rewrite H; simpl.
    + split; [discriminate | intros [[? ?]|?]; discriminate].
    + split; [intros _; right; reflexivity | reflexivity].
    + split; [discriminate | intros [[? ?]|?]; discriminate].
Qed.

(** X12: What a lookup with abbreviations returns is a registered class, stored
    under the name itself or under a name that starts with it and belongs
    to a class allowing abbreviation; it never returns [None]. *)
Theorem get_command_returns_match cc name r :
  get_command cc name true = Ok r ->
  exists cmd c,
    r = Some c /\ commands cc !! cmd = Some c /\
    (cmd = name \/ (String.prefix name cmd = true /\ allow_abbrev c = true)).
Proof.
  intros Hr.
  assert (Hm : forall c, c ∈ List.map snd (matching cc name) ->
            exists cmd, commands cc !! cmd = Some c /\
              (cmd = name \/ (String.prefix name cmd = true /\ allow_abbrev c = true))).
  { intros c Hc. apply list_elem_of_In, in_map_iff in Hc as ([cmd c'] & Ec & Hin).
    simpl in Ec. subst c'. apply list_elem_of_In, CommandsFacts.matching_spec in Hin
      as [Hl Hmatch].
    exists cmd. split; [exact Hl|]. unfold matches in Hmatch. simpl in Hmatch.
    apply orb_true_iff in Hmatch as [Hp|He].
    - apply andb_true_iff in Hp as [Ha Hp]. right. split; assumption.
    - left. apply String.eqb_eq, He. }
  pose proof (CommandsFacts.get_command_cases cc name) as H.
  destruct (List.map snd (matching cc name)) as [|c1 [|c2 l]] eqn:E.
  - rewrite H in Hr. discriminate.
  - rewrite H in Hr. injection Hr as <-.
    destruct (Hm c1 ltac:(left)) as (cmd & Hl & Hc). exists cmd, c1. auto.
  - destruct (commands cc !! name) as [c|] eqn:L; rewrite H in Hr; [|discriminate].
    injection Hr as <-. exists name, c. auto.
Qed.

Lemma append_space_inj (a b : string) :
  String.append a " " = String.append b " " -> a = b.
Proof.
  revert b. induction a as [|x a IH]; intros [|y b]; simpl; intros E.
  - reflexivity.
  - injection E as <- E. destruct b; discriminate.
  - injection E as -> E. destruct a; discriminate.
  - injection E as -> E. f_equal. apply IH, E.
Qed.

(** X13: [command_generator(start)] yields, once each, the registered names
    that begin with [start], each followed by one space. *)
Theorem command_generator_spec cc prefix :
  (forall s, s ∈ command_generator cc prefix <->
     exists cmd, is_Some (commands cc !! cmd) /\
                 String.prefix prefix cmd = true /\
                 s = String.append cmd " ") /\
  NoDup (command_generator cc prefix).
Proof.
  unfold command_generator. split.
  - intros s. rewrite list_elem_of_In, in_map_iff. split.
    + intros ([cmd c] & <- & Hin). apply filter_In in Hin as [Hin Hp].
      apply list_elem_of_In, elem_of_map_to_list in Hin.
      exists cmd. simpl in *. eauto.
    + intros (cmd & [c Hc] & Hp & ->). exists (cmd, c). split; [reflexivity|].
      apply filter_In. split; [|exact Hp].
      apply list_elem_of_In, elem_of_map_to_list, Hc.
  - pose proof (NoDup_fst_map_to_list (commands cc)) as Hnd.
    induction (map_to_list (commands cc)) as [|[cmd c] l IH]; simpl; [constructor|].
    apply NoDup_cons in Hnd as [Hcmd Hnd]. simpl in Hcmd.
    destruct (String.prefix prefix cmd); simpl; [|apply IH, Hnd].
    constructor; [|apply IH, Hnd].
    intros Hin. apply Hcmd. apply list_elem_of_In, in_map_iff in Hin
      as ([cmd' c'] & E & Hin). simpl in E. apply append_space_inj in E. subst cmd'.
    apply filter_In in Hin as [Hin _]. apply list_elem_of_fmap.
    exists (cmd, c'). split; [reflexivity | apply list_elem_of_In, Hin].
Qed.

(** *** Words *)

Lemma is_space_blank : is_space " " = true.
Proof. reflexivity. Qed.

Lemma split_from_words s : forall cur,
  (forall w, cur = Some w -> is_word w) ->
  Forall is_word (split_from cur s).
Proof.
  induction s as [|c s IH]; intros cur Hcur; simpl.
  - destruct cur as [w|]; [|constructor]. constructor; [apply Hcur; reflexivity | constructor].
  - destruct (is_space c) eqn:Sp.
    + destruct cur as [w|].
      * constructor; [apply Hcur; reflexivity|]. apply IH. discriminate.
      * apply IH. discriminate.
    + apply IH. intros w [= <-]. destruct cur as [u|]; simpl.
      * destruct (Hcur u eq_refl) as [_ Hu]. split.
        -- destruct u; discriminate.
        -- clear -Hu Sp. induction u as [|x u IHu]; simpl in *.
           ++ rewrite Sp. reflexivity.
           ++ apply andb_true_iff in Hu as [-> Hu]. simpl. apply IHu, Hu.
      * split; [discriminate|]. simpl. rewrite Sp. reflexivity.
Qed.

Lemma split_words s : Forall is_word (split s).
Proof. apply split_from_words. discriminate. Qed.

Lemma append_assoc (a b c : string) :
  String.append (String.append a b) c = String.append a (String.append b c).
Proof.
  induction a as [|x a IH]; [reflexivity|].
  change (String x (String.append (String.append a b) c)
          = String x (String.append a (String.append b c))).
  f_equal. exact IH.
Qed.

Lemma append_cons x (a b : string) :
  String.append (String x a) b = String x (String.append a b).
Proof. reflexivity. Qed.

Lemma append_nil_l (b : string) : String.append "" b = b.
Proof. reflexivity. Qed.

Lemma split_from_word w s : forall cur,
  is_word w ->
  split_from cur (String.append w s)
  = split_from (Some (String.append (default "" cur) w)) s.
Proof.
  induction w as [|c w IH]; intros cur [Hne Hw]; [contradiction|].
  simpl in Hw. apply andb_true_iff in Hw as [Hc Hw].
  apply negb_true_iff in Hc. rewrite append_cons. cbn [split_from]. rewrite Hc.
  destruct w as [|c' w].
  - rewrite append_nil_l. reflexivity.
  - rewrite IH by (split; [discriminate | exact Hw]).
    cbn [default from_option id]. rewrite append_assoc. reflexivity.
Qed.

Lemma split_join words :
  Forall is_word words -> split (String.append (join_space words) " ") = words.
Proof.
  unfold split. induction 1 as [|w ws Hw Hws IH]; [reflexivity|].
  cbn [join_space]. destruct ws as [|w' ws].
  - rewrite split_from_word by exact Hw. reflexivity.
  - rewrite append_assoc, split_from_word by exact Hw.
    rewrite append_cons. cbn [split_from]. rewrite is_space_blank.
    cbn [default from_option id]. f_equal. exact IH.
Qed.

Lemma Forall_py_take {A} (P : A -> Prop) (l : list A) n :
  Forall P l -> Forall P (py_take l n).
Proof. intros H. unfold py_take. destruct (0 <=? n)%Z; apply Forall_take, H. Qed.

(** X14: [start(n)] splits back into the first [n] words: for a command set up
    by [setargs], and after any [shift], [start(n).split()] is
    [args[:n]]. *)
Theorem start_splits_back (c : Command) (n : Z) :
  Forall is_word (args c) ->
  split (start c n) = py_take (args c) n.
Proof. intros H. apply split_join, Forall_py_take, H. Qed.

Lemma setargs_words c line pos n : Forall is_word (args (setargs c line pos n)).
Proof. apply split_words. Qed.

Lemma shift_words c c' : Forall is_word (args c) -> shift c = Ok c' -> Forall is_word (args c').
Proof.
  unfold shift. destruct (args c) as [|w ws]; [discriminate|].
  intros H [= <-]. simpl. apply Forall_cons in H as [_ H]. exact H.
Qed.

(** X15: [shift()] keeps [arg] and [rest] in step: afterwards [arg(n)] and
    [rest(n)] are what [arg(n+1)] and [rest(n+1)] were, for [n >= 0]; on
    a command without words it raises [IndexError]. *)
Theorem shift_moves_by_one (c : Command) :
  (args c = [] -> shift c = Raise IndexError) /\
  (forall c', shift c = Ok c' ->
     forall n, (0 <= n)%Z ->
       arg c' n = arg c (n + 1) /\ rest c' n = rest c (n + 1)).
Proof.
  unfold shift. split; [intros ->; reflexivity|].
  intros c'. destruct (args c) as [|w ws] eqn:E; [discriminate|].
  intros [= <-] n Hn. split.
  - unfold arg, py_index. simpl. rewrite E.
    destruct (Z.leb_spec 0 n) as [_|?]; [|lia].
    destruct (Z.leb_spec 0 (n + 1)) as [_|?]; [|lia].
    replace (Z.to_nat (n + 1)) with (S (Z.to_nat n)) by lia. reflexivity.
  - unfold rest. simpl. f_equal. lia.
Qed.

(** *** [rest] and the words of the line *)

Lemma rest_loop_words target s : forall got_space word_count cur,
  blanks_only s = true ->
  (got_space = true /\ cur = None) \/ (got_space = false /\ is_Some cur) ->
  (word_count <= target)%Z ->
  (got_space = false -> (word_count < target)%Z) ->
  split (rest_loop target got_space word_count s)
  = drop (Z.to_nat (target - word_count)) (split_from cur s).
Proof.
  induction s as [|c s IH]; intros g w cur Hb Hst Hle Hlt.
  - simpl. destruct Hst as [[-> ->]|[-> [u ->]]]; simpl.
    + rewrite drop_nil. reflexivity.
    + specialize (Hlt eq_refl).
      replace (Z.to_nat (target - w)) with (S (Z.to_nat (target - w - 1))) by lia.
      simpl. rewrite drop_nil. reflexivity.
  - simpl in Hb. apply andb_true_iff in Hb as [Hc Hb]. simpl rest_loop.
    destruct (Ascii.eqb_spec c " ") as [->|Hne].
    + cbn [split_from]. rewrite is_space_blank.
      destruct Hst as [[-> ->]|[-> [u ->]]]; cbn [negb].
      * apply IH; auto.
      * specialize (Hlt eq_refl).
        rewrite (IH true (w + 1)%Z None) by (auto; lia).
        replace (Z.to_nat (target - w)) with (S (Z.to_nat (target - (w + 1)))) by lia.
        reflexivity.
    + assert (Sp : is_space c = false).
      { apply orb_true_iff in Hc as [Hc|Hc]; [apply negb_true_iff, Hc | discriminate]. }
      cbn [split_from]. rewrite Sp.
      destruct Hst as [[-> ->]|[-> [u ->]]]; cbn [negb].
      * destruct (Z.eqb_spec w target) as [->|Hwt].
        -- rewrite Z.sub_diag. simpl drop. unfold split. cbn [split_from].
           rewrite Sp. reflexivity.
        -- apply IH; [exact Hb | right; split; eauto | lia | lia].
      * apply IH; [exact Hb | right; split; eauto | lia | exact Hlt].
Qed.

(** X16: On a line that does not begin with white space and whose only white
    space is the space character, [rest(n)] begins at word number
    [n + _shifted] for [n + _shifted >= 1]: its words are the words of the
    line from that one on. *)
Theorem rest_words (c : Command) (n : Z) (c0 : ascii) (s : string) :
  line c = String c0 s ->
  is_space c0 = false ->
  blanks_only (line c) = true ->
  (1 <= n + _shifted c)%Z ->
  split (rest c n) = drop (Z.to_nat (n + _shifted c)) (split (line c)).
Proof.
  intros El Hc0 Hb Hk. unfold rest, split. rewrite El in *. simpl.
  simpl in Hb. apply andb_true_iff in Hb as [_ Hb].
  destruct (Ascii.eqb_spec c0 " ") as [->|_]; [rewrite is_space_blank in Hc0; discriminate|].
  rewrite Hc0.
  rewrite (rest_loop_words _ s false 0%Z (Some (String c0 "")))
    by (auto; try lia; right; split; eauto).
  rewrite Z.sub_0_r. reflexivity.
Qed.

Lemma get_command_returns_match_witness :
  exists cmd c,
    Some edit = Some c /\ commands (register (register init edit) exit) !! cmd = Some c /\
    (cmd = "ed" \/ (String.prefix "ed" cmd = true /\ allow_abbrev c = true)).
Proof.
  apply (get_command_returns_match (register (register init edit) exit) "ed" (Some edit)).
  vm_compute. reflexivity.
Defined.

Lemma start_splits_back_witness :
  split (start (setargs new_command "open file name" None None) 2) = ["open"; "file"].
Proof.
  apply (start_splits_back (setargs new_command "open file name" None None) 2).
  repeat constructor; discriminate.
Defined.

Lemma rest_words_witness :
  split (rest (setargs new_command "open file name" None None) 1) = ["file"; "name"].
Proof.
  apply (rest_words (setargs new_command "open file name" None None) 1
           "o" "pen file name"); reflexivity.
Defined.

End CommandLineFacts.

(** ** The preview cache: what a finished job leaves behind *)

Module PreviewResultsFacts.
Import Previews PreviewsFacts.

Local Open Scope Z_scope.

(** The first part of the callback when the result is stored and an object
    is selected. *)
Lemma on_after_store_ok (fm : Fm) (job : CommandLoader) (exit : Z)
  (content : string) (d d2 : data) (f : File) :
  heap fm !! job_data job = Some d ->
  cf fm = Some f ->
  store_result fm job exit content (with_foundpreview d true) = Ok d2 ->
  exists fm1,
    on_after_store fm job exit content = (Ok tt, fm1) /\
    heap fm1 = <[job_data job := with_loading d2 false]>
                 (<[job_data job := d2]> (heap fm)) /\
    previews fm1 = previews fm /\
    loader fm1 = loader fm /\
    (script_enabled fm1 = script_enabled fm /\
     preview_script fm1 = preview_script fm) /\
    cf fm1 = cf fm /\
    pager_wid fm1 = pager_wid fm /\
    pager_hei fm1 = pager_hei fm.
Proof.
  intros Hd Hcf Hst. unfold on_after_store. rewrite Hd, Hst. cbn [cf set_entry].
  rewrite Hcf. eexists. split; [reflexivity|].
  destruct (String.eqb (realpath f) (job_path job)); cbn; repeat split; assumption.
Qed.

Lemma store_result_2 (fm : Fm) (job : CommandLoader) (content : string)
  (d : data) (text : string) :
  readable fm !! job_path job = Some text ->
  store_result fm job 2 content d
  = Ok (with_cached d (-1, -1) (Some (String.substring 0 (1024 * 32) text))).
Proof. intros H. unfold store_result. rewrite H. reflexivity. Qed.

Lemma store_result_unreadable (fm : Fm) (job : CommandLoader) (content : string)
  (d : data) :
  readable fm !! job_path job = None ->
  store_result fm job 2 content d = Raise IOError.
Proof. intros H. unfold store_result. rewrite H. reflexivity. Qed.

Lemma store_result_loading (fm : Fm) (job : CommandLoader) (exit : Z)
  (content : string) (d d2 : data) :
  store_result fm job exit content d = Ok d2 -> loading d2 = loading d.
Proof.
  intros H.
  apply (f_equal (fun r => match r with Ok x => loading x | Raise _ => loading d end))
    in H.
  rewrite <- H. unfold store_result.
  repeat match goal with
         | |- context [if ?b then _ else _] => destruct b
         | |- context [match ?x with Some _ => _ | None => _ end] => destruct x
         end; reflexivity.
Qed.

(** A value under one of the four keys of a request is found by it. *)
Lemma found_key (d : data) (w h : Z) (k : Z * Z) :
  k = (-1, -1) \/ k = (w, -1) \/ k = (-1, h) \/ k = (w, h) ->
  is_Some (cached d !! k) -> is_Some (found d w h).
Proof.
  intros Hk Hv. unfold found.
  destruct (cached d !! (-1, -1)) eqn:E1; [eauto|].
  destruct (cached d !! (w, -1)) eqn:E2; [eauto|].
  destruct (cached d !! (-1, h)) eqn:E3; [eauto|].
  destruct Hk as [->|[->|[->| ->]]]; try (rewrite ?E1, ?E2, ?E3 in Hv; destruct Hv; discriminate).
  exact Hv.
Qed.

(** After the callback a request for the path of the job is served from
    the entry, when the pager refresh in the callback did not turn the
    entry to loading again. *)
Lemma served (fm : Fm) (job : CommandLoader) (exit : Z) (content : string)
  (d d2 : data) (f : File) (v : option string) (w h : Z) :
  heap fm !! job_data job = Some d ->
  cf fm = Some f ->
  script_enabled fm = true ->
  previews fm !! job_path job = Some (job_data job) ->
  store_result fm job exit content (with_foundpreview d true) = Ok d2 ->
  found d2 w h = Some v ->
  (is_file f = true -> previews fm !! realpath f = Some (job_data job) ->
   is_Some (found d2 (pager_wid fm) (pager_hei fm))) ->
  let fm' := snd (on_after fm job exit content) in
  get_preview fm' (job_path job) w h = (to_pyval v, fm') /\
  heap fm' !! job_data job = Some (with_loading d2 false).
Proof.
  intros Hd Hcf Hs Hp Hst Hf Hpager fm'.
  destruct (on_after_store_ok fm job exit content d d2 f Hd Hcf Hst)
    as (fm1 & E & Hh & Hpv & _ & [Hse _] & Hcf1 & Hw & Hhe).
  subst fm'. rewrite (on_after_ok _ _ _ _ _ E). cbn [snd].
  assert (Hd1 : heap fm1 !! job_data job = Some (with_loading d2 false))
    by (rewrite Hh; apply lookup_insert_eq).
  assert (Hkeep : script_enabled (refresh_pager fm1) = true /\
                  previews (refresh_pager fm1) !! job_path job = Some (job_data job) /\
                  heap (refresh_pager fm1) !! job_data job
                  = Some (with_loading d2 false)).
  { destruct (refresh_pager_cases fm1) as [R|(f' & Hcf' & Hfile & R)]; rewrite R.
    - rewrite Hse, Hpv. repeat split; assumption.
    - assert (f' = f) as -> by congruence.
      destruct (get_preview_frame fm1 (realpath f) (pager_wid fm1) (pager_hei fm1))
        as (Hs' & Hp' & _ & Hh').
      split; [rewrite Hs', Hse; exact Hs|].
      split; [apply Hp'; [rewrite Hpv; exact Hp | eauto]|].
      apply Hh'; [exact Hd1|].
      destruct (decide (previews fm !! realpath f = Some (job_data job))) as [Ha|Hn].
      + right. right. rewrite Hw, Hhe. apply (Hpager Hfile Ha).
      + left. rewrite Hpv. exact Hn. }
  destruct Hkeep as (Hs' & Hp' & Hd').
  split; [|exact Hd'].
  apply (get_preview_found _ _ _ _ (job_data job) (with_loading d2 false) v).
  - exact Hs'.
  - apply entry_of_Some. split; assumption.
  - reflexivity.
  - exact Hf.
Qed.

(** X17: What a finished job leaves for later requests, by exit code, when an
    object is selected and the entry is still the one of the path.  Exit
    code 5 serves the output to every request, 1 serves [None] to every
    request and records that no preview exists, 2 serves the first 32768
    characters of the file.  Exit codes 4, 3 and 0 serve the output to
    requests of the same width, the same height, and the same width and
    height, as long as no more general key of the entry is in the way and
    the pager refresh of the callback, when it asks for this entry (the
    selected object is a file bound to it), asks with that width, height,
    or width and height.  After exit code 0, when the refresh asks for
    this entry and finds nothing for the size of the pager, it submits a
    job for that size and every request for the path returns [None]. *)
Theorem finished_job_serves (fm : Fm) (job : CommandLoader) (exit : Z)
  (content : string) (d : data) (f : File) :
  heap fm !! job_data job = Some d ->
  cf fm = Some f ->
  script_enabled fm = true ->
  previews fm !! job_path job = Some (job_data job) ->
  let fm' := snd (on_after fm job exit content) in
  let p := job_path job in
  let refreshed :=
    is_file f = true /\ previews fm !! realpath f = Some (job_data job) in
  (exit = 5 -> forall w h, get_preview fm' p w h = (PyStr content, fm')) /\
  (exit = 1 ->
     (forall w h, get_preview fm' p w h = (PyNone, fm')) /\
     (exists d', heap fm' !! job_data job = Some d' /\ foundpreview d' = Some false)) /\
  (exit = 2 -> forall text, readable fm !! p = Some text ->
     forall w h,
       get_preview fm' p w h = (PyStr (String.substring 0 (1024 * 32) text), fm')) /\
  (exit = 4 -> cached d !! (-1, -1) = None ->
     (refreshed -> pager_wid fm = job_width job) ->
     forall h, get_preview fm' p (job_width job) h = (PyStr content, fm')) /\
  (exit = 3 -> cached d !! (-1, -1) = None ->
     (refreshed -> pager_hei fm = job_height job) ->
     forall w, cached d !! (w, -1) = None ->
       get_preview fm' p w (job_height job) = (PyStr content, fm')) /\
  (exit = 0 -> cached d !! (-1, -1) = None ->
     cached d !! (job_width job, -1) = None ->
     cached d !! (-1, job_height job) = None ->
     (refreshed ->
      pager_wid fm = job_width job /\ pager_hei fm = job_height job) ->
     get_preview fm' p (job_width job) (job_height job) = (PyStr content, fm')) /\
  (exit = 0 -> refreshed ->
     found (with_cached d (job_width job, job_height job) (Some content))
           (pager_wid fm) (pager_hei fm) = None ->
     loader fm'
     = loader fm ++ [mkLoader (default "" (preview_script fm)) (realpath f)
                       (pager_wid fm) (pager_hei fm) (job_data job)] /\
     forall w h, get_preview fm' p w h = (PyNone, fm')).
Proof.
  intros Hd Hcf Hs Hp fm' p refreshed.
  assert (K : forall d2 v w h,
            store_result fm job exit content (with_foundpreview d true) = Ok d2 ->
            found d2 w h = Some v ->
            (refreshed -> is_Some (found d2 (pager_wid fm) (pager_hei fm))) ->
            get_preview fm' p w h = (to_pyval v, fm') /\
            heap fm' !! job_data job = Some (with_loading d2 false)).
  { intros d2 v w h Hst Hf Hr.
    apply (served fm job exit content d d2 f v w h Hd Hcf Hs Hp Hst Hf).
    intros H1 H2. apply Hr. split; assumption. }
  split; [|split; [|split; [|split; [|split; [|split]]]]].
  - intros -> w h. eapply (K _ (Some content)); [reflexivity| |].
    + unfold found. simpl. rewrite lookup_insert_eq. reflexivity.
    + intros _. apply (found_key _ _ _ (-1, -1)); [auto|].
      simpl. rewrite lookup_insert_eq. eauto.
  - intros ->.
    assert (A : forall w h,
              get_preview fm' p w h = (to_pyval None, fm') /\
              heap fm' !! job_data job
              = Some (with_loading
                        (with_foundpreview
                           (with_cached (with_foundpreview d true) (-1, -1) None)
                           false) false)).
    { intros w h. eapply K; [reflexivity| |].
      - unfold found. simpl. rewrite lookup_insert_eq. reflexivity.
      - intros _. apply (found_key _ _ _ (-1, -1)); [auto|].
        simpl. rewrite lookup_insert_eq. eauto. }
    split.
    + intros w h. apply A.
    + eexists. split; [apply (A 0 0) | reflexivity].
  - intros -> text Ht w h.
    eapply (K _ (Some (String.substring 0 (1024 * 32) text)));
      [apply store_result_2, Ht| |].
    + unfold found. cbn [cached with_cached]. rewrite lookup_insert_eq. reflexivity.
    + intros _. apply (found_key _ _ _ (-1, -1)); [auto|].
      cbn [cached with_cached]. rewrite lookup_insert_eq. eauto.
  - intros -> H11 Hpg h. eapply (K _ (Some content)); [reflexivity| |].
    + unfold found. simpl.
      destruct (decide (job_width job = -1)) as [E|Hne].
      * rewrite E, lookup_insert_eq. reflexivity.
      * rewrite lookup_insert_ne by congruence. rewrite H11, lookup_insert_eq.
        reflexivity.
    + intros Hr. apply (found_key _ _ _ (pager_wid fm, -1)); [auto|].
      simpl. rewrite (Hpg Hr), lookup_insert_eq. eauto.
  - intros -> H11 Hpg w Hw. eapply (K _ (Some content)); [reflexivity| |].
    + unfold found. simpl.
      destruct (decide (job_height job = -1)) as [E|Hne].
      * rewrite E, lookup_insert_eq. reflexivity.
      * rewrite lookup_insert_ne by congruence. rewrite H11.
        rewrite lookup_insert_ne by congruence. rewrite Hw, lookup_insert_eq.
        reflexivity.
    + intros Hr. apply (found_key _ _ _ (-1, pager_hei fm)); [auto|].
      simpl. rewrite (Hpg Hr), lookup_insert_eq. eauto.
  - intros -> H11 Hw1 H1h Hpg. eapply (K _ (Some content)); [reflexivity| |].
    + unfold found. simpl.
      set (w := job_width job) in *. set (h := job_height job) in *.
      rewrite (lookup_insert (cached d) (w, h) (-1, -1)).
      case_decide as E1; [reflexivity|]. rewrite H11.
      rewrite (lookup_insert (cached d) (w, h) (w, -1)).
      case_decide as E2; [reflexivity|]. rewrite Hw1.
      rewrite (lookup_insert (cached d) (w, h) (-1, h)).
      case_decide as E3; [reflexivity|]. rewrite H1h.
      rewrite lookup_insert_eq. reflexivity.
    + intros Hr. destruct (Hpg Hr) as [Ew Eh].
      apply (found_key _ _ _ (pager_wid fm, pager_hei fm)); [auto|].
      simpl. rewrite Ew, Eh, lookup_insert_eq. eauto.
  - intros -> [Hfile Hbound] Hmiss.
    set (d2 := with_cached (with_foundpreview d true)
                 (job_width job, job_height job) (Some content)).
    destruct (on_after_store_ok fm job 0 content d d2 f Hd Hcf eq_refl)
      as (fm1 & E & Hh & Hpv & Hl & [Hse Hps] & Hcf1 & Hw & Hhe).
    assert (Hd1 : heap fm1 !! job_data job = Some (with_loading d2 false))
      by (rewrite Hh; apply lookup_insert_eq).
    assert (R : fm' = snd (get_preview fm1 (realpath f) (pager_wid fm) (pager_hei fm))).
    { subst fm'. rewrite (on_after_ok _ _ _ _ _ E). cbn [snd].
      unfold refresh_pager, get_preview_source. rewrite Hcf1, Hcf, Hfile, Hw, Hhe.
      reflexivity. }
    assert (G : get_preview fm1 (realpath f) (pager_wid fm) (pager_hei fm)
                = (PyNone,
                   set_loader (set_entry fm1 (job_data job) (with_loading d2 true))
                     (loader fm1 ++ [mkLoader (default "" (preview_script fm1))
                                       (realpath f) (pager_wid fm) (pager_hei fm)
                                       (job_data job)]))).
    { unfold get_preview. rewrite Hse, Hs.
      assert (He : entry_of fm1 (realpath f)
                   = Some (job_data job, with_loading d2 false)).
      { apply entry_of_Some. rewrite Hpv. split; assumption. }
      rewrite He. cbn [loading with_loading]. unfold lookup_or_submit.
      change (found (with_loading d2 false) (pager_wid fm) (pager_hei fm))
        with (found (with_cached d (job_width job, job_height job) (Some content))
                (pager_wid fm) (pager_hei fm)).
      rewrite Hmiss. reflexivity. }
    rewrite G in R. cbn [snd] in R. rewrite R. split.
    + cbn [loader set_loader]. rewrite Hl, Hps. reflexivity.
    + intros w h.
      apply (PreviewJobsFacts.get_preview_loading _ _ _ _ (job_data job)
               (with_loading d2 true)).
      * cbn. rewrite <- Hs, <- Hse. reflexivity.
      * apply entry_of_Some. cbn [previews heap set_loader set_entry].
        rewrite Hpv. split; [exact Hp | apply lookup_insert_eq].
      * reflexivity.
Qed.

Lemma finished_job_serves_witness :
  let fm := snd (get_preview example_fm "/p" 80 24) in
  let job := mkLoader "scope.sh" "/p" 80 24 0 in
  let fm' := snd (on_after fm job 0 "out") in
  get_preview fm' "/p" 80 24 = (PyStr "out", fm').
Proof.
  intros fm job.
  refine (proj1 (proj2 (proj2 (proj2 (proj2 (proj2
            (finished_job_serves fm job 0 "out"
               (mkData true None ∅) (mkFile "/x" false) _ _ _ _))))))
            eq_refl _ _ _ _); try (vm_compute; reflexivity).
  intros [H _]. discriminate H.
Defined.

(** X18: When the callback cannot finish, because no object is selected or
    because the file of an exit code 2 cannot be read, it raises, the entry
    stays loading, and every later request for the path returns [None]
    without submitting a job. *)
Theorem failed_callback_keeps_loading (fm : Fm) (job : CommandLoader) (exit : Z)
  (content : string) (d : data) :
  heap fm !! job_data job = Some d ->
  loading d = true ->
  cf fm = None \/ (exit = 2 /\ readable fm !! job_path job = None) ->
  let fm' := snd (on_after fm job exit content) in
  is_ok (fst (on_after fm job exit content)) = false /\
  (exists d', heap fm' !! job_data job = Some d' /\ loading d' = true) /\
  (script_enabled fm = true ->
   previews fm !! job_path job = Some (job_data job) ->
   forall w h, get_preview fm' (job_path job) w h = (PyNone, fm')).
Proof.
  intros Hd Hl Hwhy fm'.
  assert (K : exists e d', on_after_store fm job exit content
                           = (Raise e, set_entry fm (job_data job) d') /\
                           loading d' = true).
  { unfold on_after_store. rewrite Hd.
    destruct (store_result fm job exit content (with_foundpreview d true))
      as [d2|e] eqn:Hst.
    - destruct Hwhy as [Hcf|[-> Hr]].
      + cbn [cf set_entry]. rewrite Hcf. exists AttributeError, d2.
        split; [reflexivity|].
        rewrite (store_result_loading _ _ _ _ _ _ Hst). exact Hl.
      + rewrite (store_result_unreadable _ _ _ _ Hr) in Hst. discriminate.
    - exists e, (with_foundpreview d true). split; [reflexivity | exact Hl]. }
  destruct K as (e & d' & E & Hl').
  subst fm'. rewrite (on_after_raise _ _ _ _ _ _ E). cbn [fst snd is_ok].
  split; [reflexivity|]. split.
  - exists d'. simpl. split; [apply lookup_insert_eq | exact Hl'].
  - intros Hs Hp w h.
    apply (PreviewJobsFacts.get_preview_loading _ _ _ _ (job_data job) d').
    + exact Hs.
    + unfold entry_of. simpl. rewrite Hp, lookup_insert_eq. reflexivity.
    + exact Hl'.
Qed.

Lemma failed_callback_keeps_loading_witness :
  let fm := snd (get_preview (fresh "scope.sh" None ∅) "/p" 80 24) in
  let job := mkLoader "scope.sh" "/p" 80 24 0 in
  is_ok (fst (on_after fm job 0 "out")) = false.
Proof.
  intros fm job.
  refine (proj1 (failed_callback_keeps_loading fm job 0 "out"
                   (mkData true None ∅) _ _ (or_introl _)));
    vm_compute; reflexivity.
Defined.

(** X19: [update_preview(path)] on a cached path drops the entry and asks for a
    redraw; the next request makes a new entry and submits a job, whatever
    was cached.  On a path without entry it returns [False] and changes
    nothing. *)
Theorem update_preview_regenerates (fm : Fm) (p : string) :
  (previews fm !! p = None -> update_preview fm p = (Some false, fm)) /\
  (is_Some (previews fm !! p) ->
   let fm1 := snd (update_preview fm p) in
   fst (update_preview fm p) = None /\
   previews fm1 !! p = None /\
   ui_need_redraw fm1 = true /\
   (script_enabled fm = true ->
    forall w h,
      fst (get_preview fm1 p w h) = PyNone /\
      loader (snd (get_preview fm1 p w h))
      = loader fm ++ [mkLoader (default "" (preview_script fm)) p w h (next_ref fm)])).
Proof.
  unfold update_preview. split.
  - intros ->. reflexivity.
  - intros [r ->]. cbn [fst snd]. split; [reflexivity|].
    split; [apply lookup_delete_eq|]. split; [reflexivity|].
    intros Hs w h. unfold get_preview.
    change (script_enabled (set_redraw
              (set_previews fm (delete p (previews fm)))
              true (browser_need_redraw fm)))
      with (script_enabled fm).
    rewrite Hs. unfold entry_of. cbn [previews set_redraw set_previews].
    rewrite lookup_delete_eq.
    split; reflexivity.
Qed.

(** What a request adds: at most one job, for its path, and at most one
    binding, of its path to a new entry. *)
Lemma get_preview_adds fm q w h :
  let fm' := snd (get_preview fm q w h) in
  (exists jobs, loader fm' = loader fm ++ jobs /\
                (length jobs <= 1)%nat /\
                forall j, j ∈ jobs -> job_path j = q) /\
  (forall q' r, previews fm' !! q' = Some r ->
     previews fm !! q' = Some r \/ (q' = q /\ r = next_ref fm)).
Proof.
  destruct (get_preview_shape fm q w h) as [E|[(r & d & He & Hl & Hf & E)|[He E]]];
    rewrite E; cbn [snd].
  - split; [|auto]. exists []. rewrite app_nil_r.
    split; [reflexivity|]. split; [simpl; lia|]. intros j Hj. inversion Hj.
  - split; [|auto]. eexists. split; [reflexivity|]. split; [simpl; lia|].
    intros j Hj. apply list_elem_of_singleton in Hj as ->. reflexivity.
  - split.
    + eexists. split; [reflexivity|]. split; [simpl; lia|].
      intros j Hj. apply list_elem_of_singleton in Hj as ->. reflexivity.
    + intros q' r. cbn [previews set_loader set_entry set_previews].
      rewrite lookup_insert. case_decide as Hq.
      * intros [= <-]. right. split; [congruence | reflexivity].
      * auto.
Qed.

(** X20: The callback of a job changes the entry it was made with and, when
    the selected object is a file, what the request of the pager refresh
    for that file changes, and nothing else.  The binding of every path
    but the selected file is as it was, and no binding to an entry is
    changed; the entry of the job is never bound to a path again; the queue
    grows by at most one job, and that job is for the selected file; every
    entry that is neither the one of the job nor bound to the selected
    file is as it was.  When the selected object is not a file, the
    bindings and the queue are as they were. *)
Theorem callback_touches_only_its_entry (fm : Fm) (job : CommandLoader)
  (exit : Z) (content : string) :
  let fm' := snd (on_after fm job exit content) in
  let selected := fun q =>
    exists f, cf fm = Some f /\ is_file f = true /\ realpath f = q in
  (forall q, ~ selected q -> previews fm' !! q = previews fm !! q) /\
  (forall q r, previews fm !! q = Some r -> is_Some (heap fm !! r) ->
     previews fm' !! q = Some r) /\
  (is_Some (heap fm !! job_data job) ->
   forall q, previews fm' !! q = Some (job_data job) ->
     previews fm !! q = Some (job_data job)) /\
  (exists jobs, loader fm' = loader fm ++ jobs /\
                (length jobs <= 1)%nat /\
                forall j, j ∈ jobs -> selected (job_path j)) /\
  (forall r d, heap fm !! r = Some d -> r <> job_data job ->
     (forall q, selected q -> previews fm !! q <> Some r) ->
     heap fm' !! r = Some d) /\
  ((forall f, cf fm = Some f -> is_file f = false) ->
   previews fm' = previews fm /\ loader fm' = loader fm).
Proof.
  intros fm' selected.
  destruct (PreviewJobsFacts.on_after_store_frame fm job exit content)
    as (Ep & El & Hframe & Hsome & Hcf & [Hw Hh] & _).
  set (fm1 := snd (on_after_store fm job exit content)) in *.
  assert (Cases : fm' = fm1 \/
            exists f, cf fm = Some f /\ is_file f = true /\
              fm' = snd (get_preview fm1 (realpath f) (pager_wid fm1) (pager_hei fm1))).
  { subst fm' fm1. unfold on_after.
    destruct (on_after_store fm job exit content) as [[u|e] fm1]; cbn [snd] in *;
      [|left; reflexivity].
    destruct (refresh_pager_cases fm1) as [R|(f & Hf & Hfile & R)];
      [left; exact R|].
    right. exists f. rewrite <- Hcf. repeat split; assumption. }
  destruct Cases as [->|(f & Hf & Hfile & ->)].
  - rewrite Ep, El.
    split; [reflexivity|]. split; [auto|]. split; [auto|].
    split.
    { exists []. rewrite app_nil_r. split; [reflexivity|].
      split; [simpl; lia|]. intros j Hj. inversion Hj. }
    split; [|auto].
    intros r d Hd Hne _. rewrite Hframe by exact Hne. exact Hd.
  - destruct (get_preview_frame fm1 (realpath f) (pager_wid fm1) (pager_hei fm1))
      as (_ & Hkeep & Hother & Hheap).
    destruct (get_preview_adds fm1 (realpath f) (pager_wid fm1) (pager_hei fm1))
      as ((jobs & Ejobs & Hlen & Hpath) & Hnew).
    assert (Hsel : selected (realpath f)) by (exists f; repeat split; assumption).
    split; [|split; [|split; [|split; [|split]]]].
    + intros q Hq. rewrite Hother, Ep; [reflexivity|].
      intros ->. apply Hq, Hsel.
    + intros q r Hq Hr. apply Hkeep; [rewrite Ep; exact Hq | apply Hsome, Hr].
    + intros Hjob q Hq. destruct (Hnew q _ Hq) as [Hold|[_ Hfresh]].
      * rewrite Ep in Hold. exact Hold.
      * exfalso. apply Hsome in Hjob. rewrite Hfresh, next_ref_fresh in Hjob.
        destruct Hjob as [? Hjob]. discriminate Hjob.
    + exists jobs. rewrite Ejobs, El. split; [reflexivity|]. split; [exact Hlen|].
      intros j Hj. rewrite (Hpath j Hj). exact Hsel.
    + intros r d Hd Hne Hnot. apply Hheap.
      * rewrite Hframe by exact Hne. exact Hd.
      * left. rewrite Ep. apply Hnot, Hsel.
    + intros Hnofile. rewrite (Hnofile f Hf) in Hfile. discriminate Hfile.
Qed.
End PreviewResultsFacts.

(** ** Tab: the pathway after [enter_dir], and [history_go] *)

Module TabPathsFacts.
Import Tab TabPaths.

Lemma sappend_cons x (a b : string) :
  String.append (String x a) b = String x (String.append a b).
Proof. reflexivity. Qed.

Lemma sappend_nil_r (a : string) : String.append a "" = a.
Proof.
  induction a as [|x a IH]; [reflexivity|]. rewrite sappend_cons, IH. reflexivity.
Qed.

Lemma sappend_assoc (a b c : string) :
  String.append (String.append a b) c = String.append a (String.append b c).
Proof.
  induction a as [|x a IH]; [reflexivity|]. rewrite !sappend_cons, IH. reflexivity.
Qed.

Lemma split_slash_from_name c s : forall cur,
  no_slash c = true ->
  split_slash_from cur (String.append c s)
  = split_slash_from (String.append cur c) s.
Proof.
  induction c as [|x c IH]; intros cur Hc.
  - rewrite sappend_nil_r. reflexivity.
  - simpl in Hc. apply andb_true_iff in Hc as [Hx Hc].
    apply negb_true_iff in Hx. rewrite sappend_cons. cbn [split_slash_from].
    rewrite Hx, IH by exact Hc. rewrite sappend_assoc. reflexivity.
Qed.

Lemma split_slash_from_path cs : forall c,
  Forall is_name cs -> split_slash_from c (path_of cs) = c :: cs.
Proof.
  induction cs as [|c' cs IH]; intros c Hcs; [reflexivity|].
  apply Forall_cons in Hcs as [[_ Hc'] Hcs].
  cbn [path_of split_slash_from]. change (Ascii.eqb "/" "/") with true. cbv iota.
  rewrite split_slash_from_name by exact Hc'. f_equal. apply IH, Hcs.
Qed.

Lemma split_slash_absolute c cs :
  Forall is_name (c :: cs) -> split_slash (absolute (c :: cs)) = "" :: c :: cs.
Proof.
  intros H. unfold split_slash, absolute.
  apply (split_slash_from_path (c :: cs) "" H).
Qed.

Lemma path_of_app pre c :
  path_of (pre ++ [c]) = String.append (path_of pre) (String "/" c).
Proof.
  induction pre as [|x pre IH]; simpl.
  - rewrite sappend_nil_r. reflexivity.
  - rewrite IH, sappend_cons, sappend_assoc. reflexivity.
Qed.

Lemma name_first c : is_name c -> String.prefix "/" c = false.
Proof.
  intros [Hne Hc]. destruct c as [|x c]; [contradiction|].
  simpl in Hc. apply andb_true_iff in Hc as [Hx _]. apply negb_true_iff in Hx.
  cbn [String.prefix]. destruct (Ascii.ascii_dec "/" x) as [E|_]; [|reflexivity].
  subst x. discriminate Hx.
Qed.

Lemma name_last c :
  is_name c -> exists s x, c = String.append s (String x "") /\ Ascii.eqb x "/" = false.
Proof.
  intros [Hne Hc]. induction c as [|y c IH]; [contradiction|].
  simpl in Hc. apply andb_true_iff in Hc as [Hy Hc]. apply negb_true_iff in Hy.
  destruct c as [|z c].
  - exists "", y. split; [reflexivity | exact Hy].
  - destruct (IH ltac:(discriminate) Hc) as (s & x & E & Hx).
    exists (String y s), x. rewrite E. split; [reflexivity | exact Hx].
Qed.

Lemma substring_last s x :
  String.substring (String.length (String.append s (String x "")) - 1) 1
    (String.append s (String x ""))
  = String x "".
Proof.
  induction s as [|y s IH]; [reflexivity|].
  rewrite sappend_cons. cbn [String.length].
  destruct (String.length (String.append s (String x ""))) as [|k] eqn:E.
  - destruct s; discriminate E.
  - replace (S (S k) - 1) with (S k) by lia. cbn [String.substring].
    replace (S k - 1) with k in IH by lia. exact IH.
Qed.

Lemma join_root c : is_name c -> join "/" c = String "/" c.
Proof. intros Hc. unfold join. rewrite (name_first c Hc). reflexivity. Qed.

Lemma join_below a x c :
  Ascii.eqb x "/" = false -> is_name c ->
  join (String.append a (String x "")) c
  = String.append (String.append a (String x "")) (String "/" c).
Proof.
  intros Hx Hc. unfold join. rewrite (name_first c Hc), substring_last.
  replace (String.eqb (String.append a (String x "")) "") with false
    by (destruct a; reflexivity).
  replace (String.eqb (String x "") "/") with false; [reflexivity|].
  simpl. rewrite Hx. reflexivity.
Qed.

Lemma path_of_last pre :
  Forall is_name pre -> pre <> [] ->
  exists a x, path_of pre = String.append a (String x "") /\ Ascii.eqb x "/" = false.
Proof.
  intros Hpre Hne. destruct pre as [|c pre _] using rev_ind; [contradiction|].
  apply Forall_app in Hpre as [_ Hc]. apply Forall_cons in Hc as [Hc _].
  destruct (name_last c Hc) as (s & x & -> & Hx).
  exists (String.append (path_of pre) (String "/" s)), x.
  rewrite path_of_app, sappend_assoc. split; [reflexivity | exact Hx].
Qed.

Lemma join_absolute pre c :
  Forall is_name pre -> is_name c ->
  join (absolute pre) c = absolute (pre ++ [c]).
Proof.
  intros Hpre Hc. destruct pre as [|p0 pre].
  - simpl. rewrite join_root by exact Hc. rewrite sappend_nil_r. reflexivity.
  - destruct (path_of_last (p0 :: pre) Hpre ltac:(discriminate)) as (a & x & E & Hx).
    change (absolute (p0 :: pre)) with (path_of (p0 :: pre)).
    change (absolute ((p0 :: pre) ++ [c])) with (path_of ((p0 :: pre) ++ [c])).
    rewrite path_of_app, E. apply join_below; assumption.
Qed.

Lemma fmap_seq_shift {A} (f g : nat -> A) n : forall start,
  (forall k, f (S k) = g k) ->
  f <$> seq (S start) n = g <$> seq start n.
Proof.
  induction n as [|n IH]; intros start Hfg; [reflexivity|].
  cbn [seq fmap list_fmap]. rewrite Hfg. f_equal. apply IH, Hfg.
Qed.

Section WithEnvironment.
Context {Dirs DirRef FsObj : Type} `{EqDecision DirRef}.
Context {env : Environment Dirs DirRef FsObj}.
Variable ref_of : string -> DirRef.
Hypothesis get_directory_ref : forall q d, fst (get_directory q d) = ref_of q.

Lemma build_pathway_cons x rest cur (d : Dirs) (acc : list DirRef) :
  build_pathway (x :: rest) cur d acc
  = (let '(obj, d') := get_directory (join cur x) d in
     build_pathway rest (join cur x) d' (acc ++ [obj])).
Proof. reflexivity. Qed.

Lemma build_pathway_refs rest : forall pre d acc,
  Forall is_name pre -> Forall is_name rest ->
  fst (build_pathway rest (absolute pre) d acc)
  = acc ++ ((fun k => ref_of (absolute (pre ++ take k rest))) <$> seq 1 (length rest)).
Proof.
  induction rest as [|c rest IH]; intros pre d acc Hpre Hrest.
  - simpl. rewrite app_nil_r. reflexivity.
  - apply Forall_cons in Hrest as [Hc Hrest]. rewrite build_pathway_cons.
    rewrite join_absolute by assumption.
    pose proof (get_directory_ref (absolute (pre ++ [c])) d) as Hobj.
    destruct (get_directory (absolute (pre ++ [c])) d) as [obj d']. simpl in Hobj.
    rewrite IH by (try apply Forall_app; auto).
    rewrite <- app_assoc. f_equal. cbn [length seq fmap list_fmap].
    rewrite Hobj. f_equal. symmetry. apply fmap_seq_shift.
    intros k. rewrite <- app_assoc. reflexivity.
Qed.

(** X21: After a successful [enter_dir] into the normalised absolute path
    "/c1/.../cn", the pathway has [n + 1] entries, its entry number [k] is
    the directory object of "/c1/.../ck" (the root first), and its last
    entry is the new current directory; that holds when equal paths get
    the same directory object. *)
Theorem enter_dir_pathway (tab : Tab.t DirRef FsObj) (fm : Tab.Fm Dirs DirRef FsObj)
  (p : string) (record_history : bool) (comps : list string) :
  Forall is_name comps ->
  normpath (join (path tab) (expanduser p)) = absolute comps ->
  isdir (absolute comps) = true ->
  chdir_succeeds (absolute comps) = true ->
  let tab' := snd (fst (enter_dir tab fm (Some p) record_history)) in
  pathway tab'
    = (fun k => ref_of (absolute (take k comps))) <$> seq 0 (S (length comps)) /\
  thisdir tab' = Some (ref_of (absolute comps)) /\
  last (pathway tab') = thisdir tab' /\
  path tab' = absolute comps.
Proof.
  intros Hcomps Hres Hdir Hch tab'.
  assert (Hpw : pathway tab'
    = (fun k => ref_of (absolute (take k comps))) <$> seq 0 (S (length comps)) /\
    thisdir tab' = Some (ref_of (absolute comps)) /\ path tab' = absolute comps).
  { subst tab'. unfold enter_dir. rewrite Hres, Hdir. cbn [negb].
    pose proof (get_directory_ref (absolute comps) (dirs fm)) as Hnew.
    destruct (get_directory (absolute comps) (dirs fm)) as [new_thisdir d1].
    simpl in Hnew. rewrite Hch. cbn [negb].
    destruct comps as [|c cs].
    - simpl.
      pose proof (get_directory_ref "/" (load_content_if_outdated new_thisdir d1)) as Hroot.
      destruct (get_directory "/" _) as [root d]. simpl in *.
      rewrite Hroot, Hnew. repeat split.
    - replace (String.eqb (absolute (c :: cs)) "/") with false.
      2:{ apply Forall_cons in Hcomps as [[Hne _] _].
          simpl. destruct c; [contradiction | reflexivity]. }
      rewrite split_slash_absolute by exact Hcomps.
      rewrite build_pathway_cons.
      change (join "/" "") with (absolute []).
      pose proof (get_directory_ref (absolute [])
                    (load_content_if_outdated new_thisdir d1)) as Hroot.
      destruct (get_directory (absolute []) _) as [root d]. simpl in Hroot.
      pose proof (build_pathway_refs (c :: cs) [] d ([] ++ [root])
                    (Forall_nil_2 _) Hcomps) as Hb.
      destruct (build_pathway (c :: cs) (absolute []) d ([] ++ [root])) as [pw d3].
      simpl in Hb. simpl. rewrite Hb, Hroot, Hnew. repeat split. }
  destruct Hpw as (Hpw & Hthis & Hpath).
  split; [exact Hpw|]. split; [exact Hthis|]. split; [|exact Hpath].
  rewrite Hpw, Hthis, seq_S, fmap_app. simpl. rewrite last_snoc, firstn_all.
  reflexivity.
Qed.

Variable go : DirRef -> Tab.t DirRef FsObj -> Tab.Fm Dirs DirRef FsObj ->
              Tab.t DirRef FsObj * Tab.Fm Dirs DirRef FsObj.

(** X22: [history_go(0)] on a tab with a history raises [AttributeError] and
    changes nothing ([History.move(0)] returns [None]); on a tab without
    history, [history_go] does nothing whatever the offset. *)
Theorem history_go_edges (tab : Tab.t DirRef FsObj) (fm : Tab.Fm Dirs DirRef FsObj) :
  (History.history (history tab) <> [] ->
   history_go go tab fm 0 = (Raise AttributeError, tab, fm)) /\
  (History.history (history tab) = [] ->
   forall relative, history_go go tab fm relative = (Ok tt, tab, fm)).
Proof.
  unfold history_go, History.len. split.
  - intros Hne. destruct (History.history (history tab)) as [|x l] eqn:E;
      [contradiction|].
    simpl. destruct tab; reflexivity.
  - intros -> relative. reflexivity.
Qed.
End WithEnvironment.

Lemma enter_dir_pathway_witness :
  pathway (snd (fst (@enter_dir _ _ _ _ (example_env true) example_tab example_fm
                       (Some "a") true)))
  = ["/"; "/a"].
Proof.
  apply (@enter_dir_pathway _ _ _ _ (example_env true) (fun q => q)
           (fun q d => eq_refl) example_tab example_fm "a" true ["a"]).
  - repeat constructor; discriminate.
  - reflexivity.
  - reflexivity.
  - reflexivity.
Defined.

End TabPathsFacts.

(** ** Tabs of the file manager: closing, moving, opening *)

Module TabsFacts.
Import Tabs.

Lemma tab_list_elem (fm : Fm) (x : Z) :
  x ∈ merge_sort Z.le (elements (dom (tabs fm))) <-> x ∈ dom (tabs fm).
Proof.
  rewrite merge_sort_Permutation. apply elem_of_elements.
Qed.

Lemma tab_list_NoDup (fm : Fm) :
  NoDup (merge_sort Z.le (elements (dom (tabs fm)))).
Proof.
  rewrite merge_sort_Permutation. apply NoDup_elements.
Qed.

Lemma get_tab_list_open (fm : Fm) :
  current_tab fm ∈ dom (tabs fm) ->
  _get_tab_list fm = Done (merge_sort Z.le (elements (dom (tabs fm)))).
Proof.
  intros H. unfold _get_tab_list.
  destruct (Nat.ltb_spec 0 (size (tabs fm))) as [_|Hs]; [reflexivity|].
  exfalso. assert (size (tabs fm) = 0) as H0 by lia.
  apply map_size_empty_iff in H0. rewrite H0, dom_empty_L in H.
  set_solver.
Qed.

Lemma index_found (x : Z) (l : list Z) :
  x ∈ l -> exists i, index x l = Done i /\ l !! i = Some x.
Proof.
  intros H. unfold index.
  destruct (list_find_elem_of (fun y => y = x) l x H eq_refl) as [[i y] Hf].
  rewrite Hf. exists i. split; [reflexivity|].
  apply list_find_Some in Hf. destruct Hf as (Hl & -> & _). exact Hl.
Qed.

Lemma index_lookup (l : list Z) (i : nat) (x : Z) :
  NoDup l -> l !! i = Some x -> index x l = Done i.
Proof.
  intros Hnd Hl.
  destruct (index_found x l) as (j & Hj & Hlj).
  { eapply list_elem_of_lookup_2, Hl. }
  rewrite Hj. f_equal. eapply NoDup_lookup; eauto.
Qed.

Lemma getitem_mod (l : list Z) (k : Z) :
  l <> [] ->
  exists x, getitem l (k mod Z.of_nat (length l)) = Done x
            /\ l !! Z.to_nat (k mod Z.of_nat (length l)) = Some x.
Proof.
  intros Hl.
  assert (0 < length l) as Hlen by (destruct l; [congruence | simpl; lia]).
  pose proof (Z.mod_pos_bound k (Z.of_nat (length l)) ltac:(lia)) as Hb.
  assert ((k mod Z.of_nat (length l) <? 0)%Z = false) as Hf
    by (apply Z.ltb_ge; lia).
  unfold getitem. rewrite Hf. cbv beta iota zeta. rewrite Hf.
  destruct (l !! Z.to_nat (k mod Z.of_nat (length l))) as [x|] eqn:E.
  - exists x. split; reflexivity.
  - apply lookup_ge_None in E. lia.
Qed.

Lemma getitem_last (l : list Z) :
  l <> [] -> exists x, getitem l (-1) = Done x.
Proof.
  intros Hl.
  assert (0 < length l) as Hlen by (destruct l; [congruence | simpl; lia]).
  assert ((-1 + Z.of_nat (length l) <? 0)%Z = false) as Hf
    by (apply Z.ltb_ge; lia).
  unfold getitem. change (-1 <? 0)%Z with true. cbv beta iota zeta. rewrite Hf.
  destruct (l !! Z.to_nat (-1 + Z.of_nat (length l))) as [x|] eqn:E.
  - exists x. reflexivity.
  - apply lookup_ge_None in E. lia.
Qed.

Lemma find_lowest (f : Z -> bool) (n a : nat) (i : Z) :
  List.find f (Z.of_nat <$> seq a n) = Some i ->
  forall j : nat, a <= j -> (Z.of_nat j < i)%Z -> f (Z.of_nat j) = false.
Proof.
  revert a. induction n as [|n IH]; intros a Hf j Ha Hj; [discriminate|].
  cbn [seq fmap list_fmap List.find] in Hf.
  destruct (f (Z.of_nat a)) eqn:Efa.
  - injection Hf as <-. lia.
  - destruct (decide (j = a)) as [->|Hne]; [exact Efa|].
    apply (IH (S a) Hf j); lia.
Qed.

Section WithCallees.

Variable enter_dir : string -> Fm -> Fm.
Variable emit_tab_change : Fm -> Fm.
Hypothesis enter_dir_keeps : forall p, keeps_tabs (enter_dir p).
Hypothesis emit_keeps : keeps_tabs emit_tab_change.

#[local] Abbreviation tab_open := (Tabs.tab_open enter_dir emit_tab_change).
#[local] Abbreviation tab_move := (Tabs.tab_move enter_dir emit_tab_change).
#[local] Abbreviation tab_close := (Tabs.tab_close enter_dir emit_tab_change).
#[local] Abbreviation tab_new := (Tabs.tab_new enter_dir emit_tab_change).

Lemma tab_open_existing (name : Z) (fm : Fm) :
  name ∈ dom (tabs fm) ->
  current_tab (tab_open name None fm) = name
  /\ dom (tabs (tab_open name None fm)) = dom (tabs fm).
Proof.
  intros Hin. unfold Tabs.tab_open.
  destruct (proj1 (elem_of_dom _ _) Hin) as [p Hp].
  cbn [py_or set_current_tab tabs]. rewrite Hp.
  set (fm1 := set_visual None (set_current_tab name fm)).
  destruct (enter_dir_keeps p fm1 Hin) as [Hc Hd].
  change (current_tab fm1) with name in Hc.
  change (tabs fm1) with (tabs fm) in Hd.
  destruct (negb (name =? current_tab fm)%Z); cbv iota.
  - destruct (emit_keeps (enter_dir p fm1)) as [Hc' Hd'].
    { rewrite Hc, Hd. exact Hin. }
    rewrite Hc', Hd', Hc, Hd. split; reflexivity.
  - rewrite Hc, Hd. split; reflexivity.
Qed.

Lemma tab_open_fresh (name : Z) (fm : Fm) :
  name ∉ dom (tabs fm) ->
  current_tab (tab_open name None fm) = name
  /\ dom (tabs (tab_open name None fm)) = {[name]} ∪ dom (tabs fm).
Proof.
  intros Hin. unfold Tabs.tab_open.
  apply not_elem_of_dom in Hin.
  cbn [py_or set_current_tab tabs]. rewrite Hin.
  set (fm1 := _update_current_tab (set_current_tab name fm)).
  assert (current_tab fm1 = name /\ dom (tabs fm1) = {[name]} ∪ dom (tabs fm))
    as [Hc Hd].
  { split; [reflexivity|]. apply dom_insert_L. }
  destruct (negb (name =? current_tab fm)%Z); cbv iota.
  - destruct (emit_keeps fm1) as [Hc' Hd'].
    { rewrite Hc, Hd. apply elem_of_union_l, elem_of_singleton. reflexivity. }
    rewrite Hc', Hd', Hc, Hd. split; reflexivity.
  - split; assumption.
Qed.

Lemma tab_move_spec (offset : Z) (fm : Fm) :
  current_tab fm ∈ dom (tabs fm) ->
  let tablist := merge_sort Z.le (elements (dom (tabs fm))) in
  exists i fm',
    tab_move offset fm = Done fm'
    /\ tablist !! i = Some (current_tab fm)
    /\ tablist !! Z.to_nat ((Z.of_nat i + offset) mod Z.of_nat (length tablist))
       = Some (current_tab fm')
    /\ dom (tabs fm') = dom (tabs fm)
    /\ (current_tab fm' = current_tab fm -> fm' = fm).
Proof.
  intros Hin tablist. unfold Tabs.tab_move.
  rewrite (get_tab_list_open fm Hin). fold tablist.
  destruct (index_found (current_tab fm) tablist) as (i & Hi & Hli).
  { apply tab_list_elem, Hin. }
  rewrite Hi.
  assert (tablist <> []) as Hne.
  { intros E. rewrite E in Hli. discriminate. }
  destruct (getitem_mod tablist (Z.of_nat i + offset) Hne) as (x & Hx & Hlx).
  rewrite Hx. exists i.
  destruct (Z.eqb_spec x (current_tab fm)) as [E|E].
  - exists fm. subst x. repeat split; assumption.
  - exists (tab_open x None fm).
    assert (x ∈ dom (tabs fm)) as Hxin.
    { apply tab_list_elem. eapply list_elem_of_lookup_2, Hlx. }
    destruct (tab_open_existing x fm Hxin) as [Hc Hd].
    rewrite Hc, Hd. repeat split; try assumption.
    intros Hx'. contradiction.
Qed.

Lemma tab_close_spec (name : option Z) (fm : Fm) :
  current_tab fm ∈ dom (tabs fm) ->
  exists fm',
    tab_close name fm = Done fm'
    /\ current_tab fm' ∈ dom (tabs fm')
    /\ (fm' = fm
        \/ dom (tabs fm') = dom (tabs fm) ∖ {[default (current_tab fm) name]}).
Proof.
  intros Hin. unfold Tabs.tab_close.
  set (n := default (current_tab fm) name).
  destruct (Z.eqb_spec n (current_tab fm)) as [E|E].
  - rewrite (get_tab_list_open fm Hin).
    set (tablist := merge_sort Z.le (elements (dom (tabs fm)))).
    assert (tablist <> []) as Hne.
    { intros E0. pose proof (proj2 (tab_list_elem fm _) Hin) as H0.
      fold tablist in H0. rewrite E0 in H0. inversion H0. }
    destruct (getitem_last tablist Hne) as [final ->].
    destruct (tab_move_spec (if (n =? final)%Z then (-1)%Z else 1%Z) fm Hin)
      as (i & fm1 & -> & Hi & Hj & Hd & Hsame).
    fold tablist in Hi, Hj.
    assert (current_tab fm1 ∈ dom (tabs fm)) as Hin1.
    { apply tab_list_elem. eapply list_elem_of_lookup_2, Hj. }
    destruct (Z.eqb_spec (current_tab fm) (current_tab fm1)) as [E1|E1].
    + exists fm1. split; [reflexivity|]. split; [rewrite Hd; exact Hin1|].
      left. apply Hsame. congruence.
    + eexists. split; [reflexivity|].
      cbn [set_tabs current_tab tabs]. rewrite dom_delete_L, Hd.
      split; [|right; reflexivity].
      apply elem_of_difference. split; [exact Hin1|].
      intros H%elem_of_singleton. congruence.
  - eexists. split; [reflexivity|].
    cbn [set_tabs current_tab tabs]. rewrite dom_delete_L.
    split; [|right; reflexivity]. set_solver.
Qed.

(** X23: when [enter_dir] and the handlers of [tab.change] keep the tab
    shown and the names of the open tabs, [tab_close] on a state whose
    current tab is open returns, the tab shown afterwards is an open one,
    and either nothing changed or exactly the named tab is gone. *)
Theorem tab_close_keeps_current (name : option Z) (fm : Fm) :
  current_tab fm ∈ dom (tabs fm) ->
  exists fm',
    tab_close name fm = Done fm'
    /\ current_tab fm' ∈ dom (tabs fm')
    /\ (fm' = fm
        \/ dom (tabs fm') = dom (tabs fm) ∖ {[default (current_tab fm) name]}).
Proof.
  apply tab_close_spec.
Qed.

(** X24: Moving by [offset] and then by [-offset] shows the first tab again. *)
Theorem tab_move_back (offset : Z) (fm : Fm) :
  current_tab fm ∈ dom (tabs fm) ->
  exists fm1 fm2,
    tab_move offset fm = Done fm1
    /\ tab_move (- offset) fm1 = Done fm2
    /\ current_tab fm2 = current_tab fm.
Proof.
  intros Hin.
  destruct (tab_move_spec offset fm Hin) as (i & fm1 & H1 & Hi & Hj & Hd & _).
  assert (current_tab fm1 ∈ dom (tabs fm1)) as Hin1.
  { rewrite Hd. apply tab_list_elem. eapply list_elem_of_lookup_2, Hj. }
  destruct (tab_move_spec (- offset) fm1 Hin1) as (j & fm2 & H2 & Hi2 & Hj2 & Hd2 & _).
  rewrite Hd in Hi2, Hj2.
  set (tablist := merge_sort Z.le (elements (dom (tabs fm)))) in *.
  exists fm1, fm2. split; [exact H1|]. split; [exact H2|].
  assert (NoDup tablist) as Hnd by apply tab_list_NoDup.
  assert (i < length tablist) as Hlt by (eapply lookup_lt_Some, Hi).
  set (L := Z.of_nat (length tablist)) in *.
  pose proof (Z.mod_pos_bound (Z.of_nat i + offset) L ltac:(lia)) as Hb.
  assert (j = Z.to_nat ((Z.of_nat i + offset) mod L)) as ->.
  { eapply NoDup_lookup; eauto. }
  rewrite Z2Nat.id in Hj2 by lia.
  replace (((Z.of_nat i + offset) mod L + - offset) mod L)%Z
    with (Z.of_nat i) in Hj2.
  - rewrite Nat2Z.id in Hj2. congruence.
  - rewrite Zplus_mod_idemp_l.
    replace (Z.of_nat i + offset + - offset)%Z with (Z.of_nat i) by lia.
    symmetry. apply Z.mod_small. lia.
Qed.

(** X25: With a single tab open, [tab_close] changes nothing, whichever name it
    is given. *)
Theorem tab_close_last_tab (name : option Z) (fm : Fm) :
  dom (tabs fm) = {[current_tab fm]} ->
  tab_close name fm = Done fm.
Proof.
  intros Hdom.
  assert (current_tab fm ∈ dom (tabs fm)) as Hin.
  { rewrite Hdom. apply elem_of_singleton. reflexivity. }
  destruct (Z.eqb_spec (default (current_tab fm) name) (current_tab fm))
    as [E|E].
  - destruct (tab_close_spec name fm Hin) as (fm' & -> & Hin' & [->|Hd]).
    + reflexivity.
    + exfalso. rewrite Hd, Hdom, E in Hin'.
      apply elem_of_difference in Hin' as [H1 H2]. contradiction.
  - unfold Tabs.tab_close.
    destruct (Z.eqb_spec (default (current_tab fm) name) (current_tab fm))
      as [E'|_]; [contradiction|].
    rewrite delete_id.
    + destruct fm; reflexivity.
    + apply not_elem_of_dom. rewrite Hdom. intros H%elem_of_singleton.
      contradiction.
Qed.

(** X26: when the handlers of [tab.change] keep the tab shown and the names
    of the open tabs ([emit_keeps]), [tab_new] without a path opens the
    lowest of the numbers 1 to 9 that is free and shows it; with all nine
    taken it does nothing. *)
Theorem tab_new_lowest_free (fm : Fm) :
  (exists i : Z,
      (1 <= i <= 9)%Z /\ (i ∉ dom (tabs fm))
      /\ (forall j : Z, (1 <= j < i)%Z -> j ∈ dom (tabs fm))
      /\ current_tab (tab_new None fm) = i
      /\ dom (tabs (tab_new None fm)) = {[i]} ∪ dom (tabs fm))
  \/ ((forall j : Z, (1 <= j <= 9)%Z -> j ∈ dom (tabs fm))
      /\ tab_new None fm = fm).
Proof.
  unfold Tabs.tab_new.
  destruct (List.find _ _) as [i|] eqn:Hf.
  - left. exists i.
    pose proof Hf as Hf'.
    apply List.find_some in Hf' as [Hi Hfree].
    apply bool_decide_eq_true_1, not_elem_of_dom in Hfree.
    assert ((1 <= i <= 9)%Z) as Hr.
    { apply list_elem_of_In, list_elem_of_fmap in Hi as (k & -> & Hk).
      apply elem_of_seq in Hk. lia. }
    destruct (tab_open_fresh i fm Hfree) as [Hc Hd].
    split; [exact Hr|]. split; [exact Hfree|].
    split; [|split; assumption].
    intros j Hj.
    destruct (decide (j ∈ dom (tabs fm))) as [|Hn]; [assumption|exfalso].
    apply not_elem_of_dom in Hn.
    pose proof (find_lowest _ 9 1 i Hf (Z.to_nat j)) as Hj'.
    rewrite Z2Nat.id in Hj' by lia.
    specialize (Hj' ltac:(lia) ltac:(lia)).
    apply bool_decide_eq_false_1 in Hj'. contradiction.
  - right. split; [|reflexivity].
    intros j Hj.
    destruct (decide (j ∈ dom (tabs fm))) as [|Hn]; [assumption|exfalso].
    apply not_elem_of_dom in Hn.
    assert (bool_decide (tabs fm !! j = None) = false) as Hb.
    { apply (List.find_none _ _ Hf j).
      apply list_elem_of_In, list_elem_of_fmap. exists (Z.to_nat j).
      split; [lia|]. apply elem_of_seq. lia. }
    apply bool_decide_eq_false_1 in Hb. contradiction.
Qed.

End WithCallees.

Lemma example_enter_dir_keeps (p : string) : keeps_tabs (example_enter_dir p).
Proof.
  intros fm Hin. split; [reflexivity|].
  unfold example_enter_dir. cbn [tabs]. rewrite dom_insert_L.
  apply subseteq_union_1_L, singleton_subseteq_l, Hin.
Qed.

Lemma no_handler_keeps : keeps_tabs (fun fm => fm).
Proof.
  intros fm _. split; reflexivity.
Qed.

Lemma example_fm_current : current_tab example_fm ∈ dom (tabs example_fm).
Proof.
  apply elem_of_dom. exists "/b". reflexivity.
Qed.

Lemma tab_close_keeps_current_witness :
  exists fm',
    tab_close example_enter_dir (fun fm => fm) None example_fm = Done fm'
    /\ current_tab fm' ∈ dom (tabs fm')
    /\ (fm' = example_fm
        \/ dom (tabs fm') = dom (tabs example_fm) ∖ {[2%Z]}).
Proof.
  apply (tab_close_keeps_current example_enter_dir (fun fm => fm)
           example_enter_dir_keeps no_handler_keeps None example_fm).
  exact example_fm_current.
Defined.

Lemma tab_move_back_witness :
  exists fm1 fm2,
    tab_move example_enter_dir (fun fm => fm) 5 example_fm = Done fm1
    /\ tab_move example_enter_dir (fun fm => fm) (-5) fm1 = Done fm2
    /\ current_tab fm2 = 2%Z.
Proof.
  apply (tab_move_back example_enter_dir (fun fm => fm)
           example_enter_dir_keeps no_handler_keeps 5 example_fm).
  exact example_fm_current.
Defined.

Lemma tab_close_last_tab_witness :
  tab_close example_enter_dir (fun fm => fm) None
    (mkFm {[3%Z := "/a"]} 3 "/a" None)
  = Done (mkFm {[3%Z := "/a"]} 3 "/a" None).
Proof.
  apply (tab_close_last_tab example_enter_dir (fun fm => fm)
           example_enter_dir_keeps no_handler_keeps).
  apply dom_singleton_L.
Defined.

Lemma tab_new_lowest_free_witness :
  (exists i : Z,
      (1 <= i <= 9)%Z /\ (i ∉ dom (tabs example_fm))
      /\ (forall j : Z, (1 <= j < i)%Z -> j ∈ dom (tabs example_fm))
      /\ current_tab (tab_new example_enter_dir (fun fm => fm) None example_fm) = i
      /\ dom (tabs (tab_new example_enter_dir (fun fm => fm) None example_fm))
         = {[i]} ∪ dom (tabs example_fm))
  \/ ((forall j : Z, (1 <= j <= 9)%Z -> j ∈ dom (tabs example_fm))
      /\ tab_new example_enter_dir (fun fm => fm) None example_fm = example_fm).
Proof.
  apply (tab_new_lowest_free example_enter_dir (fun fm => fm)
           no_handler_keeps example_fm).
Defined.

End TabsFacts.
